(** * Criticality analysis: bottom-up usage, depth/breadth criticality and
      PageRank importance over a mission / operational-data graph.

    Shallow embedding of [app.py].  The three request handlers
    [bottom_up_process], [bfs_dfs_analysis] and [pagerank_analysis] are
    functions of the JSON payload, up to the matrix or score maps they
    compute; plotting and file output are left out.

    - The parts of networkx that the handlers call (graph construction,
      [predecessors], [successors], [in_degree], [topological_sort]) are
      modelled from the library's behaviour on [DiGraph]; [nx.pagerank] is a
      parameter of the importance computation.
    - Matrix entries and scores are exact rationals ([Q]).
    - A Python exception is a [Raise]; the recursive helpers take the
      recursion depth that is still available and raise [RecursionError]
      when it is used up.
    - Python sets are lists without repetition, in insertion order. *)

From Stdlib Require Import String ZArith QArith Lia Lqa Bool Arith List Permutation.
Import ListNotations.

(** ** Identifiers, exceptions, results *)

Abbreviation ident := string.

Definition mem (x : ident) (l : list ident) : bool :=
  existsb (String.eqb x) l.

Abbreviation edge := (string * string)%type.

Definition edge_eqb (e1 e2 : edge) : bool :=
  String.eqb (fst e1) (fst e2) && String.eqb (snd e1) (snd e2).

Definition edge_mem (e : edge) (l : list edge) : bool :=
  existsb (edge_eqb e) l.

(** The Python exceptions that the handlers can run into. *)
Inductive exn : Type :=
| KeyError
| UnboundLocalError
| RecursionError
| NetworkXUnfeasible
| RuntimeError.

(** Outcome of a computation: a value, a raised exception, or [Diverge]
    when the iteration budget of a [while] loop is used up (the budgets
    used below are shown to be sufficient). *)
Inductive result (A : Type) : Type :=
| Ok (a : A)
| Raise (e : exn)
| Diverge.

Arguments Ok {A} a.
Arguments Raise {A} e.
Arguments Diverge {A}.

Definition bind {A B} (r : result A) (k : A -> result B) : result B :=
  match r with
  | Ok a => k a
  | Raise e => Raise e
  | Diverge => Diverge
  end.

Notation "x <- c ;; k" := (bind c (fun x => k))
  (at level 61, c at next level, right associativity).

(** [for b in l: a = f(a, b)] where the body may raise. *)
Fixpoint foldM {A B} (f : A -> B -> result A) (l : list B) (a : A) : result A :=
  match l with
  | [] => Ok a
  | b :: l' => a' <- f a b ;; foldM f l' a'
  end.

(** List comprehension whose element expression may raise. *)
Fixpoint mapM {A B} (f : A -> result B) (l : list A) : result (list B) :=
  match l with
  | [] => Ok []
  | a :: l' => b <- f a ;; bs <- mapM f l' ;; Ok (b :: bs)
  end.

(** Keys of a dict built by a comprehension over [l]: first occurrences, in
    insertion order. *)
Definition dict_keys (l : list ident) : list ident :=
  fold_left (fun acc k => if mem k acc then acc else acc ++ [k]) l [].

(** Position of a key in a dict built with [enumerate]. *)
Fixpoint index_of (k : ident) (l : list ident) : option nat :=
  match l with
  | [] => None
  | x :: l' => if String.eqb k x then Some 0%nat
               else option_map S (index_of k l')
  end.

(** ** Python dicts as association lists with unique keys, in insertion
    order *)

Fixpoint dict_get {V} (k : ident) (m : list (ident * V)) : option V :=
  match m with
  | [] => None
  | (k', v) :: m' => if String.eqb k k' then Some v else dict_get k m'
  end.

(** [m[k] = v]: an existing key keeps its position. *)
Fixpoint dict_set {V} (k : ident) (v : V) (m : list (ident * V))
  : list (ident * V) :=
  match m with
  | [] => [(k, v)]
  | (k', v') :: m' =>
      if String.eqb k k' then (k, v) :: m' else (k', v') :: dict_set k v m'
  end.

Fixpoint dict_del {V} (k : ident) (m : list (ident * V)) : list (ident * V) :=
  match m with
  | [] => []
  | (k', v') :: m' =>
      if String.eqb k k' then dict_del k m' else (k', v') :: dict_del k m'
  end.

(** [l[i] = x] for an index in range (every index below comes from
    [index_of] or [enumerate] over a list of the right length). *)
Fixpoint set_nth {A} (i : nat) (x : A) (l : list A) : list A :=
  match l, i with
  | [], _ => []
  | _ :: l', O => x :: l'
  | y :: l', S i' => y :: set_nth i' x l'
  end.

(** ** networkx.DiGraph

    A directed graph keeps its nodes and its edges in insertion order
    (networkx stores them in dicts).  [successors] and [predecessors] are
    only called on nodes of the graph in this program. *)
Module NX.

Record DiGraph : Type := mkDiGraph {
  nodes : list ident;
  edges : list edge
}.

Definition empty : DiGraph := mkDiGraph [] [].

Definition add_node (G : DiGraph) (n : ident) : DiGraph :=
  if mem n (nodes G) then G else mkDiGraph (nodes G ++ [n]) (edges G).

Definition add_nodes_from (ns : list ident) (G : DiGraph) : DiGraph :=
  fold_left add_node ns G.

(** [add_edge] first adds the endpoints that are not yet nodes. *)
Definition add_edge (G : DiGraph) (e : edge) : DiGraph :=
  let G2 := add_node (add_node G (fst e)) (snd e) in
  if edge_mem e (edges G2) then G2
  else mkDiGraph (nodes G2) (edges G2 ++ [e]).

Definition add_edges_from (es : list edge) (G : DiGraph) : DiGraph :=
  fold_left add_edge es G.

(** [G.successors(n)] and [G.predecessors(n)] for a node [n] of [G].  For
    an [n] that is not a node networkx raises [NetworkXError]; the handlers
    call both only at nodes of the graph (identifiers of the payload lists,
    nodes of a traversal path, successors and predecessors of such nodes),
    and the statements about the helper functions on an arbitrary graph
    take the node from the graph. *)
Definition successors (G : DiGraph) (n : ident) : list ident :=
  map snd (filter (fun e => String.eqb (fst e) n) (edges G)).

Definition predecessors (G : DiGraph) (n : ident) : list ident :=
  map fst (filter (fun e => String.eqb (snd e) n) (edges G)).

Definition in_degree (G : DiGraph) (n : ident) : Z :=
  Z.of_nat (length (predecessors G n)).

(** *** topological_sort (Kahn's algorithm, generation by generation) *)

Definition indegree_map := list (ident * Z).

(** Body of [for child in G.neighbors(node)]: decrement the in-degree of
    [child]; a missing key is networkx's "Graph changed during iteration". *)
Definition relax_child (st : indegree_map * list ident) (child : ident)
  : result (indegree_map * list ident) :=
  let '(im, zero_indegree) := st in
  match dict_get child im with
  | None => Raise RuntimeError
  | Some d =>
      let im' := dict_set child (d - 1)%Z im in
      if (d - 1 =? 0)%Z
      then Ok (dict_del child im', zero_indegree ++ [child])
      else Ok (im', zero_indegree)
  end.

(** Body of [for node in this_generation]. *)
Definition expand (G : DiGraph) (st : indegree_map * list ident) (node : ident)
  : result (indegree_map * list ident) :=
  foldM relax_child (successors G node) st.

Fixpoint topological_generations (budget : nat) (G : DiGraph)
    (im : indegree_map) (zero_indegree : list ident)
  : result (list (list ident)) :=
  match zero_indegree with
  | [] =>
      match im with
      | [] => Ok []
      | _ :: _ => Raise NetworkXUnfeasible
      end
  | _ :: _ =>
      match budget with
      | O => Diverge
      | S budget' =>
          st <- foldM (expand G) zero_indegree (im, []) ;;
          gens <- topological_generations budget' G (fst st) (snd st) ;;
          Ok (zero_indegree :: gens)
      end
  end.

Definition topological_sort (G : DiGraph) : result (list ident) :=
  let indegree_map :=
    map (fun v => (v, in_degree G v))
        (filter (fun v => (in_degree G v >? 0)%Z) (nodes G)) in
  let zero_indegree :=
    filter (fun v => (in_degree G v =? 0)%Z) (nodes G) in
  gens <- topological_generations (length (nodes G)) G
            indegree_map zero_indegree ;;
  Ok (concat gens).

End NX.

(** ** The request payload *)

Record NodeRec : Type := mkNode { UUID : ident; Name : string }.

Record HierarchyRec : Type := mkHierarchy {
  ChildMission : ident;
  ParentMission : ident
}.

Record UsageRec : Type := mkUsage {
  rel_OperationalData : ident;
  rel_Mission : ident
}.

Record Payload : Type := mkPayload {
  Mission : list NodeRec;
  OperationalData : list NodeRec;
  MissionHierarchy : list HierarchyRec;
  Mission_OperationalData : list UsageRec
}.

Definition matrix := list (list Q).

Definition zeros_row (n : nat) : list Q := repeat 0%Q n.

Definition zeros (r c : nat) : matrix := repeat (zeros_row c) r.

(** ** bottom_up_process *)
Module BottomUp.

Definition missions (data : Payload) : list ident :=
  dict_keys (map UUID (Mission data)).

Definition operational_data (data : Payload) : list ident :=
  dict_keys (map UUID (OperationalData data)).

Definition full_nodes (data : Payload) : list ident :=
  dict_keys (missions data ++ operational_data data).

Definition mission_hierarchy (data : Payload) : list edge :=
  map (fun rel => (ChildMission rel, ParentMission rel)) (MissionHierarchy data).

Definition mission_data_relations (data : Payload) : list edge :=
  map (fun rel => (rel_OperationalData rel, rel_Mission rel))
      (Mission_OperationalData data).

(** The combined graph [G]: edges child -> parent and data -> mission. *)
Definition G (data : Payload) : NX.DiGraph :=
  NX.add_edges_from (mission_hierarchy data ++ mission_data_relations data)
    (NX.add_nodes_from (full_nodes data) NX.empty).

(** The mission-only graph [M]. *)
Definition M (data : Payload) : NX.DiGraph :=
  NX.add_edges_from (mission_hierarchy data)
    (NX.add_nodes_from (missions data) NX.empty).

Definition find_leaf_mission_nodes (graph : NX.DiGraph) : list ident :=
  filter (fun n => (NX.in_degree graph n =? 0)%Z) (NX.nodes graph).

Definition lookup_index (k : ident) (keys : list ident) : result nat :=
  match index_of k keys with
  | Some i => Ok i
  | None => Raise KeyError
  end.

(** [np.sum(children_rows, axis=0) / len(children_rows)] on rows of
    [ncols] entries. *)
Definition calculated_mean (ncols : nat) (children_rows : list (list Q))
  : list Q :=
  map (fun j =>
         fold_left Qplus (map (fun row => nth j row 0%Q) children_rows) 0%Q
         / inject_Z (Z.of_nat (length children_rows)))
      (seq 0 ncols).

(** Body of [for m_uuid in traversal_path]. *)
Definition process_mission (data : Payload) (leaf_mission_nodes : list ident)
    (mat : matrix) (m_uuid : ident) : result matrix :=
  m_index <- lookup_index m_uuid (missions data) ;;
  if mem m_uuid leaf_mission_nodes then
    let connected_data_nodes :=
      filter (fun n => mem n (operational_data data))
             (NX.predecessors (G data) m_uuid) in
    foldM (fun mat d_uuid =>
             j <- lookup_index d_uuid (operational_data data) ;;
             Ok (set_nth m_index (set_nth j 100%Q (nth m_index mat [])) mat))
          connected_data_nodes mat
  else
    let children :=
      filter (fun n => mem n (missions data))
             (NX.predecessors (M data) m_uuid) in
    children_rows <-
      mapM (fun c => i <- lookup_index c (missions data) ;;
                     Ok (nth i mat [])) children ;;
    match children_rows with
    | _ :: _ =>
        Ok (set_nth m_index
              (calculated_mean (length (operational_data data)) children_rows)
              mat)
    | [] =>
        Ok (set_nth m_index (zeros_row (length (operational_data data))) mat)
    end.

(** The handler up to the matrix it renders.  When the topological sort
    raises [NetworkXUnfeasible] the [except] branch only prints, and the loop
    over [traversal_path] then finds the name unbound. *)
Definition bottom_up_process (data : Payload) : result matrix :=
  let mat := zeros (length (missions data)) (length (operational_data data)) in
  match NX.topological_sort (M data) with
  | Ok traversal_path =>
      foldM (process_mission data (find_leaf_mission_nodes (M data)))
            traversal_path mat
  | Raise NetworkXUnfeasible => Raise UnboundLocalError
  | Raise e => Raise e
  | Diverge => Diverge
  end.

End BottomUp.

(** ** bfs_dfs_analysis *)
Module Criticality.

(** List comprehension whose element expression threads a state. *)
Fixpoint mapM_st {S A B} (f : A -> S -> result (B * S)) (l : list A) (s : S)
  : result (list B * S) :=
  match l with
  | [] => Ok ([], s)
  | a :: l' =>
      r <- f a s ;;
      rs <- mapM_st f l' (snd r) ;;
      Ok (fst r :: fst rs, snd rs)
  end.

(** [calculate_depth(graph, node_id, visited)].  [limit] is the recursion
    depth still available ([RecursionError] when it is used up); the set
    [visited] is mutated in place, so its final state is returned with the
    depth. *)
Fixpoint calculate_depth (limit : nat) (graph : NX.DiGraph) (node_id : ident)
    (visited : list ident) : result (Z * list ident) :=
  match limit with
  | O => Raise RecursionError
  | S limit' =>
      if mem node_id visited then Ok (0%Z, visited)
      else
        r <- mapM_st (calculate_depth limit' graph)
               (NX.predecessors graph node_id) (node_id :: visited) ;;
        match fst r with
        | [] => Ok (0%Z, snd r)
        | d :: ds => Ok ((1 + fold_left Z.max ds d)%Z, snd r)
        end
  end.

Definition calculate_breadth (graph : NX.DiGraph) (node_id : ident) : Z :=
  Z.of_nat (length (NX.successors graph node_id)).

Definition operational_data (data : Payload) : list ident :=
  dict_keys (map UUID (OperationalData data)).

Definition G (data : Payload) : NX.DiGraph := BottomUp.G data.

Definition Qmax (a b : Q) : Q := if Qlt_le_dec a b then b else a.
Definition Qmin (a b : Q) : Q := if Qlt_le_dec b a then b else a.

(** [max(values, default=1)] and [min(values, default=0)]. *)
Definition max_default (dflt : Q) (l : list Q) : Q :=
  match l with [] => dflt | x :: l' => fold_left Qmax l' x end.
Definition min_default (dflt : Q) (l : list Q) : Q :=
  match l with [] => dflt | x :: l' => fold_left Qmin l' x end.

Record scores : Type := mkScores {
  non_normalized_scores : list (ident * Q);
  normalized_scores : list (ident * Q)
}.

(** The loop over the data nodes.  [calculate_depth] is called without a
    [visited] argument, so every call works on the one set object that the
    [def] created for the default; [visited] is its current content. *)
Definition criticality_loop (limit : nat) (data : Payload)
    (visited : list ident) : result (list (ident * Q) * list ident) :=
  foldM (fun (acc : list (ident * Q) * list ident) node_id =>
           r <- calculate_depth limit (G data) node_id (snd acc) ;;
           let depth := fst r in
           let breadth := calculate_breadth (G data) node_id in
           Ok (dict_set node_id
                 (inject_Z breadth + 1 / (inject_Z depth + 1))%Q (fst acc),
               snd r))
        (operational_data data) ([], visited).

Definition normalize (criticality_scores : list (ident * Q))
  : list (ident * Q) :=
  let max_score := max_default 1 (map snd criticality_scores) in
  let min_score := min_default 0 (map snd criticality_scores) in
  map (fun kv =>
         (fst kv,
          if Qlt_le_dec min_score max_score
          then 1 + 3 * (snd kv - min_score) / (max_score - min_score)
          else 1)%Q)
      criticality_scores.

(** One request: the scores (keyed by data identifier) and the content of
    the default [visited] set when the request returns. *)
Definition bfs_dfs_analysis (limit : nat) (visited : list ident)
    (data : Payload) : result (scores * list ident) :=
  r <- criticality_loop limit data visited ;;
  Ok (mkScores (fst r) (normalize (fst r)), snd r).

End Criticality.

(** ** pagerank_analysis *)
Module Importance.

(** The graph of this handler: edges parent -> child and mission -> data;
    [missions] and [operational_data] are lists of pairs here, so repeated
    identifiers stay in them. *)
Definition missions (data : Payload) : list ident := map UUID (Mission data).

Definition operational_data (data : Payload) : list ident :=
  map UUID (OperationalData data).

Definition mission_hierarchy_edges (data : Payload) : list edge :=
  map (fun h => (ParentMission h, ChildMission h)) (MissionHierarchy data).

Definition mission_operational_data_edges (data : Payload) : list edge :=
  map (fun a => (rel_Mission a, rel_OperationalData a))
      (Mission_OperationalData data).

Definition G (data : Payload) : NX.DiGraph :=
  NX.add_edges_from
    (mission_hierarchy_edges data ++ mission_operational_data_edges data)
    (NX.add_nodes_from (missions data ++ operational_data data) NX.empty).

(** [G.nodes[node_id].get('type') == 'OperationalData']: the attributes of
    the data entries are written last. *)
Definition is_operational_data (data : Payload) (node_id : ident) : bool :=
  mem node_id (operational_data data).

Fixpoint bfs_loop (budget : nat) (graph : NX.DiGraph) (end_ : ident)
    (visited : list ident) (queue : list (list ident)) : result (list ident) :=
  match queue with
  | [] => Ok []
  | path :: queue' =>
      match budget with
      | O => Diverge
      | S budget' =>
          let node := last path EmptyString in
          if String.eqb node end_ then Ok path
          else if mem node visited
               then bfs_loop budget' graph end_ visited queue'
               else bfs_loop budget' graph end_ (node :: visited)
                      (queue' ++ map (fun neighbor => path ++ [neighbor])
                                     (NX.successors graph node))
      end
  end.

(** [find_shortest_path(graph, start, end)]; every pass of the [while] loop
    either drops a queued path or marks a new node, which bounds the number
    of passes by the number of edges plus one. *)
Definition find_shortest_path (graph : NX.DiGraph) (start end_ : ident)
  : result (list ident) :=
  bfs_loop (S (length (NX.edges graph))) graph end_ [] [[start]].

Definition adjust_score_for_path_length (score : Q) (path_length : nat) : Q :=
  if (0 <? path_length)%nat
  then (score / inject_Z (Z.of_nat path_length))%Q
  else 0%Q.

Definition set_update (s : list ident) (l : list ident) : list ident :=
  fold_left (fun acc k => if mem k acc then acc else acc ++ [k]) l s.

(** [get_all_dependencies(graph, node_id)]: plain recursion on the
    successors; [limit] is the recursion depth still available. *)
Fixpoint get_all_dependencies (limit : nat) (graph : NX.DiGraph)
    (node_id : ident) : result (list ident) :=
  match limit with
  | O => Raise RecursionError
  | S limit' =>
      let direct_dependencies := NX.successors graph node_id in
      subs <- mapM (get_all_dependencies limit' graph) direct_dependencies ;;
      Ok (fold_left set_update subs (dict_keys direct_dependencies))
  end.

Section WithPageRank.

(** [nx.pagerank(G, alpha=0.85)], as the score it gives to each node (the
    power iteration is taken to converge). *)
Variable page_rank : NX.DiGraph -> ident -> Q.

(** The weights of one mission before normalisation, with their sum. *)
Definition adjusted_scores_of (limit : nat) (data : Payload)
    (mission_uuid : ident) : result (list (ident * Q) * Q) :=
  dependencies <- get_all_dependencies limit (G data) mission_uuid ;;
  let unique_dependencies := dict_keys dependencies in
  foldM (fun (acc : list (ident * Q) * Q) node_id =>
           if is_operational_data data node_id then
             path <- find_shortest_path (G data) mission_uuid node_id ;;
             let path_length := length path in
             let adjusted_score :=
               adjust_score_for_path_length
                 (page_rank (G data) node_id) path_length in
             Ok (dict_set node_id adjusted_score (fst acc),
                 (snd acc + adjusted_score)%Q)
           else Ok acc)
        unique_dependencies ([], 0%Q).

Definition normalize_scores (adjusted_scores : list (ident * Q))
    (total_adjusted_score : Q) : list (ident * Q) :=
  map (fun kv =>
         (fst kv,
          (snd kv / (if Qlt_le_dec 0 total_adjusted_score
                     then total_adjusted_score else 1))%Q))
      adjusted_scores.

Definition mission_scores (limit : nat) (data : Payload)
    (mission_uuid : ident) : result (list (ident * Q)) :=
  r <- adjusted_scores_of limit data mission_uuid ;;
  Ok (normalize_scores (fst r) (snd r)).

Definition missions_importance_scores (limit : nat) (data : Payload)
  : result (list (ident * list (ident * Q))) :=
  foldM (fun acc mission_uuid =>
           s <- mission_scores limit data mission_uuid ;;
           Ok (dict_set mission_uuid s acc))
        (missions data) [].

(** "Add operational data not linked as dependencies with a score of 0". *)
Definition fill_zero (data : Payload)
    (mission_data_scores : list (ident * list (ident * Q)))
  : result (list (ident * list (ident * Q))) :=
  foldM (fun mds mission_uuid =>
           foldM (fun mds data_uuid =>
                    match dict_get mission_uuid mds with
                    | None => Raise KeyError
                    | Some row =>
                        match dict_get data_uuid row with
                        | Some _ => Ok mds
                        | None =>
                            Ok (dict_set mission_uuid
                                  (dict_set data_uuid 0%Q row) mds)
                        end
                    end)
                 (operational_data data) mds)
        (missions data) mission_data_scores.

Definition score_matrix (data : Payload)
    (mission_data_scores : list (ident * list (ident * Q))) : result matrix :=
  mapM (fun mission_uuid =>
          mapM (fun data_uuid =>
                  match dict_get mission_uuid mission_data_scores with
                  | None => Raise KeyError
                  | Some row =>
                      match dict_get data_uuid row with
                      | None => Raise KeyError
                      | Some v => Ok v
                      end
                  end)
               (operational_data data))
       (missions data).

Record importance : Type := mkImportance {
  perMission : list (ident * list (ident * Q));
  score_mat : matrix
}.

(** The handler: the per-mission maps as they are dumped to JSON (before
    the zero entries are added) and the matrix. *)
Definition pagerank_analysis (limit : nat) (data : Payload)
  : result importance :=
  scores <- missions_importance_scores limit data ;;
  filled <- fill_zero data scores ;;
  mat <- score_matrix data filled ;;
  Ok (mkImportance scores mat).

End WithPageRank.

End Importance.

(** ** The helpers defined at module level

    [find_shortest_path] and [adjust_score_for_path_length] are repeated
    word for word inside [pagerank_analysis]; the module-level
    [get_all_dependencies] differs from the nested one: it follows
    [graph.predecessors]. *)
Module TopLevel.

Fixpoint get_all_dependencies (limit : nat) (graph : NX.DiGraph)
    (node_id : ident) : result (list ident) :=
  match limit with
  | O => Raise RecursionError
  | S limit' =>
      let direct_dependencies := NX.predecessors graph node_id in
      subs <- mapM (get_all_dependencies limit' graph) direct_dependencies ;;
      Ok (fold_left Importance.set_update subs (dict_keys direct_dependencies))
  end.

End TopLevel.

(** ** The scores of [bfs_dfs_analysis] under the names of the data nodes

    [scores_info] keys both score dicts by [operational_data[node_id]['label']];
    the response carries the normalized one. *)
Module Labels.

(** The dict [operational_data] of the handler, with the label of each
    identifier: a later record with the same [UUID] replaces the label. *)
Definition operational_data (data : Payload) : list (ident * string) :=
  fold_left (fun acc d => dict_set (UUID d) (Name d) acc)
            (OperationalData data) [].

(** [{operational_data[node_id]['label']: score for node_id, score in
    scores.items()}]. *)
Definition relabel (operational_data : list (ident * string))
    (scores : list (ident * Q)) : result (list (string * Q)) :=
  foldM (fun acc kv =>
           match dict_get (fst kv) operational_data with
           | Some label => Ok (dict_set label (snd kv) acc)
           | None => Raise KeyError
           end)
        scores [].

Record scores_info : Type := mkScoresInfo {
  normalized_scores : list (string * Q);
  non_normalized_scores : list (string * Q)
}.

Definition make_scores_info (data : Payload) (s : Criticality.scores)
  : result scores_info :=
  n <- relabel (operational_data data) (Criticality.normalized_scores s) ;;
  r <- relabel (operational_data data) (Criticality.non_normalized_scores s) ;;
  Ok (mkScoresInfo n r).

(** The entry [criticality_scores] of the response. *)
Definition response (limit : nat) (visited : list ident) (data : Payload)
  : result (list (string * Q)) :=
  r <- Criticality.bfs_dfs_analysis limit visited data ;;
  info <- make_scores_info data (fst r) ;;
  Ok (normalized_scores info).

End Labels.

Open Scope string_scope.
Open Scope list_scope.

(** * Specification vocabulary *)

(** A walk of the graph: consecutive vertices are joined by an edge. *)
Fixpoint walk (G : NX.DiGraph) (l : list ident) : Prop :=
  match l with
  | [] => True
  | x :: l' =>
      match l' with
      | [] => True
      | y :: _ => In (x, y) (NX.edges G) /\ walk G l'
      end
  end.

(** A cycle is a closed walk with at least one edge. *)
Definition has_cycle (G : NX.DiGraph) : Prop :=
  exists v l, walk G (v :: l ++ [v]).

Definition acyclic (G : NX.DiGraph) : Prop := ~ has_cycle G.

(** Index of the first occurrence ([length l] when absent). *)
Fixpoint position (x : ident) (l : list ident) : nat :=
  match l with
  | [] => O
  | y :: l' => if String.eqb x y then O else S (position x l')
  end.

(** [l] lists every node once, sources of edges before their targets. *)
Definition topological_order (G : NX.DiGraph) (l : list ident) : Prop :=
  NoDup l /\
  (forall v, In v l <-> In v (NX.nodes G)) /\
  (forall u v, In (u, v) (NX.edges G) -> (position u l < position v l)%nat).

(** What the graph constructors maintain. *)
Definition wf_graph (G : NX.DiGraph) : Prop :=
  NoDup (NX.nodes G) /\ NoDup (NX.edges G) /\
  (forall u v, In (u, v) (NX.edges G) ->
               In u (NX.nodes G) /\ In v (NX.nodes G)).

(** Number of edges into [v] that are not in [rel]. *)
Definition unrelaxed (G : NX.DiGraph) (rel : list edge) (v : ident) : Z :=
  Z.of_nat (length (filter (fun e => String.eqb (snd e) v
                                     && negb (edge_mem e rel))
                           (NX.edges G))).

(** Invariant of Kahn's algorithm: [rel] are the edges relaxed so far,
    [seen] the nodes whose in-degree has reached zero, in that order. *)
Record kahn_inv (G : NX.DiGraph) (rel : list edge) (seen : list ident)
    (im : NX.indegree_map) : Prop := mkKahnInv {
  ki_map : forall v, dict_get v im =
             if (unrelaxed G rel v >? 0)%Z then Some (unrelaxed G rel v)
             else None;
  ki_seen : forall v, In v (NX.nodes G) ->
             (In v seen <-> unrelaxed G rel v = 0%Z);
  ki_nodup : NoDup seen;
  ki_incl : incl seen (NX.nodes G);
  ki_rel : forall e, In e rel -> In (fst e) seen;
  ki_order : forall u v, In (u, v) (NX.edges G) -> In v seen ->
             (position u seen < position v seen)%nat
}.

(** Every hierarchy record names identifiers of the mission list. *)
Definition hierarchy_known (data : Payload) : Prop :=
  forall r, In r (MissionHierarchy data) ->
    In (ChildMission r) (map UUID (Mission data)) /\
    In (ParentMission r) (map UUID (Mission data)).

Definition entry (mat : matrix) (i j : nat) : Q := nth j (nth i mat []) 0%Q.

(** The matrix row of mission [m]. *)
Definition row_of (data : Payload) (mat : matrix) (m : ident) : list Q :=
  nth (position m (BottomUp.missions data)) mat [].

(** The direct children of [m]: sources of the hierarchy edges into it. *)
Definition children_of (data : Payload) (m : ident) : list ident :=
  NX.predecessors (BottomUp.M data) m.

(** [m] is the parent in no hierarchy record. *)
Definition is_leaf (data : Payload) (m : ident) : Prop :=
  forall r, In r (MissionHierarchy data) -> ParentMission r <> m.

(** Some usage record links data node [d] to mission [m]. *)
Definition uses (data : Payload) (d m : ident) : bool :=
  existsb (fun r => String.eqb (rel_OperationalData r) d
                    && String.eqb (rel_Mission r) m)
          (Mission_OperationalData data).

Definition in_range (x : Q) : Prop := (0 <= x /\ x <= 100)%Q.

Definition sumQ (l : list Q) : Q := fold_left Qplus l 0%Q.

(** Loop invariant of [bottom_up_process]: [done] is the part of the
    traversal path already handled. *)
Record bu_inv (data : Payload) (done : list ident) (mat : matrix) : Prop :=
  mkBuInv {
  bi_len : length mat = length (BottomUp.missions data);
  bi_cols : forall k, (k < length mat)%nat ->
            length (nth k mat []) = length (BottomUp.operational_data data);
  bi_leaf : forall m, In m done ->
            NX.in_degree (BottomUp.M data) m = 0%Z ->
            forall d, In d (BottomUp.operational_data data) ->
            nth (position d (BottomUp.operational_data data))
                (row_of data mat m) 0%Q =
            if mem d (NX.predecessors (BottomUp.G data) m) then 100%Q else 0%Q;
  bi_mean : forall m, In m done ->
            NX.in_degree (BottomUp.M data) m <> 0%Z ->
            row_of data mat m =
            BottomUp.calculated_mean
              (length (BottomUp.operational_data data))
              (map (row_of data mat) (children_of data m));
  bi_closed : forall m, In m done -> incl (children_of data m) done;
  bi_todo : forall m, In m (BottomUp.missions data) -> ~ In m done ->
            row_of data mat m =
            zeros_row (length (BottomUp.operational_data data));
  bi_range : forall k j, in_range (entry mat k j);
  bi_done : incl done (BottomUp.missions data)
}.

(** Scenario A of the specification: [M1] is a leaf below [M2]; only [D1]
    is used, by [M1]. *)
Definition scenario_A : Payload :=
  mkPayload [mkNode "M1" "Mission 1"; mkNode "M2" "Mission 2"]
            [mkNode "D1" "Data 1"; mkNode "D2" "Data 2"]
            [mkHierarchy "M1" "M2"]
            [mkUsage "D1" "M1"].

(** Some hierarchy record has [m] as its parent. *)
Definition has_child (data : Payload) (m : ident) : Prop :=
  exists r, In r (MissionHierarchy data) /\ ParentMission r = m.

(** Number of nodes of [G] that are not in [visited]. *)
Definition unvisited (G : NX.DiGraph) (visited : list ident) : nat :=
  length (filter (fun x => negb (mem x visited)) (NX.nodes G)).

(** Hierarchy records join missions, usage records join a data node to a
    mission, and no identifier is both a mission and a data node. *)
Definition edges_typed (data : Payload) : Prop :=
  (forall r, In r (MissionHierarchy data) ->
     In (ChildMission r) (map UUID (Mission data)) /\
     In (ParentMission r) (map UUID (Mission data))) /\
  (forall r, In r (Mission_OperationalData data) ->
     In (rel_OperationalData r) (map UUID (OperationalData data)) /\
     In (rel_Mission r) (map UUID (Mission data))) /\
  (forall x, In x (map UUID (Mission data)) ->
     ~ In x (map UUID (OperationalData data))).

(** The missions that use data node [d] directly, each once. *)
Definition users (data : Payload) (d : ident) : list ident :=
  dict_keys (map rel_Mission
               (filter (fun r => String.eqb (rel_OperationalData r) d)
                       (Mission_OperationalData data))).

(** Scenario B of the specification: the hierarchy is the cycle A -> B ->
    A; data node [D1] is used by [A]. *)
Definition scenario_B : Payload :=
  mkPayload [mkNode "A" "Mission A"; mkNode "B" "Mission B"]
            [mkNode "D1" "Data 1"]
            [mkHierarchy "A" "B"; mkHierarchy "B" "A"]
            [mkUsage "D1" "A"].

(** A payload in which the identifier [X] names a mission and a data node:
    data node [X] then has the incoming usage edge [D -> X]. *)
Definition shared_id_input : Payload :=
  mkPayload [mkNode "X" "Mission X"]
            [mkNode "D" "Data D"; mkNode "X" "Data X"; mkNode "E" "Data E"]
            []
            [mkUsage "D" "X"].

(** [x] is reached from [v] by a walk with at least one edge. *)
Definition reachable (G : NX.DiGraph) (v x : ident) : Prop :=
  exists l, walk G (v :: l ++ [x]).

(** [p] is a walk of [G] that starts at [s]. *)
Definition walk_from (G : NX.DiGraph) (s : ident) (p : list ident) : Prop :=
  walk G p /\ exists t, p = s :: t.

Fixpoint nondecreasing (ls : list nat) : Prop :=
  match ls with
  | [] => True
  | x :: r => (forall y, In y r -> (x <= y)%nat) /\ nondecreasing r
  end.

(** The queued paths are ordered by length, and their lengths differ by at
    most one. *)
Definition queue_sorted (queue : list (list ident)) : Prop :=
  nondecreasing (map (@length ident) queue) /\
  forall p q, In p queue -> In q queue -> (length q <= S (length p))%nat.

(** What decreases at each pass of the loop of [find_shortest_path]. *)
Definition bfs_potential (G : NX.DiGraph) (visited : list ident)
    (queue : list (list ident)) : nat :=
  length queue +
  length (filter (fun e => negb (mem (fst e) visited)) (NX.edges G)).

(** Loop invariant of [find_shortest_path] from [s] to [e]. *)
Record bfs_inv (G : NX.DiGraph) (s e : ident) (visited : list ident)
    (queue : list (list ident)) : Prop := mkBfsInv {
  bq_walks : Forall (walk_from G s) queue;
  bq_sorted : queue_sorted queue;
  bq_target : ~ In e visited;
  bq_start : In s visited \/ queue = [[s]];
  bq_visited : forall v, In v visited ->
    exists n,
      (forall w, walk_from G s w -> last w EmptyString = v ->
                 (n <= length w)%nat) /\
      (forall u, In (v, u) (NX.edges G) -> ~ In u visited ->
         exists q, In q queue /\ last q EmptyString = u /\
                   (length q <= S n)%nat)
}.

(** [k] is the least number of edges of a walk from [s] to [x]. *)
Definition shortest_edges (G : NX.DiGraph) (s x : ident) (k : nat) : Prop :=
  (exists w, walk_from G s w /\ last w EmptyString = x /\ length w = S k) /\
  (forall w, walk_from G s w -> last w EmptyString = x ->
             (S k <= length w)%nat).

(** The path that [find_shortest_path] returns ([[]] when it returns none). *)
Definition shortest_path (G : NX.DiGraph) (s x : ident) : list ident :=
  match Importance.find_shortest_path G s x with
  | Ok p => p
  | _ => []
  end.

(** The weight that [pagerank_analysis] gives to node [d] for mission [m]. *)
Definition weight (page_rank : NX.DiGraph -> ident -> Q) (data : Payload)
    (m d : ident) : Q :=
  Importance.adjust_score_for_path_length
    (page_rank (Importance.G data) d)
    (length (shortest_path (Importance.G data) m d)).

(** The data nodes of a closure, in the order of the closure. *)
Definition data_of (data : Payload) (deps : list ident) : list ident :=
  filter (Importance.is_operational_data data) (dict_keys deps).

(** A stand-in for [nx.pagerank] in closed examples: every node gets the
    same positive score. *)
Definition uniform_rank (G : NX.DiGraph) (v : ident) : Q := 1%Q.

(** [row] is [row0] with a zero entry added for every key of [ds] that
    [row0] lacks. *)
Definition filled_from (ds : list ident) (row0 row : list (ident * Q))
  : Prop :=
  forall d, dict_get d row =
            match dict_get d row0 with
            | Some v => Some v
            | None => if mem d ds then Some 0%Q else None
            end.

(** Some data node is reachable from mission [m]. *)
Definition reaches_data (data : Payload) (m : ident) : Prop :=
  exists d, Importance.is_operational_data data d = true /\
            reachable (Importance.G data) m d.

(** A payload whose usage records name the unknown data node [D9] and the
    unknown mission [M7]. *)
Definition unknown_id_input : Payload :=
  mkPayload [mkNode "M1" "Mission 1"]
            [mkNode "D1" "Data 1"]
            []
            [mkUsage "D9" "M1"; mkUsage "D1" "M7"].

(** A payload whose only hierarchy record names the unknown mission [M9]. *)
Definition unknown_parent_input : Payload :=
  mkPayload [mkNode "M1" "Mission 1"]
            [mkNode "D1" "Data 1"]
            [mkHierarchy "M1" "M9"]
            [mkUsage "D1" "M1"].

(** [v] is on a cycle or reaches one. *)
Definition reaches_cycle (G : NX.DiGraph) (v : ident) : Prop :=
  exists c l, (v = c \/ reachable G v c) /\ walk G (c :: l ++ [c]).

(** Scenario C of the specification: mission [M] has no children and uses
    no data. *)
Definition scenario_C : Payload :=
  mkPayload [mkNode "M" "Mission"] [mkNode "D1" "Data 1"] [] [].

(** [l] is a leaf mission at or below [m] in the hierarchy. *)
Definition leaf_below (data : Payload) (l m : ident) : Prop :=
  is_leaf data l /\ (l = m \/ reachable (BottomUp.M data) l m).

(** * Basic facts *)

Lemma mem_In x l : mem x l = true <-> In x l.
Proof.
  unfold mem. rewrite existsb_exists. split.
  - intros [y [Hy He]]. apply String.eqb_eq in He. now subst.
  - intros H. exists x. split; [assumption | apply String.eqb_refl].
Qed.

Lemma mem_false x l : mem x l = false <-> ~ In x l.
Proof.
  rewrite <- mem_In. destruct (mem x l); split; congruence.
Qed.

Lemma edge_eqb_eq e1 e2 : edge_eqb e1 e2 = true <-> e1 = e2.
Proof.
  destruct e1 as [a b], e2 as [c d]. unfold edge_eqb. simpl.
  rewrite andb_true_iff, !String.eqb_eq. split.
  - intros [-> ->]. reflexivity.
  - intros H. inversion H. auto.
Qed.

Lemma edge_mem_In e l : edge_mem e l = true <-> In e l.
Proof.
  unfold edge_mem. rewrite existsb_exists. split.
  - intros [y [Hy He]]. apply edge_eqb_eq in He. now subst.
  - intros H. exists e. split; [assumption | now apply edge_eqb_eq].
Qed.

Lemma edge_mem_false e l : edge_mem e l = false <-> ~ In e l.
Proof.
  rewrite <- edge_mem_In. destruct (edge_mem e l); split; congruence.
Qed.

Lemma dict_get_set_eq {V} k (v : V) m : dict_get k (dict_set k v m) = Some v.
Proof.
  induction m as [|[k' v'] m IH]; simpl.
  - now rewrite String.eqb_refl.
  - destruct (String.eqb k k') eqn:E; simpl.
    + now rewrite String.eqb_refl.
    + now rewrite E.
Qed.

Lemma dict_get_set_neq {V} k k' (v : V) m :
  k' <> k -> dict_get k' (dict_set k v m) = dict_get k' m.
Proof.
  intros Hne. induction m as [|[k2 v2] m IH]; simpl.
  - apply String.eqb_neq in Hne. now rewrite Hne.
  - destruct (String.eqb k k2) eqn:E; simpl.
    + apply String.eqb_eq in E. subst k2.
      apply String.eqb_neq in Hne. now rewrite Hne.
    + now rewrite IH.
Qed.

Lemma dict_get_del_eq {V} k (m : list (ident * V)) :
  dict_get k (dict_del k m) = None.
Proof.
  induction m as [|[k' v'] m IH]; simpl; [reflexivity|].
  destruct (String.eqb k k') eqn:E; simpl; [assumption|].
  now rewrite E.
Qed.

Lemma dict_get_del_neq {V} k k' (m : list (ident * V)) :
  k' <> k -> dict_get k' (dict_del k m) = dict_get k' m.
Proof.
  intros Hne. induction m as [|[k2 v2] m IH]; simpl; [reflexivity|].
  destruct (String.eqb k k2) eqn:E; simpl.
  - apply String.eqb_eq in E. subst k2.
    apply String.eqb_neq in Hne. now rewrite Hne.
  - now rewrite IH.
Qed.

Lemma position_app_in x l l' :
  In x l -> position x (l ++ l') = position x l.
Proof.
  induction l as [|y l IH]; simpl; [tauto|].
  intros H. destruct (String.eqb x y) eqn:E; [reflexivity|].
  f_equal. apply IH. destruct H as [H|H]; [|assumption].
  subst. rewrite String.eqb_refl in E. discriminate.
Qed.

Lemma position_app_notin x l l' :
  ~ In x l -> position x (l ++ l') = (length l + position x l')%nat.
Proof.
  induction l as [|y l IH]; simpl; [reflexivity|].
  intros H. destruct (String.eqb x y) eqn:E.
  - apply String.eqb_eq in E. subst. tauto.
  - f_equal. apply IH. tauto.
Qed.

Lemma position_le x l : (position x l <= length l)%nat.
Proof.
  induction l as [|y l IH]; simpl; [lia|].
  destruct (String.eqb x y); lia.
Qed.

Lemma position_lt_in x l : (position x l < length l)%nat <-> In x l.
Proof.
  induction l as [|y l IH]; simpl; [split; [lia | tauto]|].
  destruct (String.eqb x y) eqn:E.
  - apply String.eqb_eq in E. subst. split; [auto | lia].
  - apply String.eqb_neq in E. rewrite <- Nat.succ_lt_mono, IH.
    split; [auto | intros [H|H]; [congruence | assumption]].
Qed.

(** ** Walks *)

Lemma walk_app_l G l1 l2 : walk G (l1 ++ l2) -> walk G l1.
Proof.
  induction l1 as [|x l1 IH]; simpl; [trivial|].
  destruct l1 as [|y l1]; simpl in *; [trivial|].
  intros [He Hw]. split; [assumption | apply IH, Hw].
Qed.

Lemma walk_app_r G l1 l2 : walk G (l1 ++ l2) -> walk G l2.
Proof.
  induction l1 as [|x l1 IH]; simpl; [trivial|].
  destruct (l1 ++ l2) as [|y l] eqn:E.
  - destruct l1; simpl in E; [subst; trivial | discriminate].
  - intros [_ Hw]. apply IH, Hw.
Qed.

Lemma walk_cons G x y l :
  walk G (x :: y :: l) <-> In (x, y) (NX.edges G) /\ walk G (y :: l).
Proof. reflexivity. Qed.

Lemma walk_incl G l x :
  wf_graph G -> In x (NX.nodes G) -> walk G (x :: l) ->
  incl (x :: l) (NX.nodes G).
Proof.
  intros [_ [_ Hwf]]. revert x. induction l as [|y l IH]; intros x Hx Hw.
  - intros z [<-|[]]. assumption.
  - destruct Hw as [He Hw]. intros z [<-|Hz]; [assumption|].
    apply (IH y); [apply (Hwf _ _ He) | assumption | assumption].
Qed.

Lemma dup_split (l : list ident) :
  ~ NoDup l -> exists a l1 l2 l3, l = l1 ++ a :: l2 ++ a :: l3.
Proof.
  induction l as [|x l IH]; intros H.
  - exfalso. apply H. constructor.
  - destruct (in_dec string_dec x l) as [Hin|Hnin].
    + apply in_split in Hin. destruct Hin as [l2 [l3 ->]].
      exists x, [], l2, l3. reflexivity.
    + destruct IH as [a [l1 [l2 [l3 ->]]]].
      * intros Hnd. apply H. now constructor.
      * exists a, (x :: l1), l2, l3. reflexivity.
Qed.

(** A walk that repeats a vertex contains a cycle. *)
Lemma walk_dup_cycle G l : walk G l -> ~ NoDup l -> has_cycle G.
Proof.
  intros Hw Hnd. apply dup_split in Hnd.
  destruct Hnd as [a [l1 [l2 [l3 ->]]]].
  apply walk_app_r in Hw.
  exists a, l2.
  replace (a :: l2 ++ a :: l3) with ((a :: l2 ++ [a]) ++ l3) in Hw.
  - now apply walk_app_l in Hw.
  - simpl. now rewrite <- app_assoc.
Qed.

(** In an acyclic graph every walk is shorter than the node list. *)
Lemma acyclic_walk_length G l x :
  wf_graph G -> acyclic G -> In x (NX.nodes G) -> walk G (x :: l) ->
  (length (x :: l) <= length (NX.nodes G))%nat.
Proof.
  intros Hwf Hac Hx Hw.
  apply NoDup_incl_length.
  - destruct (ListDec.NoDup_dec string_dec (x :: l)) as [H|H]; [assumption|].
    exfalso. apply Hac. eapply walk_dup_cycle; eassumption.
  - now apply walk_incl.
Qed.

(** A topological order rules out cycles. *)
Lemma walk_position_lt G tp l x y :
  (forall u v, In (u, v) (NX.edges G) -> (position u tp < position v tp)%nat) ->
  walk G (x :: l ++ [y]) -> (position x tp < position y tp)%nat.
Proof.
  intros Hord. revert x. induction l as [|z l IH]; intros x Hw; simpl in Hw.
  - destruct Hw as [He _]. now apply Hord.
  - destruct Hw as [He Hw]. apply Hord in He. apply IH in Hw. lia.
Qed.

Lemma topological_order_acyclic G tp : topological_order G tp -> acyclic G.
Proof.
  intros [_ [_ Hord]] [v [l Hw]].
  pose proof (walk_position_lt G tp l v v Hord Hw). lia.
Qed.

(** ** Graph construction *)

Lemma add_node_nodes G n v :
  In v (NX.nodes (NX.add_node G n)) <-> In v (NX.nodes G) \/ v = n.
Proof.
  unfold NX.add_node. destruct (mem n (NX.nodes G)) eqn:E; simpl.
  - apply mem_In in E. split; [auto | intros [H| ->]; assumption].
  - rewrite in_app_iff. simpl. intuition congruence.
Qed.

Lemma add_node_edges G n : NX.edges (NX.add_node G n) = NX.edges G.
Proof. unfold NX.add_node. now destruct (mem n (NX.nodes G)). Qed.

Lemma NoDup_snoc {A} (l : list A) x : NoDup l -> ~ In x l -> NoDup (l ++ [x]).
Proof.
  intros Hnd Hx. apply NoDup_app; [assumption | repeat constructor; auto |].
  intros a Ha [<-|[]]. contradiction.
Qed.

Lemma add_node_nodup G n :
  NoDup (NX.nodes G) -> NoDup (NX.nodes (NX.add_node G n)).
Proof.
  unfold NX.add_node. destruct (mem n (NX.nodes G)) eqn:E; simpl; [auto|].
  intros H. apply NoDup_snoc; [assumption | now apply mem_false].
Qed.

Lemma add_node_wf G n : wf_graph G -> wf_graph (NX.add_node G n).
Proof.
  intros [Hn [He Hin]]. split; [|split].
  - now apply add_node_nodup.
  - now rewrite add_node_edges.
  - intros u v. rewrite add_node_edges, !add_node_nodes.
    intros H. apply Hin in H. tauto.
Qed.

Lemma add_nodes_from_nodes ns G v :
  In v (NX.nodes (NX.add_nodes_from ns G)) <-> In v (NX.nodes G) \/ In v ns.
Proof.
  unfold NX.add_nodes_from. revert G.
  induction ns as [|n ns IH]; intros G; simpl; [tauto|].
  rewrite IH, add_node_nodes. intuition.
Qed.

Lemma add_nodes_from_edges ns G :
  NX.edges (NX.add_nodes_from ns G) = NX.edges G.
Proof.
  unfold NX.add_nodes_from. revert G.
  induction ns as [|n ns IH]; intros G; simpl; [reflexivity|].
  now rewrite IH, add_node_edges.
Qed.

Lemma add_nodes_from_wf ns G : wf_graph G -> wf_graph (NX.add_nodes_from ns G).
Proof.
  unfold NX.add_nodes_from. revert G.
  induction ns as [|n ns IH]; intros G H; simpl; [assumption|].
  apply IH, add_node_wf, H.
Qed.

Lemma add_edge_nodes G e v :
  In v (NX.nodes (NX.add_edge G e)) <->
  In v (NX.nodes G) \/ v = fst e \/ v = snd e.
Proof.
  unfold NX.add_edge.
  destruct (edge_mem e _); simpl; rewrite !add_node_nodes; tauto.
Qed.

Lemma add_edge_edges G e e' :
  In e' (NX.edges (NX.add_edge G e)) <-> In e' (NX.edges G) \/ e' = e.
Proof.
  unfold NX.add_edge.
  destruct (edge_mem e _) eqn:E; simpl; rewrite ?in_app_iff, !add_node_edges in *.
  - apply edge_mem_In in E. split; [auto | intros [H| ->]; assumption].
  - simpl. intuition congruence.
Qed.

Lemma add_edge_wf G e : wf_graph G -> wf_graph (NX.add_edge G e).
Proof.
  intros Hwf.
  assert (H2 : wf_graph (NX.add_node (NX.add_node G (fst e)) (snd e)))
    by now apply add_node_wf, add_node_wf.
  split; [|split].
  - unfold NX.add_edge. destruct (edge_mem e _); simpl; apply H2.
  - unfold NX.add_edge. destruct (edge_mem e _) eqn:E; simpl; [apply H2|].
    apply NoDup_snoc; [apply H2 | now apply edge_mem_false].
  - intros u v. rewrite add_edge_edges, !add_edge_nodes.
    intros [H| <-]; [|simpl; tauto].
    apply Hwf in H. tauto.
Qed.

Lemma add_edges_from_nodes es G v :
  In v (NX.nodes (NX.add_edges_from es G)) <->
  In v (NX.nodes G) \/ exists e, In e es /\ (v = fst e \/ v = snd e).
Proof.
  unfold NX.add_edges_from. revert G.
  induction es as [|e es IH]; intros G; simpl.
  - split; [auto | intros [H|[e [[] _]]]; assumption].
  - rewrite IH, add_edge_nodes. split.
    + intros [[H|H]|[e' [H1 H2]]]; eauto 6.
    + intros [H|[e' [[<-|H1] H2]]]; eauto 6.
Qed.

Lemma add_edges_from_edges es G e :
  In e (NX.edges (NX.add_edges_from es G)) <-> In e (NX.edges G) \/ In e es.
Proof.
  unfold NX.add_edges_from. revert G.
  induction es as [|e' es IH]; intros G; simpl; [tauto|].
  rewrite IH, add_edge_edges. intuition.
Qed.

Lemma add_edges_from_wf es G : wf_graph G -> wf_graph (NX.add_edges_from es G).
Proof.
  unfold NX.add_edges_from. revert G.
  induction es as [|e es IH]; intros G H; simpl; [assumption|].
  apply IH, add_edge_wf, H.
Qed.

Lemma empty_wf : wf_graph NX.empty.
Proof. repeat split; simpl; try constructor; contradiction. Qed.

Lemma successors_In G u v : In v (NX.successors G u) <-> In (u, v) (NX.edges G).
Proof.
  unfold NX.successors. rewrite in_map_iff. split.
  - intros [[a b] [<- H]]. apply filter_In in H. destruct H as [H E].
    simpl in *. apply String.eqb_eq in E. now subst.
  - intros H. exists (u, v). split; [reflexivity|].
    apply filter_In. split; [assumption | apply String.eqb_refl].
Qed.

Lemma predecessors_In G u v :
  In u (NX.predecessors G v) <-> In (u, v) (NX.edges G).
Proof.
  unfold NX.predecessors. rewrite in_map_iff. split.
  - intros [[a b] [<- H]]. apply filter_In in H. destruct H as [H E].
    simpl in *. apply String.eqb_eq in E. now subst.
  - intros H. exists (u, v). split; [reflexivity|].
    apply filter_In. split; [assumption | apply String.eqb_refl].
Qed.

Lemma NoDup_map_snd_filter (l : list edge) u :
  NoDup l -> NoDup (map snd (filter (fun e => String.eqb (fst e) u) l)).
Proof.
  induction l as [|[a b] l IH]; simpl; intros H; [constructor|].
  inversion H as [|? ? Hnin Hnd]; subst.
  destruct (String.eqb a u) eqn:E; simpl; [|auto].
  apply String.eqb_eq in E. subst. constructor; [|auto].
  rewrite in_map_iff. intros [[a' b'] [Hb Hf]]. apply filter_In in Hf.
  simpl in *. destruct Hf as [Hin E]. apply String.eqb_eq in E. subst.
  contradiction.
Qed.

Lemma successors_nodup G u : wf_graph G -> NoDup (NX.successors G u).
Proof. intros [_ [H _]]. now apply NoDup_map_snd_filter. Qed.

(** ** Kahn's algorithm *)

Lemma filter_remove_one (l : list edge) (p : edge -> bool) e :
  NoDup l -> In e l -> p e = true ->
  length (filter p l) =
  S (length (filter (fun x => p x && negb (edge_eqb x e)) l)).
Proof.
  induction l as [|x l IH]; simpl; intros Hnd Hin Hp; [contradiction|].
  inversion Hnd as [|? ? Hx Hnd']; subst.
  destruct Hin as [->|Hin].
  - rewrite Hp. simpl.
    replace (edge_eqb e e) with true by (symmetry; now apply edge_eqb_eq).
    simpl. f_equal. f_equal. apply filter_ext_in.
    intros a Ha. destruct (edge_eqb a e) eqn:E.
    + apply edge_eqb_eq in E. subst. contradiction.
    + now rewrite andb_true_r.
  - assert (E : edge_eqb x e = false).
    { destruct (edge_eqb x e) eqn:E; [|reflexivity].
      apply edge_eqb_eq in E. subst. contradiction. }
    rewrite E, andb_true_r. destruct (p x); simpl; auto.
Qed.

Section KahnStep.

Variable G : NX.DiGraph.
Hypothesis Hwf : wf_graph G.

Lemma unrelaxed_nonneg rel v : (0 <= unrelaxed G rel v)%Z.
Proof. unfold unrelaxed. lia. Qed.

Lemma unrelaxed_same rel u c :
  In (u, c) (NX.edges G) -> ~ In (u, c) rel ->
  unrelaxed G ((u, c) :: rel) c = (unrelaxed G rel c - 1)%Z.
Proof.
  intros He Hr. unfold unrelaxed.
  rewrite (filter_remove_one (NX.edges G)
             (fun e => String.eqb (snd e) c && negb (edge_mem e rel)) (u, c)).
  - rewrite Nat2Z.inj_succ.
    replace (filter (fun e => String.eqb (snd e) c
                              && negb (edge_mem e ((u, c) :: rel))) (NX.edges G))
      with (filter (fun x => (String.eqb (snd x) c && negb (edge_mem x rel))
                             && negb (edge_eqb x (u, c))) (NX.edges G)); [lia|].
    apply filter_ext. intros a. simpl.
    destruct (String.eqb (snd a) c), (edge_eqb a (u, c)), (edge_mem a rel);
      reflexivity.
  - apply Hwf.
  - assumption.
  - simpl. rewrite String.eqb_refl. apply edge_mem_false in Hr. now rewrite Hr.
Qed.

Lemma unrelaxed_other rel u c v :
  v <> c -> unrelaxed G ((u, c) :: rel) v = unrelaxed G rel v.
Proof.
  intros Hne. unfold unrelaxed. f_equal. f_equal.
  apply filter_ext. intros [a b]. simpl.
  destruct (String.eqb b v) eqn:E; [|reflexivity]. simpl.
  apply String.eqb_eq in E. subst b.
  unfold edge_eqb. simpl.
  apply String.eqb_neq in Hne. rewrite Hne, andb_false_r. reflexivity.
Qed.

Lemma unrelaxed_pos rel u c :
  In (u, c) (NX.edges G) -> ~ In (u, c) rel -> (0 < unrelaxed G rel c)%Z.
Proof.
  intros He Hr. pose proof (unrelaxed_same rel u c He Hr).
  pose proof (unrelaxed_nonneg ((u, c) :: rel) c). lia.
Qed.

(** When no edge into [v] is left, every edge into [v] has been relaxed. *)
Lemma unrelaxed_zero rel u v :
  unrelaxed G rel v = 0%Z -> In (u, v) (NX.edges G) -> In (u, v) rel.
Proof.
  intros Hz He.
  destruct (edge_mem (u, v) rel) eqn:E; [now apply edge_mem_In|].
  apply edge_mem_false in E. pose proof (unrelaxed_pos rel u v He E). lia.
Qed.

(** An unrelaxed edge exists when the count is positive. *)
Lemma unrelaxed_witness rel v :
  (0 < unrelaxed G rel v)%Z ->
  exists u, In (u, v) (NX.edges G) /\ ~ In (u, v) rel.
Proof.
  unfold unrelaxed. intros H.
  destruct (filter (fun e => String.eqb (snd e) v && negb (edge_mem e rel))
                   (NX.edges G)) as [|[a b] l] eqn:E; [simpl in H; lia|].
  assert (Hin : In (a, b) (filter (fun e => String.eqb (snd e) v
                 && negb (edge_mem e rel)) (NX.edges G)))
    by (rewrite E; now left).
  apply filter_In in Hin. destruct Hin as [Hin Hp].
  apply andb_true_iff in Hp. destruct Hp as [Hb Hm]. simpl in Hb.
  apply String.eqb_eq in Hb. subst b.
  exists a. split; [assumption|].
  apply edge_mem_false. now destruct (edge_mem (a, v) rel).
Qed.

Lemma relax_child_inv rel pre zero im u c :
  kahn_inv G rel (pre ++ zero) im ->
  In (u, c) (NX.edges G) -> ~ In (u, c) rel -> In u (pre ++ zero) ->
  exists im' zero',
    NX.relax_child (im, zero) c = Ok (im', zero') /\
    kahn_inv G ((u, c) :: rel) (pre ++ zero') im'.
Proof.
  intros Inv He Hr Hu.
  pose proof (unrelaxed_pos rel u c He Hr) as Hpos.
  pose proof (unrelaxed_same rel u c He Hr) as Hsame.
  assert (Hc : In c (NX.nodes G)) by (apply Hwf in He; tauto).
  assert (Hcs : ~ In c (pre ++ zero)).
  { intros H. apply (ki_seen _ _ _ _ Inv) in H; [lia | assumption]. }
  unfold NX.relax_child. rewrite (ki_map _ _ _ _ Inv c).
  destruct (unrelaxed G rel c >? 0)%Z eqn:E; [|lia].
  destruct (unrelaxed G rel c - 1 =? 0)%Z eqn:E1.
  - (* the child reaches in-degree zero *)
    apply Z.eqb_eq in E1.
    eexists _, _. split; [reflexivity|].
    rewrite app_assoc.
    constructor.
    + intros v. destruct (string_dec v c) as [->|Hne].
      * rewrite dict_get_del_eq, Hsame, E1. reflexivity.
      * rewrite dict_get_del_neq, dict_get_set_neq by assumption.
        rewrite (unrelaxed_other rel u c v Hne). apply (ki_map _ _ _ _ Inv).
    + intros v Hv.
      destruct (string_dec v c) as [->|Hne].
      * rewrite Hsame. split; [lia | intros _; apply in_app_iff; simpl; auto].
      * rewrite (unrelaxed_other rel u c v Hne), <- (ki_seen _ _ _ _ Inv v Hv).
        split.
        -- intros H. apply in_app_iff in H. destruct H as [H|[H|[]]];
             [assumption | congruence].
        -- intros H. apply in_app_iff. now left.
    + apply NoDup_snoc; [apply (ki_nodup _ _ _ _ Inv) | assumption].
    + intros v Hv. apply in_app_iff in Hv. destruct Hv as [Hv|[<-|[]]];
        [now apply (ki_incl _ _ _ _ Inv) | assumption].
    + intros e [<-|Hin]; simpl; apply in_app_iff; left;
        [assumption | now apply (ki_rel _ _ _ _ Inv)].
    + intros a v Hav Hv. apply in_app_iff in Hv.
      destruct Hv as [Hv|[<-|[]]].
      * pose proof (ki_order _ _ _ _ Inv _ _ Hav Hv) as Hlt.
        assert (Ha : In a (pre ++ zero)).
        { apply position_lt_in. pose proof (position_le v (pre ++ zero)). lia. }
        now rewrite (position_app_in a (pre ++ zero) [c] Ha),
          (position_app_in v (pre ++ zero) [c] Hv).
      * assert (Ha : In a (pre ++ zero)).
        { assert (Hin : In (a, c) ((u, c) :: rel)).
          { apply unrelaxed_zero; [lia | assumption]. }
          destruct Hin as [Hin|Hin].
          - inversion Hin; subst. assumption.
          - apply (ki_rel _ _ _ _ Inv) in Hin. assumption. }
        rewrite (position_app_in a (pre ++ zero) [c] Ha).
        rewrite (position_app_notin c (pre ++ zero) [c] Hcs). simpl.
        rewrite String.eqb_refl.
        apply position_lt_in in Ha. lia.
  - apply Z.eqb_neq in E1.
    eexists _, _. split; [reflexivity|].
    constructor.
    + intros v. destruct (string_dec v c) as [->|Hne].
      * rewrite dict_get_set_eq, Hsame.
        destruct (unrelaxed G rel c - 1 >? 0)%Z eqn:E2; [reflexivity | lia].
      * rewrite dict_get_set_neq by assumption.
        rewrite (unrelaxed_other rel u c v Hne). apply (ki_map _ _ _ _ Inv).
    + intros v Hv. destruct (string_dec v c) as [->|Hne].
      * rewrite Hsame. split; [contradiction | lia].
      * rewrite (unrelaxed_other rel u c v Hne). now apply (ki_seen _ _ _ _ Inv).
    + apply (ki_nodup _ _ _ _ Inv).
    + apply (ki_incl _ _ _ _ Inv).
    + intros e [<-|Hin]; simpl; [assumption | now apply (ki_rel _ _ _ _ Inv)].
    + apply (ki_order _ _ _ _ Inv).
Qed.

End KahnStep.

Section KahnLoop.

Variable G : NX.DiGraph.
Hypothesis Hwf : wf_graph G.

Lemma expand_children cs : forall rel pre zero im u,
  kahn_inv G rel (pre ++ zero) im -> In u pre -> NoDup cs ->
  (forall c, In c cs -> In (u, c) (NX.edges G) /\ ~ In (u, c) rel) ->
  exists im' zero' rel',
    foldM NX.relax_child cs (im, zero) = Ok (im', zero') /\
    kahn_inv G rel' (pre ++ zero') im' /\
    (forall e, In e rel' <-> In e rel \/ (fst e = u /\ In (snd e) cs)).
Proof.
  induction cs as [|c cs IH]; intros rel pre zero im u Inv Hu Hnd Hcs.
  - exists im, zero, rel. split; [reflexivity|]. split; [assumption|].
    intros e. simpl. tauto.
  - inversion Hnd as [|? ? Hc Hnd']; subst.
    destruct (Hcs c (or_introl eq_refl)) as [He Hr].
    destruct (relax_child_inv G Hwf rel pre zero im u c Inv He Hr)
      as [im1 [zero1 [E1 Inv1]]].
    { apply in_app_iff. now left. }
    destruct (IH ((u, c) :: rel) pre zero1 im1 u Inv1 Hu Hnd')
      as [im' [zero' [rel' [E' [Inv' Hrel']]]]].
    { intros c' Hc'. destruct (Hcs c' (or_intror Hc')) as [He' Hr'].
      split; [assumption|]. intros [Heq|Hin]; [|contradiction].
      inversion Heq; subst. contradiction. }
    exists im', zero', rel'. cbn [foldM]. rewrite E1. cbn [bind].
    split; [assumption|]. split; [assumption|].
    intros e. rewrite Hrel'. simpl. split.
    + intros [[<-|H]|[H1 H2]]; simpl; auto.
    + intros [H|[H1 [H2|H2]]]; auto.
      left. left. destruct e; simpl in *; congruence.
Qed.

Lemma expand_inv rel pre zero im u :
  kahn_inv G rel (pre ++ zero) im -> In u pre ->
  (forall e, In e rel -> fst e <> u) ->
  exists im' zero' rel',
    NX.expand G (im, zero) u = Ok (im', zero') /\
    kahn_inv G rel' (pre ++ zero') im' /\
    (forall e, In e rel' <-> In e rel \/ (In e (NX.edges G) /\ fst e = u)).
Proof.
  intros Inv Hu Hrel.
  destruct (expand_children (NX.successors G u) rel pre zero im u Inv Hu)
    as [im' [zero' [rel' [E [Inv' Hrel']]]]].
  - now apply successors_nodup.
  - intros c Hc. apply successors_In in Hc. split; [assumption|].
    intros H. apply Hrel in H. now apply H.
  - exists im', zero', rel'. split; [exact E|]. split; [assumption|].
    intros [a b]. rewrite Hrel'. simpl. rewrite successors_In.
    split; (intros [H|[H1 H2]]; [now left | right; subst; auto]).
Qed.

Lemma generation_inv todo : forall P zero rel im,
  kahn_inv G rel (P ++ todo ++ zero) im ->
  (forall e, In e rel <-> In e (NX.edges G) /\ In (fst e) P) ->
  exists im' zero' rel',
    foldM (NX.expand G) todo (im, zero) = Ok (im', zero') /\
    kahn_inv G rel' (P ++ todo ++ zero') im' /\
    (forall e, In e rel' <-> In e (NX.edges G) /\ In (fst e) (P ++ todo)).
Proof.
  induction todo as [|u t IH]; intros P zero rel im Inv Hrel.
  - exists im, zero, rel. split; [reflexivity|]. split; [assumption|].
    intros e. now rewrite app_nil_r.
  - assert (HuP : ~ In u P).
    { pose proof (ki_nodup _ _ _ _ Inv) as Hnd.
      apply NoDup_remove_2 in Hnd. intros H. apply Hnd.
      apply in_app_iff. now left. }
    destruct (expand_inv rel (P ++ u :: t) zero im u)
      as [im1 [zero1 [rel1 [E1 [Inv1 Hrel1]]]]].
    + now rewrite <- app_assoc.
    + apply in_app_iff. right. now left.
    + intros e He. apply Hrel in He. intros Heq. apply HuP.
      rewrite <- Heq. apply He.
    + destruct (IH (P ++ [u]) zero1 rel1 im1)
        as [im' [zero' [rel' [E' [Inv' Hrel']]]]].
      * rewrite <- app_assoc in Inv1. rewrite <- app_assoc. exact Inv1.
      * intros e. rewrite Hrel1, Hrel, in_app_iff. simpl.
        intuition congruence.
      * exists im', zero', rel'. cbn [foldM]. rewrite E1. cbn [bind].
        split; [assumption|]. split.
        -- rewrite <- app_assoc in Inv'. exact Inv'.
        -- intros e. rewrite Hrel'. rewrite <- app_assoc. reflexivity.
Qed.

(** If every vertex of a non-empty set has a predecessor in the set, the
    graph has a cycle. *)
Lemma stuck_cycle (S : ident -> Prop) :
  (forall v, S v -> In v (NX.nodes G)) ->
  (forall v, S v -> exists u, S u /\ In (u, v) (NX.edges G)) ->
  (exists v, S v) -> has_cycle G.
Proof.
  intros Hn Hp [v0 Hv0].
  assert (Hlong : forall n, exists x l,
            S x /\ length l = n /\ walk G (x :: l)).
  { induction n as [|n [x [l [Hx [Hl Hw]]]]].
    - exists v0, []. simpl. auto.
    - destruct (Hp x Hx) as [u [Hu He]].
      exists u, (x :: l). simpl. rewrite Hl. auto. }
  destruct (Hlong (length (NX.nodes G))) as [x [l [Hx [Hl Hw]]]].
  apply (walk_dup_cycle G (x :: l) Hw).
  intros Hnd.
  pose proof (NoDup_incl_length Hnd (walk_incl G l x Hwf (Hn x Hx) Hw)) as H.
  simpl in H. lia.
Qed.

Lemma topological_generations_spec budget : forall X gen rel im,
  kahn_inv G rel (X ++ gen) im ->
  (forall e, In e rel <-> In e (NX.edges G) /\ In (fst e) X) ->
  (length (NX.nodes G) <= budget + length X)%nat ->
  match NX.topological_generations budget G im gen with
  | Ok gens => topological_order G (X ++ concat gens)
  | Raise NetworkXUnfeasible => has_cycle G
  | _ => False
  end.
Proof.
  induction budget as [|b IH]; intros X gen rel im Inv Hrel Hb.
  all: destruct gen as [|g gs].
  all: try (
    (* no node is ready *)
    simpl; rewrite app_nil_r in Inv; destruct im as [|[k d] im];
    [ simpl; rewrite app_nil_r;
      assert (Hall : forall v, In v (NX.nodes G) -> In v X);
      [ intros v Hv; apply (ki_seen _ _ _ _ Inv v Hv);
        pose proof (ki_map _ _ _ _ Inv v) as Hm; simpl in Hm;
        pose proof (unrelaxed_nonneg G rel v);
        destruct (unrelaxed G rel v >? 0)%Z eqn:E; [discriminate | lia]
      | split; [apply (ki_nodup _ _ _ _ Inv)|]; split;
        [ intros v; split; [apply (ki_incl _ _ _ _ Inv) | apply Hall]
        | intros u v He; apply (ki_order _ _ _ _ Inv _ _ He);
          apply Hall; apply Hwf in He; tauto ] ]
    | apply (stuck_cycle
               (fun v => In v (NX.nodes G) /\ (0 < unrelaxed G rel v)%Z));
      [ tauto
      | intros v [Hv Hpos];
        destruct (unrelaxed_witness G rel v Hpos) as [u [He Hr]];
        exists u; split; [|assumption];
        assert (Hu : In u (NX.nodes G)) by (apply Hwf in He; tauto);
        split; [assumption|];
        pose proof (unrelaxed_nonneg G rel u);
        assert (unrelaxed G rel u <> 0%Z); [|lia];
        intros Hz; apply (ki_seen _ _ _ _ Inv u Hu) in Hz;
        apply Hr, Hrel; auto
      | exists k;
        pose proof (ki_map _ _ _ _ Inv k) as Hm; simpl in Hm;
        rewrite String.eqb_refl in Hm;
        destruct (unrelaxed G rel k >? 0)%Z eqn:E; [|discriminate];
        assert (Hpos : (0 < unrelaxed G rel k)%Z) by lia;
        destruct (unrelaxed_witness G rel k Hpos) as [u [He Hr]];
        split; [apply Hwf in He; tauto | assumption] ] ]).
  - (* budget exhausted with a ready node: impossible *)
    simpl.
    pose proof (NoDup_incl_length (ki_nodup _ _ _ _ Inv)
                  (ki_incl _ _ _ _ Inv)) as H.
    rewrite length_app in H. simpl in H. lia.
  - cbn [NX.topological_generations].
    destruct (generation_inv (g :: gs) X [] rel im)
      as [im' [zero' [rel' [E [Inv' Hrel']]]]].
    + now rewrite app_nil_r.
    + assumption.
    + rewrite E. cbn [bind fst snd].
      specialize (IH (X ++ g :: gs) zero' rel' im').
      rewrite <- app_assoc in IH. specialize (IH Inv' Hrel').
      rewrite length_app in IH. simpl in IH.
      assert (Hb' : (length (NX.nodes G) <= b + (length X + S (length gs)))%nat)
        by lia.
      specialize (IH Hb').
      destruct (NX.topological_generations b G im' zero') as [gens|e|];
        cbn [bind]; [|exact IH|exact IH].
      cbn [concat]. rewrite <- app_assoc in IH. exact IH.
Qed.

Lemma dict_get_app_none {V} k (m m' : list (ident * V)) :
  dict_get k m = None -> dict_get k (m ++ m') = dict_get k m'.
Proof.
  induction m as [|[k' v] m IH]; simpl; [reflexivity|].
  destruct (String.eqb k k'); [discriminate | assumption].
Qed.

Lemma dict_set_new {V} k (v : V) m :
  dict_get k m = None -> dict_set k v m = m ++ [(k, v)].
Proof.
  induction m as [|[k' v'] m IH]; simpl; [reflexivity|].
  destruct (String.eqb k k'); [discriminate|].
  intros H. now rewrite IH.
Qed.

Lemma dict_get_map_fun {V} (f : ident -> V) l v :
  dict_get v (map (fun x => (x, f x)) l) =
  if mem v l then Some (f v) else None.
Proof.
  induction l as [|x l IH]; simpl; [reflexivity|].
  destruct (String.eqb v x) eqn:E; simpl.
  - apply String.eqb_eq in E. now subst.
  - assumption.
Qed.

Lemma unrelaxed_nil v : unrelaxed G [] v = NX.in_degree G v.
Proof.
  unfold unrelaxed, NX.in_degree, NX.predecessors.
  rewrite length_map. f_equal. f_equal. apply filter_ext.
  intros e. simpl. now rewrite andb_true_r.
Qed.

Lemma in_degree_pos_node v :
  (0 < NX.in_degree G v)%Z -> In v (NX.nodes G).
Proof.
  rewrite <- unrelaxed_nil. intros H.
  destruct (unrelaxed_witness G [] v H) as [u [He _]].
  apply Hwf in He. tauto.
Qed.

Lemma kahn_inv_init :
  kahn_inv G []
    (filter (fun v => (NX.in_degree G v =? 0)%Z) (NX.nodes G))
    (map (fun v => (v, NX.in_degree G v))
         (filter (fun v => (NX.in_degree G v >? 0)%Z) (NX.nodes G))).
Proof.
  constructor.
  - intros v. rewrite dict_get_map_fun, unrelaxed_nil.
    destruct (NX.in_degree G v >? 0)%Z eqn:E.
    + replace (mem v _) with true; [reflexivity|]. symmetry.
      apply mem_In, filter_In. split; [|assumption].
      apply in_degree_pos_node. lia.
    + replace (mem v _) with false; [reflexivity|]. symmetry.
      apply mem_false. rewrite filter_In. intros [_ H]. congruence.
  - intros v Hv. rewrite unrelaxed_nil, filter_In, Z.eqb_eq. tauto.
  - apply NoDup_filter, Hwf.
  - intros v Hv. apply filter_In in Hv. tauto.
  - contradiction.
  - intros u v He Hv. apply filter_In in Hv. destruct Hv as [_ Hz].
    apply Z.eqb_eq in Hz. rewrite <- unrelaxed_nil in Hz.
    pose proof (unrelaxed_zero G Hwf [] u v Hz He). contradiction.
Qed.

Theorem topological_sort_spec :
  match NX.topological_sort G with
  | Ok tp => topological_order G tp
  | Raise NetworkXUnfeasible => has_cycle G
  | _ => False
  end.
Proof.
  unfold NX.topological_sort.
  pose proof (topological_generations_spec (length (NX.nodes G)) [] _ [] _
                kahn_inv_init) as H.
  simpl in H.
  assert (Hrel : forall e : edge,
             False <-> In e (NX.edges G) /\ False) by tauto.
  specialize (H Hrel). rewrite Nat.add_0_r in H. specialize (H (le_n _)).
  destruct (NX.topological_generations _ G _ _) as [gens|e|]; simpl; exact H.
Qed.

End KahnLoop.

Corollary topological_sort_acyclic G :
  wf_graph G -> acyclic G ->
  exists tp, NX.topological_sort G = Ok tp /\ topological_order G tp.
Proof.
  intros Hwf Hac. pose proof (topological_sort_spec G Hwf) as H.
  destruct (NX.topological_sort G) as [tp|e|].
  - exists tp. auto.
  - exfalso. destruct e; try contradiction.
  - contradiction.
Qed.

Corollary topological_sort_cyclic G :
  wf_graph G -> has_cycle G ->
  NX.topological_sort G = Raise NetworkXUnfeasible.
Proof.
  intros Hwf Hc. pose proof (topological_sort_spec G Hwf) as H.
  destruct (NX.topological_sort G) as [tp|e|].
  - exfalso. apply (topological_order_acyclic G tp H Hc).
  - destruct e; try contradiction. reflexivity.
  - contradiction.
Qed.

(** ** Dict keys, positions, in-place updates *)

Lemma dict_keys_fold_In l : forall acc x,
  In x (fold_left (fun acc k => if mem k acc then acc else acc ++ [k]) l acc)
  <-> In x acc \/ In x l.
Proof.
  induction l as [|k l IH]; intros acc x; simpl; [tauto|].
  rewrite IH. destruct (mem k acc) eqn:E.
  - apply mem_In in E. intuition (subst; auto).
  - rewrite in_app_iff. simpl. intuition.
Qed.

Lemma dict_keys_fold_NoDup l : forall acc,
  NoDup acc ->
  NoDup (fold_left (fun acc k => if mem k acc then acc else acc ++ [k]) l acc).
Proof.
  induction l as [|k l IH]; intros acc H; simpl; [assumption|].
  apply IH. destruct (mem k acc) eqn:E; [assumption|].
  apply NoDup_snoc; [assumption | now apply mem_false].
Qed.

Lemma dict_keys_In l x : In x (dict_keys l) <-> In x l.
Proof. unfold dict_keys. rewrite dict_keys_fold_In. simpl. tauto. Qed.

Lemma dict_keys_NoDup l : NoDup (dict_keys l).
Proof. apply dict_keys_fold_NoDup. constructor. Qed.

Lemma index_of_position k l :
  In k l -> index_of k l = Some (position k l).
Proof.
  induction l as [|x l IH]; simpl; [contradiction|].
  intros H. destruct (String.eqb k x) eqn:E; [reflexivity|].
  rewrite IH; [reflexivity|]. destruct H as [H|H]; [|assumption].
  subst. rewrite String.eqb_refl in E. discriminate.
Qed.

Lemma index_of_none k l : ~ In k l -> index_of k l = None.
Proof.
  induction l as [|x l IH]; simpl; [reflexivity|].
  intros H. destruct (String.eqb k x) eqn:E.
  - apply String.eqb_eq in E. subst. tauto.
  - rewrite IH; [reflexivity | tauto].
Qed.

Lemma lookup_index_ok k l :
  In k l -> BottomUp.lookup_index k l = Ok (position k l).
Proof.
  intros H. unfold BottomUp.lookup_index. now rewrite index_of_position.
Qed.

Lemma position_inj x y l :
  In x l -> position x l = position y l -> x = y.
Proof.
  induction l as [|z l IH]; simpl; [contradiction|].
  intros Hin. destruct (String.eqb x z) eqn:Ex, (String.eqb y z) eqn:Ey;
    intros H; try discriminate.
  - apply String.eqb_eq in Ex, Ey. congruence.
  - apply IH; [|congruence]. destruct Hin as [Hin|Hin]; [|assumption].
    subst. rewrite String.eqb_refl in Ex. discriminate.
Qed.

Lemma nth_position x l : In x l -> nth (position x l) l EmptyString = x.
Proof.
  induction l as [|z l IH]; simpl; [contradiction|].
  intros H. destruct (String.eqb x z) eqn:E.
  - apply String.eqb_eq in E. now subst.
  - apply IH. destruct H as [H|H]; [|assumption].
    subst. rewrite String.eqb_refl in E. discriminate.
Qed.

Lemma position_nth l : forall i,
  NoDup l -> (i < length l)%nat -> position (nth i l EmptyString) l = i.
Proof.
  induction l as [|z l IH]; intros i Hnd Hi; simpl in *; [lia|].
  inversion Hnd as [|? ? Hz Hnd']; subst.
  destruct i as [|i].
  - now rewrite String.eqb_refl.
  - destruct (String.eqb (nth i l EmptyString) z) eqn:E.
    + apply String.eqb_eq in E. exfalso. apply Hz. rewrite <- E.
      apply nth_In. lia.
    + f_equal. apply IH; [assumption | lia].
Qed.

Lemma length_set_nth {A} i (x : A) l : length (set_nth i x l) = length l.
Proof.
  revert i. induction l as [|y l IH]; intros [|i]; simpl; auto.
Qed.

Lemma nth_set_nth_eq {A} i (x d : A) l :
  (i < length l)%nat -> nth i (set_nth i x l) d = x.
Proof.
  revert i. induction l as [|y l IH]; intros [|i] H; simpl in *;
    try lia; [reflexivity|]. apply IH. lia.
Qed.

Lemma nth_set_nth_neq {A} i j (x d : A) l :
  i <> j -> nth j (set_nth i x l) d = nth j l d.
Proof.
  revert i j. induction l as [|y l IH]; intros [|i] [|j] H; simpl;
    try reflexivity; try congruence. apply IH. congruence.
Qed.

Lemma In_set_nth {A} i (x y : A) l : In y (set_nth i x l) -> y = x \/ In y l.
Proof.
  revert i. induction l as [|z l IH]; intros [|i]; simpl; try tauto.
  - intros [H|H]; auto.
  - intros [H|H]; auto. apply IH in H. tauto.
Qed.

Lemma filter_all {A} (p : A -> bool) l :
  (forall x, In x l -> p x = true) -> filter p l = l.
Proof.
  induction l as [|x l IH]; simpl; intros H; [reflexivity|].
  rewrite H by auto. f_equal. auto.
Qed.

Lemma mapM_ok {A B} (f : A -> result B) (g : A -> B) l :
  (forall x, In x l -> f x = Ok (g x)) -> mapM f l = Ok (map g l).
Proof.
  induction l as [|x l IH]; simpl; intros H; [reflexivity|].
  rewrite H by auto. simpl. rewrite IH by auto. reflexivity.
Qed.

(** ** The graphs built by the handlers *)

Lemma G_wf data : wf_graph (BottomUp.G data).
Proof. apply add_edges_from_wf, add_nodes_from_wf, empty_wf. Qed.

Lemma M_wf data : wf_graph (BottomUp.M data).
Proof. apply add_edges_from_wf, add_nodes_from_wf, empty_wf. Qed.

Lemma M_edges data e :
  In e (NX.edges (BottomUp.M data)) <-> In e (BottomUp.mission_hierarchy data).
Proof.
  unfold BottomUp.M. rewrite add_edges_from_edges, add_nodes_from_edges.
  simpl. tauto.
Qed.

Lemma G_edges data e :
  In e (NX.edges (BottomUp.G data)) <->
  In e (BottomUp.mission_hierarchy data) \/
  In e (BottomUp.mission_data_relations data).
Proof.
  unfold BottomUp.G. rewrite add_edges_from_edges, add_nodes_from_edges.
  simpl. rewrite in_app_iff. tauto.
Qed.

Lemma missions_In data m :
  In m (BottomUp.missions data) <-> In m (map UUID (Mission data)).
Proof. apply dict_keys_In. Qed.

(** ** Arithmetic of the mean *)

Lemma in_range_0 : in_range 0.
Proof. unfold in_range. lra. Qed.

Lemma in_range_100 : in_range 100.
Proof. unfold in_range. lra. Qed.

Lemma inject_nat_succ a :
  (inject_Z (Z.of_nat (S a)) == inject_Z (Z.of_nat a) + 1)%Q.
Proof. rewrite Nat2Z.inj_succ. unfold Z.succ. now rewrite inject_Z_plus. Qed.

Lemma fold_sum_bounds l : forall acc a,
  (0 <= acc /\ acc <= 100 * inject_Z (Z.of_nat a))%Q ->
  Forall in_range l ->
  (0 <= fold_left Qplus l acc /\
   fold_left Qplus l acc <= 100 * inject_Z (Z.of_nat (a + length l)))%Q.
Proof.
  induction l as [|x l IH]; intros acc a Hacc Hl; simpl.
  - now rewrite Nat.add_0_r.
  - inversion Hl as [|? ? Hx Hl']; subst.
    replace (a + S (length l))%nat with (S a + length l)%nat by lia.
    apply IH; [|assumption].
    rewrite inject_nat_succ. unfold in_range in Hx.
    destruct Hacc as [Ha0 Ha1], Hx as [Hx0 Hx1].
    set (k := inject_Z (Z.of_nat a)) in *. clearbody k.
    split; lra.
Qed.

Lemma mean_in_range l :
  l <> [] -> Forall in_range l ->
  in_range (fold_left Qplus l 0 / inject_Z (Z.of_nat (length l))).
Proof.
  intros Hne Hl.
  destruct (fold_sum_bounds l 0 0) as [H0 H1];
    [split; vm_compute; discriminate | assumption|].
  simpl in H1.
  assert (Hk : (0 < inject_Z (Z.of_nat (length l)))%Q).
  { change 0%Q with (inject_Z 0). rewrite <- Zlt_Qlt.
    destruct l; [congruence | simpl; lia]. }
  split.
  - apply Qle_shift_div_l; [assumption | lra].
  - apply Qle_shift_div_r; [assumption | lra].
Qed.

Lemma nth_map_seq {A} (f : nat -> A) n j d :
  (j < n)%nat -> nth j (map f (seq 0 n)) d = f j.
Proof.
  intros H. rewrite (nth_indep _ d (f 0%nat)) by now rewrite length_map, length_seq.
  rewrite map_nth. now rewrite seq_nth.
Qed.

Lemma calculated_mean_length n rows :
  length (BottomUp.calculated_mean n rows) = n.
Proof. unfold BottomUp.calculated_mean. now rewrite length_map, length_seq. Qed.

Lemma calculated_mean_nth n rows j :
  (j < n)%nat ->
  nth j (BottomUp.calculated_mean n rows) 0%Q =
  (sumQ (map (fun row => nth j row 0%Q) rows)
   / inject_Z (Z.of_nat (length rows)))%Q.
Proof.
  intros H. unfold BottomUp.calculated_mean.
  now rewrite (nth_map_seq _ n j 0%Q H).
Qed.

Lemma calculated_mean_range n rows j :
  rows <> [] ->
  (forall row, In row rows -> in_range (nth j row 0%Q)) ->
  in_range (nth j (BottomUp.calculated_mean n rows) 0%Q).
Proof.
  intros Hne Hr. destruct (Nat.lt_ge_cases j n) as [Hj|Hj].
  - rewrite calculated_mean_nth by assumption. unfold sumQ.
    rewrite <- (length_map (fun row => nth j row 0%Q) rows).
    apply mean_in_range.
    + destruct rows; [congruence | discriminate].
    + apply Forall_forall. intros x Hx. apply in_map_iff in Hx.
      destruct Hx as [row [<- Hrow]]. now apply Hr.
  - rewrite nth_overflow; [apply in_range_0|].
    now rewrite calculated_mean_length.
Qed.

(** ** The bottom-up loop *)

Lemma nth_repeat_lt {A} (x d : A) r k :
  (k < r)%nat -> nth k (repeat x r) d = x.
Proof.
  revert k. induction r as [|r IH]; intros [|k] H; simpl; try lia;
    [reflexivity|]. apply IH. lia.
Qed.

Lemma nth_zeros_row n j : nth j (zeros_row n) 0%Q = 0%Q.
Proof.
  unfold zeros_row. destruct (Nat.lt_ge_cases j n) as [H|H].
  - now apply nth_repeat_lt.
  - apply nth_overflow. now rewrite repeat_length.
Qed.

Lemma mem_filter (p : ident -> bool) d l :
  mem d (filter p l) = mem d l && p d.
Proof.
  destruct (mem d (filter p l)) eqn:E1.
  - apply mem_In, filter_In in E1. destruct E1 as [H1 H2].
    apply mem_In in H1. now rewrite H1, H2.
  - apply mem_false in E1. rewrite filter_In in E1.
    destruct (mem d l) eqn:E2; [|reflexivity].
    apply mem_In in E2. destruct (p d); [tauto | reflexivity].
Qed.

Section BottomUpLoop.

Variable data : Payload.
Hypothesis Hk : hierarchy_known data.

Local Abbreviation ms := (BottomUp.missions data).
Local Abbreviation od := (BottomUp.operational_data data).
Local Abbreviation Mg := (BottomUp.M data).
Local Abbreviation Gg := (BottomUp.G data).

Lemma M_nodes v : In v (NX.nodes Mg) <-> In v ms.
Proof.
  unfold BottomUp.M.
  rewrite add_edges_from_nodes, add_nodes_from_nodes. simpl. split.
  - intros [[[]|H]|[e [He Hv]]]; [assumption|].
    apply in_map_iff in He. destruct He as [r [<- Hr]].
    apply Hk in Hr. simpl in Hv. apply missions_In.
    destruct Hv as [->| ->]; tauto.
  - auto.
Qed.

Lemma children_missions m c : In c (children_of data m) -> In c ms.
Proof.
  intros H. apply predecessors_In in H.
  apply (M_wf data) in H. apply M_nodes. tauto.
Qed.

Lemma ms_nodup : NoDup ms.
Proof. apply dict_keys_NoDup. Qed.

Lemma od_nodup : NoDup od.
Proof. apply dict_keys_NoDup. Qed.

Lemma leaf_fill i ds : forall mat,
  (i < length mat)%nat -> length (nth i mat []) = length od ->
  (forall d, In d ds -> In d od) ->
  exists mat',
    foldM (fun mat d_uuid =>
             j <- BottomUp.lookup_index d_uuid od ;;
             Ok (set_nth i (set_nth j 100%Q (nth i mat [])) mat)) ds mat
    = Ok mat' /\
    length mat' = length mat /\
    (forall k, k <> i -> nth k mat' [] = nth k mat []) /\
    length (nth i mat' []) = length od /\
    (forall d, In d od ->
       nth (position d od) (nth i mat' []) 0%Q =
       if mem d ds then 100%Q else nth (position d od) (nth i mat []) 0%Q) /\
    (forall j, nth j (nth i mat' []) 0%Q = 100%Q \/
               nth j (nth i mat' []) 0%Q = nth j (nth i mat []) 0%Q).
Proof.
  induction ds as [|d0 ds IH]; intros mat Hi Hrow Hds.
  - exists mat. simpl. repeat split; auto.
  - assert (Hd0 : In d0 od) by (apply Hds; now left).
    cbn [foldM]. rewrite (lookup_index_ok d0 od Hd0). cbn [bind].
    set (row1 := set_nth (position d0 od) 100%Q (nth i mat [])).
    set (mat1 := set_nth i row1 mat).
    assert (Hlen1 : length mat1 = length mat) by apply length_set_nth.
    assert (Hr1 : nth i mat1 [] = row1)
      by (apply nth_set_nth_eq; assumption).
    destruct (IH mat1) as [mat' [E [Hlen [Hoth [Hrow' [Hval Hrng]]]]]].
    + now rewrite Hlen1.
    + rewrite Hr1. unfold row1. now rewrite length_set_nth.
    + intros d Hd. apply Hds. now right.
    + exists mat'. split; [exact E|]. split; [congruence|].
      split; [|split; [assumption|split]].
      * intros k Hk'. rewrite (Hoth k Hk'). unfold mat1.
        apply nth_set_nth_neq. congruence.
      * intros d Hd. rewrite (Hval d Hd), Hr1. unfold row1.
        change (mem d (d0 :: ds)) with (String.eqb d d0 || mem d ds).
        destruct (String.eqb d d0) eqn:Ed.
        -- apply String.eqb_eq in Ed. subst d0. cbn [orb].
           destruct (mem d ds); [reflexivity|].
           apply nth_set_nth_eq. rewrite Hrow.
           now apply position_lt_in.
        -- cbn [orb]. destruct (mem d ds); [reflexivity|].
           apply nth_set_nth_neq. intros Heq.
           apply String.eqb_neq in Ed. apply Ed. symmetry.
           now apply (position_inj d0 d od).
      * intros j. destruct (Hrng j) as [H|H]; [now left|].
        rewrite H, Hr1. unfold row1.
        destruct (Nat.eq_dec (position d0 od) j) as [<-|Hne].
        -- left. apply nth_set_nth_eq. rewrite Hrow.
           now apply position_lt_in.
        -- right. now apply nth_set_nth_neq.
Qed.

Lemma row_of_other mat mat' m m0 :
  In m0 ms -> m0 <> m ->
  (forall k, k <> position m ms -> nth k mat' [] = nth k mat []) ->
  row_of data mat' m0 = row_of data mat m0.
Proof.
  intros Hm0 Hne Hoth. unfold row_of. apply Hoth.
  intros Heq. apply Hne. now apply (position_inj m0 m ms).
Qed.

Lemma bu_inv_update done mat mat' m :
  bu_inv data done mat -> In m ms -> ~ In m done ->
  incl (children_of data m) done ->
  length mat' = length mat ->
  (forall k, k <> position m ms -> nth k mat' [] = nth k mat []) ->
  length (row_of data mat' m) = length od ->
  (forall j, in_range (nth j (row_of data mat' m) 0%Q)) ->
  (NX.in_degree Mg m = 0%Z -> forall d, In d od ->
     nth (position d od) (row_of data mat' m) 0%Q =
     if mem d (NX.predecessors Gg m) then 100%Q else 0%Q) ->
  (NX.in_degree Mg m <> 0%Z ->
     row_of data mat' m =
     BottomUp.calculated_mean (length od)
       (map (row_of data mat) (children_of data m))) ->
  bu_inv data (done ++ [m]) mat'.
Proof.
  intros Inv Hm Hnd Hch Hlen Hoth Hrow Hrng Hleaf Hmean.
  assert (Hsame : forall m0, In m0 done ->
            row_of data mat' m0 = row_of data mat m0).
  { intros m0 H0. apply (row_of_other mat mat' m m0).
    - now apply (bi_done _ _ _ Inv).
    - intros ->. contradiction.
    - assumption. }
  assert (Hmap : forall m0, incl (children_of data m0) done ->
            map (row_of data mat') (children_of data m0) =
            map (row_of data mat) (children_of data m0)).
  { intros m0 H0. apply map_ext_in. intros c Hc. apply Hsame. now apply H0. }
  constructor.
  - rewrite Hlen. apply (bi_len _ _ _ Inv).
  - intros k Hk'.
    destruct (Nat.eq_dec k (position m ms)) as [->|Hne]; [exact Hrow|].
    rewrite (Hoth k Hne). apply (bi_cols _ _ _ Inv). now rewrite <- Hlen.
  - intros m0 H0 Hz d Hd. apply in_app_iff in H0.
    destruct H0 as [H0|[<-|[]]].
    + rewrite (Hsame m0 H0). now apply (bi_leaf _ _ _ Inv).
    + now apply Hleaf.
  - intros m0 H0 Hnz. apply in_app_iff in H0.
    destruct H0 as [H0|[<-|[]]].
    + rewrite (Hsame m0 H0), (Hmap m0 (bi_closed _ _ _ Inv m0 H0)).
      now apply (bi_mean _ _ _ Inv).
    + rewrite (Hmap m Hch). now apply Hmean.
  - intros m0 H0 c Hc. apply in_app_iff. left.
    apply in_app_iff in H0. destruct H0 as [H0|[<-|[]]].
    + now apply (bi_closed _ _ _ Inv m0 H0).
    + now apply Hch.
  - intros m0 H0 Hn0.
    assert (Hne : m0 <> m).
    { intros ->. apply Hn0, in_app_iff. right. now left. }
    rewrite (row_of_other mat mat' m m0 H0 Hne Hoth).
    apply (bi_todo _ _ _ Inv); [assumption|].
    intros H. apply Hn0, in_app_iff. now left.
  - intros k j. unfold entry.
    destruct (Nat.eq_dec k (position m ms)) as [->|Hne]; [apply Hrng|].
    rewrite (Hoth k Hne). apply (bi_range _ _ _ Inv).
  - intros m0 H0. apply in_app_iff in H0.
    destruct H0 as [H0|[<-|[]]]; [now apply (bi_done _ _ _ Inv) | assumption].
Qed.

Lemma mem_leaf m :
  In m ms ->
  mem m (BottomUp.find_leaf_mission_nodes Mg) = (NX.in_degree Mg m =? 0)%Z.
Proof.
  intros Hm. unfold BottomUp.find_leaf_mission_nodes.
  rewrite mem_filter.
  replace (mem m (NX.nodes Mg)) with true; [reflexivity|].
  symmetry. now apply mem_In, M_nodes.
Qed.

Lemma process_mission_inv done mat m :
  bu_inv data done mat -> In m ms -> ~ In m done ->
  incl (children_of data m) done ->
  exists mat',
    BottomUp.process_mission data (BottomUp.find_leaf_mission_nodes Mg) mat m
    = Ok mat' /\
    bu_inv data (done ++ [m]) mat'.
Proof.
  intros Inv Hm Hnd Hch.
  assert (Hi : (position m ms < length mat)%nat).
  { rewrite (bi_len _ _ _ Inv). now apply position_lt_in. }
  unfold BottomUp.process_mission.
  rewrite (lookup_index_ok m ms Hm). cbn [bind].
  rewrite (mem_leaf m Hm).
  destruct (NX.in_degree Mg m =? 0)%Z eqn:Ez.
  - (* leaf *)
    apply Z.eqb_eq in Ez.
    destruct (leaf_fill (position m ms)
                (filter (fun n => mem n od) (NX.predecessors Gg m)) mat Hi)
      as [mat' [E [Hlen [Hoth [Hrow [Hval Hrng]]]]]].
    + now apply (bi_cols _ _ _ Inv).
    + intros d Hd. apply filter_In in Hd. now apply mem_In.
    + exists mat'. split; [exact E|].
      pose proof (bi_todo _ _ _ Inv m Hm Hnd) as Hz. unfold row_of in Hz.
      apply (bu_inv_update done mat mat' m); try assumption.
      * intros j. unfold row_of.
        destruct (Hrng j) as [-> | ->]; [apply in_range_100|].
        rewrite Hz, nth_zeros_row. apply in_range_0.
      * intros _ d Hd. unfold row_of.
        rewrite (Hval d Hd), mem_filter, Hz, nth_zeros_row.
        apply mem_In in Hd. rewrite Hd, andb_true_r. reflexivity.
      * intros Hnz. contradiction.
  - (* inner node *)
    apply Z.eqb_neq in Ez.
    rewrite filter_all.
    2:{ intros c Hc. apply mem_In. now apply (children_missions m). }
    rewrite (mapM_ok _ (row_of data mat)).
    2:{ intros c Hc.
        rewrite (lookup_index_ok c ms (children_missions m c Hc)).
        reflexivity. }
    cbn [bind]. change (NX.predecessors Mg m) with (children_of data m).
    assert (Hrows : map (row_of data mat) (children_of data m) <> []).
    { intros H. apply map_eq_nil in H. apply Ez. unfold NX.in_degree.
      unfold children_of in H. now rewrite H. }
    remember (map (row_of data mat) (children_of data m)) as rows eqn:Er.
    destruct rows as [|r rs]; [congruence|].
    eexists. split; [reflexivity|].
    assert (Hnew : row_of data
                     (set_nth (position m ms)
                        (BottomUp.calculated_mean (length od) (r :: rs)) mat) m
                   = BottomUp.calculated_mean (length od) (r :: rs)).
    { unfold row_of. now apply nth_set_nth_eq. }
    apply (bu_inv_update done mat _ m); try assumption.
    + apply length_set_nth.
    + intros k Hk'. apply nth_set_nth_neq. congruence.
    + rewrite Hnew. apply calculated_mean_length.
    + intros j. rewrite Hnew. apply calculated_mean_range; [assumption|].
      intros row Hrow. rewrite Er in Hrow. apply in_map_iff in Hrow.
      destruct Hrow as [c' [<- _]]. apply (bi_range _ _ _ Inv).
    + intros Hz. contradiction.
    + intros _. rewrite Hnew, Er. reflexivity.
Qed.

Lemma bottom_up_loop tp todo : forall done mat,
  tp = done ++ todo -> NoDup tp -> incl tp ms ->
  (forall u v, In (u, v) (NX.edges Mg) -> (position u tp < position v tp)%nat) ->
  bu_inv data done mat ->
  exists mat',
    foldM (BottomUp.process_mission data (BottomUp.find_leaf_mission_nodes Mg))
          todo mat = Ok mat' /\
    bu_inv data tp mat'.
Proof.
  induction todo as [|m todo IH]; intros done mat Htp Hnd Hin Hord Inv.
  - exists mat. rewrite app_nil_r in Htp. subst. auto.
  - assert (Hmnd : ~ In m done).
    { subst tp. apply NoDup_remove_2 in Hnd. intros H. apply Hnd.
      apply in_app_iff. now left. }
    destruct (process_mission_inv done mat m Inv) as [mat1 [E1 Inv1]].
    + apply Hin. subst tp. apply in_app_iff. right. now left.
    + assumption.
    + intros c Hc. apply predecessors_In in Hc. apply Hord in Hc.
      subst tp. rewrite (position_app_notin m done (m :: todo) Hmnd) in Hc.
      simpl in Hc. rewrite String.eqb_refl, Nat.add_0_r in Hc.
      destruct (in_dec string_dec c done) as [H|H]; [assumption|].
      rewrite (position_app_notin c done (m :: todo) H) in Hc. lia.
    + destruct (IH (done ++ [m]) mat1) as [mat' [E' Inv']]; try assumption.
      * subst tp. now rewrite <- app_assoc.
      * exists mat'. cbn [foldM]. rewrite E1. cbn [bind]. auto.
Qed.

Lemma bu_inv_init :
  bu_inv data [] (zeros (length ms) (length od)).
Proof.
  constructor; try contradiction.
  - unfold zeros. apply repeat_length.
  - intros k Hk'. unfold zeros in *. rewrite repeat_length in Hk'.
    rewrite (nth_repeat_lt _ _ _ _ Hk'). apply repeat_length.
  - intros m Hm _. unfold row_of, zeros. apply nth_repeat_lt.
    now apply position_lt_in.
  - intros k j. unfold entry, zeros.
    destruct (Nat.lt_ge_cases k (length ms)) as [H|H].
    + rewrite (nth_repeat_lt _ _ _ _ H), nth_zeros_row. apply in_range_0.
    + rewrite (nth_overflow (repeat (zeros_row (length od)) (length ms)) []);
        [destruct j; apply in_range_0 | now rewrite repeat_length].
  - intros x [].
Qed.

(** On an acyclic hierarchy over known missions the handler returns a
    matrix that satisfies the loop invariant for every mission. *)
Theorem bottom_up_process_spec :
  acyclic Mg ->
  exists mat tp,
    BottomUp.bottom_up_process data = Ok mat /\
    bu_inv data tp mat /\ (forall m, In m ms -> In m tp).
Proof.
  intros Hac.
  destruct (topological_sort_acyclic Mg (M_wf data) Hac)
    as [tp [Etp [Hnd [Hnodes Hord]]]].
  unfold BottomUp.bottom_up_process. rewrite Etp.
  destruct (bottom_up_loop tp tp [] (zeros (length ms) (length od)))
    as [mat [E Inv]]; try assumption; try reflexivity.
  - intros v Hv. apply M_nodes, Hnodes, Hv.
  - apply bu_inv_init.
  - exists mat, tp. split; [exact E|]. split; [assumption|].
    intros m Hm. apply Hnodes, M_nodes, Hm.
Qed.

End BottomUpLoop.

(** ** Leaves, children and usage links in terms of the payload *)

Lemma children_of_In data m c :
  In c (children_of data m) <->
  exists r, In r (MissionHierarchy data) /\
            ChildMission r = c /\ ParentMission r = m.
Proof.
  unfold children_of. rewrite predecessors_In, M_edges.
  unfold BottomUp.mission_hierarchy. rewrite in_map_iff. split.
  - intros [r [E Hr]]. exists r. inversion E. auto.
  - intros [r [Hr [<- <-]]]. exists r. auto.
Qed.

Lemma in_degree_zero_leaf data m :
  NX.in_degree (BottomUp.M data) m = 0%Z <-> is_leaf data m.
Proof.
  unfold NX.in_degree. fold (children_of data m). split.
  - intros H r Hr Hp.
    assert (Hc : In (ChildMission r) (children_of data m))
      by (apply children_of_In; eauto).
    destruct (children_of data m); [contradiction | simpl in H; lia].
  - intros H. destruct (children_of data m) as [|c cs] eqn:E; [reflexivity|].
    assert (Hc : In c (children_of data m)) by (rewrite E; now left).
    apply children_of_In in Hc. destruct Hc as [r [Hr [_ Hp]]].
    exfalso. exact (H r Hr Hp).
Qed.

Lemma uses_true data d m :
  uses data d m = true <->
  In (d, m) (BottomUp.mission_data_relations data).
Proof.
  unfold uses, BottomUp.mission_data_relations.
  rewrite existsb_exists, in_map_iff. split.
  - intros [r [Hr E]]. apply andb_true_iff in E.
    rewrite !String.eqb_eq in E. destruct E as [<- <-]. eauto.
  - intros [r [E Hr]]. inversion E. exists r. split; [assumption|].
    now rewrite !String.eqb_refl.
Qed.

Lemma leaf_predecessors data d m :
  is_leaf data m ->
  mem d (NX.predecessors (BottomUp.G data) m) = uses data d m.
Proof.
  intros Hl. destruct (uses data d m) eqn:E.
  - apply mem_In, predecessors_In, G_edges. right. now apply uses_true.
  - apply mem_false. rewrite predecessors_In, G_edges.
    intros [H|H].
    + apply in_map_iff in H. destruct H as [r [Er Hr]].
      inversion Er. exact (Hl r Hr H1).
    + apply uses_true in H. congruence.
Qed.

(** * The claims about [bottom_up_process] *)

(** C9.  On an acyclic hierarchy (whose records name missions of the
    payload) the handler returns a matrix with one row per mission and one
    column per data node, and every entry lies in [0,100]. *)
Theorem C9_bottom_up_entries_in_range (data : Payload) :
  hierarchy_known data -> acyclic (BottomUp.M data) ->
  exists mat,
    BottomUp.bottom_up_process data = Ok mat /\
    length mat = length (BottomUp.missions data) /\
    forall row, In row mat ->
      length row = length (BottomUp.operational_data data) /\
      forall x, In x row -> (0 <= x /\ x <= 100)%Q.
Proof.
  intros Hk Hac.
  destruct (bottom_up_process_spec data Hk Hac) as [mat [tp [E [Inv _]]]].
  exists mat. split; [exact E|]. split; [apply (bi_len _ _ _ Inv)|].
  intros row Hrow.
  destruct (In_nth mat row [] Hrow) as [k [Hk' <-]].
  split; [now apply (bi_cols _ _ _ Inv)|].
  intros x Hx.
  destruct (In_nth _ x 0%Q Hx) as [j [_ <-]].
  apply (bi_range _ _ _ Inv k j).
Qed.

Lemma C9_witness :
  exists mat,
    BottomUp.bottom_up_process scenario_A = Ok mat /\
    length mat = length (BottomUp.missions scenario_A) /\
    forall row, In row mat ->
      length row = length (BottomUp.operational_data scenario_A) /\
      forall x, In x row -> (0 <= x /\ x <= 100)%Q.
Proof.
  apply (C9_bottom_up_entries_in_range scenario_A).
  - intros r [<-|[]]; simpl; auto.
  - apply (topological_order_acyclic _ ["M1"; "M2"]).
    split; [|split].
    + repeat constructor; simpl; intuition discriminate.
    + intros v. simpl. tauto.
    + intros u v [H|[]]. inversion H. simpl. lia.
Defined.

(** C7.  On an acyclic hierarchy the row of every leaf mission (a mission
    that is the parent in no hierarchy record) holds 100 in the column of
    each data node that a usage record links to it and 0 in every other
    column; so a leaf row only contains the values 0 and 100. *)
Theorem C7_leaf_rows (data : Payload) :
  hierarchy_known data -> acyclic (BottomUp.M data) ->
  exists mat,
    BottomUp.bottom_up_process data = Ok mat /\
    forall m, In m (BottomUp.missions data) -> is_leaf data m ->
      length (row_of data mat m) = length (BottomUp.operational_data data) /\
      (forall d, In d (BottomUp.operational_data data) ->
         nth (position d (BottomUp.operational_data data))
             (row_of data mat m) 0%Q =
         if uses data d m then 100%Q else 0%Q) /\
      (forall x, In x (row_of data mat m) -> x = 0%Q \/ x = 100%Q).
Proof.
  intros Hk Hac.
  destruct (bottom_up_process_spec data Hk Hac) as [mat [tp [E [Inv Hall]]]].
  exists mat. split; [exact E|]. intros m Hm Hl.
  assert (Hlen : length (row_of data mat m) =
                 length (BottomUp.operational_data data)).
  { apply (bi_cols _ _ _ Inv). rewrite (bi_len _ _ _ Inv).
    now apply position_lt_in. }
  assert (Hval : forall d, In d (BottomUp.operational_data data) ->
            nth (position d (BottomUp.operational_data data))
                (row_of data mat m) 0%Q =
            if uses data d m then 100%Q else 0%Q).
  { intros d Hd. rewrite <- (leaf_predecessors data d m Hl).
    apply (bi_leaf _ _ _ Inv); [now apply Hall | | assumption].
    now apply in_degree_zero_leaf. }
  split; [assumption|]. split; [assumption|].
  intros x Hx. destruct (In_nth _ x 0%Q Hx) as [j [Hj <-]].
  rewrite Hlen in Hj.
  pose proof (Hval (nth j (BottomUp.operational_data data) EmptyString)
                (nth_In _ _ Hj)) as H.
  rewrite (position_nth (BottomUp.operational_data data) j
             (dict_keys_NoDup _) Hj) in H.
  rewrite H. destruct (uses data _ m); auto.
Qed.

Lemma C7_witness :
  exists mat,
    BottomUp.bottom_up_process scenario_A = Ok mat /\
    length (row_of scenario_A mat "M1") = 2%nat /\
    (forall d, In d (BottomUp.operational_data scenario_A) ->
       nth (position d (BottomUp.operational_data scenario_A))
           (row_of scenario_A mat "M1") 0%Q =
       if uses scenario_A d "M1" then 100%Q else 0%Q) /\
    (forall x, In x (row_of scenario_A mat "M1") -> x = 0%Q \/ x = 100%Q).
Proof.
  destruct (C7_leaf_rows scenario_A) as [mat [E H]].
  - intros r [<-|[]]; simpl; auto.
  - apply (topological_order_acyclic _ ["M1"; "M2"]).
    split; [|split].
    + repeat constructor; simpl; intuition discriminate.
    + intros v. simpl. tauto.
    + intros u v [H|[]]. inversion H. simpl. lia.
  - exists mat. split; [exact E|]. apply (H "M1").
    + simpl. auto.
    + intros r [<-|[]]. discriminate.
Defined.

(** C6.  On an acyclic hierarchy the row of every mission that has a
    hierarchy child is, column by column, the arithmetic mean of the rows of
    its direct children. *)
Theorem C6_parent_row_is_mean (data : Payload) :
  hierarchy_known data -> acyclic (BottomUp.M data) ->
  exists mat,
    BottomUp.bottom_up_process data = Ok mat /\
    forall m, In m (BottomUp.missions data) -> has_child data m ->
    forall j, (j < length (BottomUp.operational_data data))%nat ->
      entry mat (position m (BottomUp.missions data)) j =
      (sumQ (map (fun c => entry mat (position c (BottomUp.missions data)) j)
                 (children_of data m))
       / inject_Z (Z.of_nat (length (children_of data m))))%Q.
Proof.
  intros Hk Hac.
  destruct (bottom_up_process_spec data Hk Hac) as [mat [tp [E [Inv Hall]]]].
  exists mat. split; [exact E|]. intros m Hm [r [Hr Hp]] j Hj.
  assert (Hnz : NX.in_degree (BottomUp.M data) m <> 0%Z).
  { intros Hz. apply in_degree_zero_leaf in Hz. exact (Hz r Hr Hp). }
  pose proof (bi_mean _ _ _ Inv m (Hall m Hm) Hnz) as Hrow.
  unfold entry. fold (row_of data mat m). rewrite Hrow.
  rewrite (calculated_mean_nth _ _ j Hj), map_map, length_map.
  reflexivity.
Qed.

Lemma C6_witness :
  exists mat,
    BottomUp.bottom_up_process scenario_A = Ok mat /\
    forall j, (j < 2)%nat ->
      entry mat 1 j =
      (sumQ (map (fun c => entry mat (position c ["M1"; "M2"]) j) ["M1"])
       / inject_Z 1)%Q.
Proof.
  destruct (C6_parent_row_is_mean scenario_A) as [mat [E H]].
  - intros r [<-|[]]; simpl; auto.
  - apply (topological_order_acyclic _ ["M1"; "M2"]).
    split; [|split].
    + repeat constructor; simpl; intuition discriminate.
    + intros v. simpl. tauto.
    + intros u v [H|[]]. inversion H. simpl. lia.
  - exists mat. split; [exact E|]. apply (H "M2").
    + simpl. auto.
    + exists (mkHierarchy "M1" "M2"). simpl. auto.
Defined.

(** ** Termination of [calculate_depth] *)

Lemma filter_length_le {A} (p q : A -> bool) l :
  (forall x, In x l -> p x = true -> q x = true) ->
  (length (filter p l) <= length (filter q l))%nat.
Proof.
  induction l as [|x l IH]; simpl; intros H; [lia|].
  assert (IH' := IH (fun y Hy => H y (or_intror Hy))).
  destruct (p x) eqn:Ep.
  - rewrite (H x (or_introl eq_refl) Ep). simpl. lia.
  - destruct (q x); simpl; lia.
Qed.

Lemma filter_length_lt {A} (p q : A -> bool) l x :
  (forall y, In y l -> p y = true -> q y = true) ->
  In x l -> p x = false -> q x = true ->
  (length (filter p l) < length (filter q l))%nat.
Proof.
  induction l as [|y l IH]; simpl; intros H Hin Hp Hq; [contradiction|].
  assert (Hle := filter_length_le p q l (fun z Hz => H z (or_intror Hz))).
  destruct Hin as [->|Hin].
  - rewrite Hp, Hq. simpl. lia.
  - assert (IH' := IH (fun z Hz => H z (or_intror Hz)) Hin Hp Hq).
    destruct (p y) eqn:Ep.
    + rewrite (H y (or_introl eq_refl) Ep). simpl. lia.
    + destruct (q y); simpl; lia.
Qed.

Lemma unvisited_mono G v v' :
  incl v v' -> (unvisited G v' <= unvisited G v)%nat.
Proof.
  intros H. apply filter_length_le. intros x _ Hx.
  apply negb_true_iff in Hx. apply negb_true_iff.
  apply mem_false. apply mem_false in Hx. auto.
Qed.

Lemma unvisited_add G v x :
  In x (NX.nodes G) -> ~ In x v ->
  (unvisited G (x :: v) < unvisited G v)%nat.
Proof.
  intros Hx Hv. apply (filter_length_lt _ _ _ x).
  - intros y _ Hy. apply negb_true_iff in Hy. apply negb_true_iff.
    apply mem_false. apply mem_false in Hy. intros H. apply Hy. now right.
  - assumption.
  - apply negb_false_iff, mem_In. now left.
  - apply negb_true_iff. now apply mem_false.
Qed.

Lemma unvisited_le G v : (unvisited G v <= length (NX.nodes G))%nat.
Proof.
  unfold unvisited.
  rewrite <- (filter_all (fun _ => true) (NX.nodes G)) at 2 by reflexivity.
  apply filter_length_le. reflexivity.
Qed.

Section DepthTotal.

Variable G : NX.DiGraph.
Hypothesis Hwf : wf_graph G.

Lemma mapM_st_depth limit
  (IH : forall node visited, In node (NX.nodes G) ->
          (unvisited G visited < limit)%nat ->
          exists d v', Criticality.calculate_depth limit G node visited
                       = Ok (d, v') /\ incl visited v') :
  forall ps w, (forall p, In p ps -> In p (NX.nodes G)) ->
    (unvisited G w < limit)%nat ->
    exists ds w', Criticality.mapM_st (Criticality.calculate_depth limit G) ps w
                  = Ok (ds, w') /\ incl w w'.
Proof.
  induction ps as [|p ps IHps]; intros w Hps Hw.
  - exists [], w. split; [reflexivity | apply incl_refl].
  - destruct (IH p w (Hps p (or_introl eq_refl)) Hw) as [d [w1 [E1 H1]]].
    destruct (IHps w1) as [ds [w' [E' H']]].
    + intros q Hq. apply Hps. now right.
    + pose proof (unvisited_mono G w w1 H1). lia.
    + exists (d :: ds), w'. cbn [Criticality.mapM_st]. rewrite E1.
      cbn [bind fst snd]. rewrite E'. cbn [bind fst snd].
      split; [reflexivity|]. eapply incl_tran; eassumption.
Qed.

Lemma calculate_depth_total limit : forall node visited,
  In node (NX.nodes G) -> (unvisited G visited < limit)%nat ->
  exists d v', Criticality.calculate_depth limit G node visited = Ok (d, v')
               /\ incl visited v'.
Proof.
  induction limit as [|limit IH]; intros node visited Hn Hu; [lia|].
  cbn [Criticality.calculate_depth].
  destruct (mem node visited) eqn:E.
  - exists 0%Z, visited. split; [reflexivity | apply incl_refl].
  - apply mem_false in E.
    destruct (mapM_st_depth limit IH (NX.predecessors G node) (node :: visited))
      as [ds [w' [E' H']]].
    + intros p Hp. apply predecessors_In in Hp. apply Hwf in Hp. tauto.
    + pose proof (unvisited_add G visited node Hn E). lia.
    + rewrite E'. cbn [bind fst snd].
      assert (Hi : incl visited w').
      { intros x Hx. apply H'. now right. }
      destruct ds as [|d ds]; eexists _, _; split; try reflexivity; assumption.
Qed.

(** A node without predecessors has depth 0, whatever [visited] holds. *)
Lemma calculate_depth_source limit node visited :
  NX.predecessors G node = [] ->
  Criticality.calculate_depth (S limit) G node visited =
  Ok (0%Z, if mem node visited then visited else node :: visited).
Proof.
  intros Hp. cbn [Criticality.calculate_depth].
  destruct (mem node visited); [reflexivity|].
  rewrite Hp. reflexivity.
Qed.

End DepthTotal.

Lemma dict_get_some_set {V} k k' (v : V) m :
  (exists s, dict_get k m = Some s) ->
  exists s, dict_get k (dict_set k' v m) = Some s.
Proof.
  intros [s Hs]. destruct (string_dec k k') as [->|Hne].
  - exists v. apply dict_get_set_eq.
  - exists s. now rewrite dict_get_set_neq.
Qed.

Lemma Crit_G_nodes data d :
  In d (Criticality.operational_data data) ->
  In d (NX.nodes (Criticality.G data)).
Proof.
  intros H. unfold Criticality.G, BottomUp.G.
  apply add_edges_from_nodes. left. apply add_nodes_from_nodes. right.
  unfold BottomUp.full_nodes. apply dict_keys_In, in_app_iff. now right.
Qed.

(** The loop of [bfs_dfs_analysis] returns a score for every data node as
    soon as the recursion limit exceeds the number of nodes. *)
Lemma criticality_loop_total limit data visited :
  (length (NX.nodes (Criticality.G data)) < limit)%nat ->
  exists sc v',
    Criticality.criticality_loop limit data visited = Ok (sc, v') /\
    forall d, In d (Criticality.operational_data data) ->
      exists s, dict_get d sc = Some s.
Proof.
  intros Hl. unfold Criticality.criticality_loop.
  assert (Hgen : forall ds acc,
    (forall d, In d ds -> In d (Criticality.operational_data data)) ->
    exists sc v',
      foldM (fun (acc : list (ident * Q) * list ident) node_id =>
        r <- Criticality.calculate_depth limit (Criticality.G data) node_id
               (snd acc) ;;
        Ok (dict_set node_id
              (inject_Z (Criticality.calculate_breadth (Criticality.G data)
                           node_id)
               + 1 / (inject_Z (fst r) + 1))%Q (fst acc), snd r))
        ds acc = Ok (sc, v') /\
      forall d, (In d ds \/ exists s, dict_get d (fst acc) = Some s) ->
        exists s, dict_get d sc = Some s).
  { induction ds as [|d0 ds IH]; intros [sc0 v0] Hds.
    - exists sc0, v0. split; [reflexivity|]. intros d [[]|H]. exact H.
    - destruct (calculate_depth_total (Criticality.G data) (G_wf data)
                  limit d0 v0) as [dep [v1 [E1 _]]].
      + apply Crit_G_nodes, Hds. now left.
      + pose proof (unvisited_le (Criticality.G data) v0). lia.
      + cbn [foldM snd fst]. rewrite E1. cbn [bind fst snd].
        destruct (IH (dict_set d0
                   (inject_Z (Criticality.calculate_breadth
                                (Criticality.G data) d0)
                    + 1 / (inject_Z dep + 1))%Q sc0, v1))
          as [sc [v' [E' H']]].
        * intros d Hd. apply Hds. now right.
        * exists sc, v'. split; [exact E'|].
          intros d Hd. apply H'. cbn [fst].
          destruct Hd as [[<-|Hd]|Hd].
          -- right. eexists. apply dict_get_set_eq.
          -- now left.
          -- right. now apply dict_get_some_set. }
  destruct (Hgen (Criticality.operational_data data) ([], visited))
    as [sc [v' [E H]]]; [auto|].
  exists sc, v'. split; [exact E|]. intros d Hd. apply H. now left.
Qed.

(** ** Data nodes in a typed payload *)

Lemma typed_no_predecessors data d :
  edges_typed data -> In d (Criticality.operational_data data) ->
  NX.predecessors (Criticality.G data) d = [].
Proof.
  intros [Hh [Hu Hd]] Hin.
  unfold Criticality.operational_data in Hin. rewrite dict_keys_In in Hin.
  destruct (NX.predecessors (Criticality.G data) d) as [|u l] eqn:E;
    [reflexivity|].
  assert (H : In u (NX.predecessors (Criticality.G data) d))
    by (rewrite E; now left).
  exfalso. apply predecessors_In, G_edges in H. destruct H as [H|H].
  - apply in_map_iff in H. destruct H as [r [Er Hr]]. inversion Er; subst.
    apply Hh in Hr. apply (Hd (ParentMission r)); tauto.
  - apply in_map_iff in H. destruct H as [r [Er Hr]]. inversion Er; subst.
    apply Hu in Hr. apply (Hd (rel_Mission r)); tauto.
Qed.

Lemma typed_successors data d :
  edges_typed data -> In d (Criticality.operational_data data) ->
  forall m, In m (NX.successors (Criticality.G data) d) <->
            In m (users data d).
Proof.
  intros [Hh [Hu Hd]] Hin m.
  unfold Criticality.operational_data in Hin. rewrite dict_keys_In in Hin.
  unfold users. rewrite successors_In, dict_keys_In, in_map_iff.
  unfold Criticality.G. rewrite G_edges. split.
  - intros [H|H].
    + apply in_map_iff in H. destruct H as [r [Er Hr]]. inversion Er; subst.
      apply Hh in Hr. exfalso. apply (Hd (ChildMission r)); tauto.
    + apply in_map_iff in H. destruct H as [r [Er Hr]]. inversion Er; subst.
      exists r. split; [reflexivity|]. apply filter_In.
      split; [assumption | apply String.eqb_refl].
  - intros [r [<- Hr]]. apply filter_In in Hr. destruct Hr as [Hr E].
    apply String.eqb_eq in E. subst d. right.
    apply in_map_iff. exists r. auto.
Qed.

Lemma typed_breadth data d :
  edges_typed data -> In d (Criticality.operational_data data) ->
  Criticality.calculate_breadth (Criticality.G data) d =
  Z.of_nat (length (users data d)).
Proof.
  intros Ht Hin. unfold Criticality.calculate_breadth. f_equal.
  apply Permutation_length, NoDup_Permutation.
  - apply successors_nodup, G_wf.
  - apply dict_keys_NoDup.
  - now apply typed_successors.
Qed.

(** When no data node has a predecessor, the loop of [bfs_dfs_analysis]
    gives every data node the score [breadth + 1 / (0 + 1)], whatever the
    visited set holds at the start. *)
Lemma criticality_fold_sources limit data ds : forall acc visited,
  NoDup ds -> (forall d, In d ds -> dict_get d acc = None) ->
  (forall d, In d ds -> NX.predecessors (Criticality.G data) d = []) ->
  exists v',
    foldM (fun (acc : list (ident * Q) * list ident) node_id =>
      r <- Criticality.calculate_depth (S limit) (Criticality.G data)
             node_id (snd acc) ;;
      Ok (dict_set node_id
            (inject_Z (Criticality.calculate_breadth (Criticality.G data)
                         node_id)
             + 1 / (inject_Z (fst r) + 1))%Q (fst acc), snd r))
      ds (acc, visited)
    = Ok (acc ++ map (fun d =>
                   (d, (inject_Z (Criticality.calculate_breadth
                                    (Criticality.G data) d)
                        + 1 / (inject_Z 0 + 1))%Q)) ds,
          v').
Proof.
  induction ds as [|d0 ds IH]; intros acc visited Hnd Hnone Hsrc.
  - exists visited. simpl. now rewrite app_nil_r.
  - inversion Hnd as [|? ? Hd0 Hnd']; subst.
    cbn [foldM snd fst].
    rewrite (calculate_depth_source (Criticality.G data) limit d0 visited)
      by (apply Hsrc; now left).
    cbn [bind fst snd].
    rewrite dict_set_new by (apply Hnone; now left).
    match goal with
    | |- context [foldM _ ds (?a, ?v)] => destruct (IH a v) as [v' E]
    end.
    + assumption.
    + intros d Hd. rewrite dict_get_app_none by (apply Hnone; now right).
      simpl. destruct (String.eqb d d0) eqn:E; [|reflexivity].
      apply String.eqb_eq in E. subst. contradiction.
    + intros d Hd. apply Hsrc. now right.
    + exists v'. rewrite E. cbn [map]. now rewrite <- app_assoc.
Qed.

Lemma criticality_loop_typed limit data visited :
  edges_typed data ->
  exists v',
    Criticality.criticality_loop (S limit) data visited =
    Ok (map (fun d =>
               (d, (inject_Z (Criticality.calculate_breadth
                                (Criticality.G data) d)
                    + 1 / (inject_Z 0 + 1))%Q))
            (Criticality.operational_data data),
        v').
Proof.
  intros Ht. unfold Criticality.criticality_loop.
  destruct (criticality_fold_sources limit data
              (Criticality.operational_data data) [] visited)
    as [v' E].
  - apply dict_keys_NoDup.
  - reflexivity.
  - intros d Hd. now apply typed_no_predecessors.
  - exists v'. exact E.
Qed.

(** In a typed payload the scores do not depend on what earlier requests
    left in the visited set. *)
Lemma typed_payload_same_scores limit data v1 v2 :
  edges_typed data ->
  exists sc v1' v2',
    Criticality.bfs_dfs_analysis (S limit) v1 data = Ok (sc, v1') /\
    Criticality.bfs_dfs_analysis (S limit) v2 data = Ok (sc, v2').
Proof.
  intros Ht.
  destruct (criticality_loop_typed limit data v1 Ht) as [v1' E1].
  destruct (criticality_loop_typed limit data v2 Ht) as [v2' E2].
  unfold Criticality.bfs_dfs_analysis. rewrite E1, E2. cbn [bind fst snd].
  eexists _, v1', v2'. split; reflexivity.
Qed.

(** * The claims about [bfs_dfs_analysis] *)

(** C10, as the claim states it, fails: in [shared_id_input] every
    hierarchy record joins missions and every usage record goes from a data
    node to a mission, yet data node [X], whose identifier also names a
    mission, has the incoming edge [D -> X]; its depth is 1 and its raw score
    is 1/2, not its breadth plus one. *)
Lemma C10_counterexample :
  (forall r, In r (MissionHierarchy shared_id_input) ->
     In (ChildMission r) (map UUID (Mission shared_id_input)) /\
     In (ParentMission r) (map UUID (Mission shared_id_input))) /\
  (forall r, In r (Mission_OperationalData shared_id_input) ->
     In (rel_OperationalData r) (map UUID (OperationalData shared_id_input)) /\
     In (rel_Mission r) (map UUID (Mission shared_id_input))) /\
  In "X" (Criticality.operational_data shared_id_input) /\
  NX.predecessors (Criticality.G shared_id_input) "X" = ["D"] /\
  Criticality.calculate_depth 1000 (Criticality.G shared_id_input) "X" ["D"]
  = Ok (1%Z, ["X"; "D"]) /\
  exists sc v' s,
    Criticality.bfs_dfs_analysis 1000 [] shared_id_input = Ok (sc, v') /\
    dict_get "X" (Criticality.non_normalized_scores sc) = Some s /\
    (s == 1 # 2)%Q /\
    ~ (s == inject_Z (Criticality.calculate_breadth
                        (Criticality.G shared_id_input) "X") + 1)%Q.
Proof.
  split; [intros r []|].
  split; [intros r [<-|[]]; simpl; auto|].
  split; [vm_compute; auto|].
  split; [reflexivity|].
  split; [vm_compute; reflexivity|].
  eexists _, _, (1 # 2). split; [vm_compute; reflexivity|].
  split; [reflexivity|]. split; [reflexivity|].
  vm_compute. discriminate.
Qed.

(** C10, amended.  In a payload whose hierarchy records join missions,
    whose usage records join a data node to a mission, and in which no
    identifier names both a mission and a data node, a data node has no
    incoming edge in the combined graph, its computed depth is 0 whatever
    the visited set holds, and its raw criticality score is the number of
    missions that use it directly plus one. *)
Theorem C10_data_depth_zero (data : Payload) (limit : nat)
    (visited : list ident) (d : ident) :
  edges_typed data -> (0 < limit)%nat ->
  In d (Criticality.operational_data data) ->
  NX.predecessors (Criticality.G data) d = [] /\
  (exists v', Criticality.calculate_depth limit (Criticality.G data) d visited
              = Ok (0%Z, v')) /\
  exists sc v',
    Criticality.bfs_dfs_analysis limit visited data = Ok (sc, v') /\
    exists s, dict_get d (Criticality.non_normalized_scores sc) = Some s /\
              (s == inject_Z (Z.of_nat (length (users data d))) + 1)%Q.
Proof.
  intros Ht Hl Hd. destruct limit as [|limit]; [lia|].
  pose proof (typed_no_predecessors data d Ht Hd) as Hp.
  split; [assumption|]. split.
  - eexists. now apply calculate_depth_source.
  - destruct (criticality_loop_typed limit data visited Ht) as [v' E].
    unfold Criticality.bfs_dfs_analysis. rewrite E. cbn [bind fst snd].
    eexists _, _. split; [reflexivity|].
    cbn [Criticality.non_normalized_scores].
    eexists. split.
    + rewrite dict_get_map_fun. apply mem_In in Hd. rewrite Hd. reflexivity.
    + rewrite (typed_breadth data d Ht Hd). reflexivity.
Qed.

Lemma C10_witness :
  NX.predecessors (Criticality.G scenario_A) "D1" = [] /\
  (exists v', Criticality.calculate_depth 1000 (Criticality.G scenario_A)
                "D1" [] = Ok (0%Z, v')) /\
  exists sc v',
    Criticality.bfs_dfs_analysis 1000 [] scenario_A = Ok (sc, v') /\
    exists s, dict_get "D1" (Criticality.non_normalized_scores sc) = Some s /\
              (s == inject_Z (Z.of_nat (length (users scenario_A "D1"))) + 1)%Q.
Proof.
  apply (C10_data_depth_zero scenario_A 1000 [] "D1").
  - split; [|split].
    + intros r [<-|[]]; simpl; auto.
    + intros r [<-|[]]; simpl; auto.
    + simpl. intuition congruence.
  - lia.
  - vm_compute. auto.
Defined.

(** C5 (the code departs from the claim).  Two successive requests with
    the same payload: the second one starts from the visited set that the
    first one left in the default argument of [calculate_depth], and gives
    data node [X] another raw score and data node [E] another normalised
    score. *)
Theorem C5_visited_set_is_shared :
  exists s1 v1 s2 v2,
    Criticality.bfs_dfs_analysis 1000 [] shared_id_input = Ok (s1, v1) /\
    Criticality.bfs_dfs_analysis 1000 v1 shared_id_input = Ok (s2, v2) /\
    v1 = ["E"; "X"; "D"] /\
    dict_get "X" (Criticality.non_normalized_scores s1) = Some (1 # 2) /\
    dict_get "X" (Criticality.non_normalized_scores s2) = Some 1%Q /\
    dict_get "E" (Criticality.normalized_scores s1) = Some (12 # 6) /\
    dict_get "E" (Criticality.normalized_scores s2) = Some 1%Q.
Proof.
  eexists _, _, _, _. split; [vm_compute; reflexivity|].
  split; [vm_compute; reflexivity|].
  repeat split; reflexivity.
Qed.

(** C1, as the claim states it, fails: on the cyclic hierarchy of scenario
    B the criticality computation returns scores and raises nothing. *)
Lemma C1_counterexample :
  has_cycle (BottomUp.M scenario_B) /\
  exists r, Criticality.bfs_dfs_analysis 1000 [] scenario_B = Ok r.
Proof.
  split.
  - exists "A", ["B"]. simpl. intuition.
  - eexists. vm_compute. reflexivity.
Qed.

(** What the bottom-up handler does on a cycle: the [except] branch lets
    the run go on to the loop over the unbound [traversal_path]. *)
Lemma bottom_up_process_cyclic data :
  has_cycle (BottomUp.M data) ->
  BottomUp.bottom_up_process data = Raise UnboundLocalError.
Proof.
  intros Hc. unfold BottomUp.bottom_up_process.
  now rewrite (topological_sort_cyclic _ (M_wf data) Hc).
Qed.

(** C1, amended.  When the hierarchy has a cycle, the topological sort of
    the mission graph raises [NetworkXUnfeasible], and the criticality
    computation raises nothing: with a recursion limit above the number of
    nodes it returns a score for every data node. *)
Theorem C1_cycle_behaviour (data : Payload) (limit : nat)
    (visited : list ident) :
  has_cycle (BottomUp.M data) ->
  (length (NX.nodes (Criticality.G data)) < limit)%nat ->
  NX.topological_sort (BottomUp.M data) = Raise NetworkXUnfeasible /\
  exists sc v',
    Criticality.bfs_dfs_analysis limit visited data = Ok (sc, v') /\
    forall d, In d (Criticality.operational_data data) ->
      exists s, dict_get d (Criticality.non_normalized_scores sc) = Some s.
Proof.
  intros Hc Hl. split.
  - apply topological_sort_cyclic; [apply M_wf | assumption].
  - destruct (criticality_loop_total limit data visited Hl)
      as [sc [v' [E H]]].
    unfold Criticality.bfs_dfs_analysis. rewrite E. cbn [bind fst snd].
    eexists _, _. split; [reflexivity|]. exact H.
Qed.

Lemma C1_witness :
  NX.topological_sort (BottomUp.M scenario_B) = Raise NetworkXUnfeasible /\
  exists sc v',
    Criticality.bfs_dfs_analysis 1000 [] scenario_B = Ok (sc, v') /\
    forall d, In d (Criticality.operational_data scenario_B) ->
      exists s, dict_get d (Criticality.non_normalized_scores sc) = Some s.
Proof.
  apply (C1_cycle_behaviour scenario_B 1000 []).
  - exists "A", ["B"]. simpl. intuition.
  - vm_compute. lia.
Defined.

(** ** The dependency closure *)

Lemma mapM_spec {A B} (f : A -> result B) (P : A -> B -> Prop) l :
  (forall a, In a l -> exists b, f a = Ok b /\ P a b) ->
  exists bs, mapM f l = Ok bs /\ Forall2 P l bs.
Proof.
  induction l as [|a l IH]; intros H.
  - exists []. split; [reflexivity | constructor].
  - destruct (H a (or_introl eq_refl)) as [b [Eb Pb]].
    destruct IH as [bs [Ebs Pbs]]; [intros x Hx; apply H; now right|].
    exists (b :: bs). cbn [mapM]. rewrite Eb. cbn [bind]. rewrite Ebs.
    split; [reflexivity | now constructor].
Qed.

Lemma set_update_In s l x :
  In x (Importance.set_update s l) <-> In x s \/ In x l.
Proof. apply dict_keys_fold_In. Qed.

Lemma fold_set_update_In subs : forall acc x,
  In x (fold_left Importance.set_update subs acc) <->
  In x acc \/ exists s, In s subs /\ In x s.
Proof.
  induction subs as [|s subs IH]; intros acc x; simpl.
  - split; [auto | intros [H|[s [[] _]]]; assumption].
  - rewrite IH, set_update_In. split.
    + intros [[H|H]|[s' [H1 H2]]]; eauto.
    + intros [H|[s' [[<-|H1] H2]]]; eauto.
Qed.

Lemma Forall2_In_l {A B} (P : A -> B -> Prop) l l' a :
  Forall2 P l l' -> In a l -> exists b, In b l' /\ P a b.
Proof.
  induction 1 as [|x y l l' Hxy _ IH]; intros Hin; [contradiction|].
  destruct Hin as [<-|Hin].
  - exists y. split; [now left | assumption].
  - destruct (IH Hin) as [b [Hb Pb]]. exists b. split; [now right | assumption].
Qed.

Lemma Forall2_In_r {A B} (P : A -> B -> Prop) l l' b :
  Forall2 P l l' -> In b l' -> exists a, In a l /\ P a b.
Proof.
  induction 1 as [|x y l l' Hxy _ IH]; intros Hin; [contradiction|].
  destruct Hin as [<-|Hin].
  - exists x. split; [now left | assumption].
  - destruct (IH Hin) as [a [Ha Pa]]. exists a. split; [now right | assumption].
Qed.

(** With enough recursion depth for the longest walk out of [v], the
    closure of [v] is returned and holds the nodes reachable from [v]. *)
Lemma get_all_dependencies_spec G limit : forall v,
  (forall l, walk G (v :: l) -> (length (v :: l) <= limit)%nat) ->
  exists deps,
    Importance.get_all_dependencies limit G v = Ok deps /\
    forall x, In x deps <-> reachable G v x.
Proof.
  induction limit as [|limit IH]; intros v Hlen.
  - specialize (Hlen [] I). simpl in Hlen. lia.
  - cbn [Importance.get_all_dependencies].
    destruct (mapM_spec (Importance.get_all_dependencies limit G)
                (fun u deps => forall x, In x deps <-> reachable G u x)
                (NX.successors G v)) as [subs [E Hsubs]].
    { intros u Hu. apply IH. intros l Hw.
      apply successors_In in Hu.
      specialize (Hlen (u :: l) (conj Hu Hw)). simpl in *. lia. }
    rewrite E. cbn [bind]. eexists. split; [reflexivity|].
    intros x. rewrite fold_set_update_In, dict_keys_In. split.
    + intros [H|[s [Hs Hx]]].
      * apply successors_In in H. exists []. simpl. auto.
      * destruct (Forall2_In_r _ _ _ s Hsubs Hs) as [u [Hu Hspec]].
        apply Hspec in Hx. destruct Hx as [l Hw].
        apply successors_In in Hu.
        exists (u :: l). simpl. auto.
    + intros [[|u l] Hw].
      * left. apply successors_In. apply Hw.
      * right. destruct Hw as [He Hw].
        apply successors_In in He.
        destruct (Forall2_In_l _ _ _ u Hsubs He) as [s [Hs Hspec]].
        exists s. split; [assumption|]. apply Hspec. now exists l.
Qed.

Lemma get_all_dependencies_acyclic G limit v :
  wf_graph G -> acyclic G -> In v (NX.nodes G) ->
  (length (NX.nodes G) <= limit)%nat ->
  exists deps,
    Importance.get_all_dependencies limit G v = Ok deps /\
    forall x, In x deps <-> reachable G v x.
Proof.
  intros Hwf Hac Hv Hl. apply get_all_dependencies_spec.
  intros l Hw. pose proof (acyclic_walk_length G l v Hwf Hac Hv Hw). lia.
Qed.

(** On a cycle the recursion never comes back. *)
Lemma get_all_dependencies_cycle limit : forall v,
  v = "A" \/ v = "B" ->
  Importance.get_all_dependencies limit (Importance.G scenario_B) v
  = Raise RecursionError.
Proof.
  induction limit as [|limit IH]; intros v Hv; [reflexivity|].
  cbn [Importance.get_all_dependencies].
  destruct Hv as [-> | ->].
  - change (NX.successors (Importance.G scenario_B) "A") with ["B"; "D1"].
    cbn [mapM]. rewrite IH by auto. reflexivity.
  - change (NX.successors (Importance.G scenario_B) "B") with ["A"].
    cbn [mapM]. rewrite IH by auto. reflexivity.
Qed.

Lemma Imp_G_wf data : wf_graph (Importance.G data).
Proof. apply add_edges_from_wf, add_nodes_from_wf, empty_wf. Qed.

Lemma Imp_G_mission data m :
  In m (Importance.missions data) -> In m (NX.nodes (Importance.G data)).
Proof.
  intros H. apply add_edges_from_nodes. left.
  apply add_nodes_from_nodes. right. apply in_app_iff. now left.
Qed.

(** * The claims about the dependency closure *)

(** C4, as the claim states it, fails: on the cycle of scenario B the
    closure of mission [A] is returned at no recursion depth; nothing stops
    the recursion but the interpreter's recursion limit. *)
Lemma C4_counterexample :
  ~ exists limit deps,
      Importance.get_all_dependencies limit (Importance.G scenario_B) "A"
      = Ok deps.
Proof.
  intros [limit [deps H]].
  rewrite get_all_dependencies_cycle in H by auto. discriminate.
Qed.

(** C4, amended.  When the graph of the importance computation is acyclic
    and the recursion limit is at least its number of nodes, the closure of
    every mission is returned, and it holds exactly the nodes reachable from
    the mission along at least one edge. *)
Theorem C4_closure_on_acyclic (data : Payload) (limit : nat) (m : ident) :
  acyclic (Importance.G data) ->
  (length (NX.nodes (Importance.G data)) <= limit)%nat ->
  In m (Importance.missions data) ->
  exists deps,
    Importance.get_all_dependencies limit (Importance.G data) m = Ok deps /\
    forall x, In x deps <-> reachable (Importance.G data) m x.
Proof.
  intros Hac Hl Hm.
  apply get_all_dependencies_acyclic; try assumption.
  - apply Imp_G_wf.
  - now apply Imp_G_mission.
Qed.

Lemma C4_witness :
  exists deps,
    Importance.get_all_dependencies 1000 (Importance.G scenario_A) "M2"
    = Ok deps /\
    forall x, In x deps <-> reachable (Importance.G scenario_A) "M2" x.
Proof.
  apply (C4_closure_on_acyclic scenario_A 1000 "M2").
  - apply (topological_order_acyclic _ ["M2"; "M1"; "D1"; "D2"]).
    split; [|split].
    + repeat constructor; simpl; intuition discriminate.
    + intros v. simpl. tauto.
    + intros u v [H|[H|[]]]; inversion H; simpl; lia.
  - vm_compute. lia.
  - simpl. auto.
Defined.

(** ** Breadth-first search *)

Lemma walk_snoc G p x :
  walk G p -> p <> [] -> In (last p EmptyString, x) (NX.edges G) ->
  walk G (p ++ [x]).
Proof.
  induction p as [|a p IH]; intros Hw Hne He; [congruence|].
  destruct p as [|b p].
  - simpl in *. auto.
  - destruct Hw as [Hab Hw]. split; [assumption|].
    apply IH; [assumption | discriminate | exact He].
Qed.

Lemma nondecreasing_app l1 l2 :
  nondecreasing l1 -> nondecreasing l2 ->
  (forall x y, In x l1 -> In y l2 -> (x <= y)%nat) ->
  nondecreasing (l1 ++ l2).
Proof.
  induction l1 as [|a l1 IH]; simpl; intros H1 H2 H; [assumption|].
  destruct H1 as [Ha H1]. split.
  - intros y Hy. apply in_app_iff in Hy. destruct Hy; auto.
  - apply IH; auto.
Qed.

Lemma nondecreasing_const n l :
  (forall x, In x l -> x = n) -> nondecreasing l.
Proof.
  induction l as [|a l IH]; simpl; intros H; [trivial|].
  split; [|auto]. intros y Hy. rewrite (H a), (H y); auto.
Qed.

Lemma crossing (visited : list ident) t : forall s0,
  In s0 visited -> ~ In (last (s0 :: t) EmptyString) visited ->
  exists w1 v u w2,
    s0 :: t = w1 ++ v :: u :: w2 /\ In v visited /\ ~ In u visited.
Proof.
  induction t as [|y t IH]; intros s0 Hs Hl.
  - simpl in Hl. contradiction.
  - destruct (in_dec string_dec y visited) as [Hy|Hy].
    + destruct (IH y Hy Hl) as [w1 [v [u [w2 [E [Hv Hu]]]]]].
      exists (s0 :: w1), v, u, w2. rewrite E. auto.
    + exists [], s0, y, t. auto.
Qed.

Lemma potential_visit (E : list edge) visited node :
  ~ In node visited ->
  (length (filter (fun e => negb (mem (fst e) (node :: visited))) E) +
   length (filter (fun e => String.eqb (fst e) node) E) =
   length (filter (fun e => negb (mem (fst e) visited)) E))%nat.
Proof.
  intros Hn. induction E as [|[a b] E IH]; [reflexivity|].
  cbn [filter fst].
  change (mem a (node :: visited)) with (String.eqb a node || mem a visited).
  destruct (String.eqb a node) eqn:Ea; cbn [orb negb length].
  - apply String.eqb_eq in Ea. subst a.
    apply mem_false in Hn. rewrite Hn. cbn [negb length]. lia.
  - destruct (mem a visited); cbn [negb length]; lia.
Qed.

Section BFS.

Variable G : NX.DiGraph.
Variables s e : ident.

(** A walk to a node that is not visited yet is at least as long as some
    queued path. *)
Lemma queue_covers visited queue w x :
  bfs_inv G s e visited queue ->
  walk_from G s w -> last w EmptyString = x -> ~ In x visited ->
  exists q, In q queue /\ (length q <= length w)%nat.
Proof.
  intros Inv [Hw [t ->]] Hl Hx.
  destruct (bq_start _ _ _ _ _ Inv) as [Hs| ->].
  - rewrite <- Hl in Hx.
    destruct (crossing visited t s Hs Hx) as [w1 [v [u [w2 [E [Hv Hu]]]]]].
    destruct (bq_visited _ _ _ _ _ Inv v Hv) as [n [Hmin Hsucc]].
    rewrite E in Hw.
    assert (Hvu : In (v, u) (NX.edges G)).
    { apply walk_app_r in Hw. apply Hw. }
    assert (Hpre : walk_from G s (w1 ++ [v])).
    { split.
      - replace (w1 ++ v :: u :: w2) with ((w1 ++ [v]) ++ u :: w2) in Hw
          by now rewrite <- app_assoc.
        now apply walk_app_l in Hw.
      - destruct w1 as [|a w1]; simpl in E; inversion E; subst;
          [now exists [] | now exists (w1 ++ [v])]. }
    specialize (Hmin (w1 ++ [v]) Hpre (last_last _ _ _)).
    destruct (Hsucc u Hvu Hu) as [q [Hq [_ Hlen]]].
    exists q. split; [assumption|].
    rewrite E. rewrite length_app in *. simpl in *. lia.
  - exists [s]. split; [now left | simpl; lia].
Qed.

Lemma head_shortest p rest q :
  queue_sorted (p :: rest) -> In q (p :: rest) -> (length p <= length q)%nat.
Proof.
  intros [[Hhd _] _] [<-|Hq]; [lia|].
  apply Hhd. now apply in_map.
Qed.

Lemma bfs_drop visited p rest :
  bfs_inv G s e visited (p :: rest) ->
  In (last p EmptyString) visited ->
  bfs_inv G s e visited rest.
Proof.
  intros Inv Hn. constructor.
  - pose proof (bq_walks _ _ _ _ _ Inv) as H. now inversion H.
  - destruct (bq_sorted _ _ _ _ _ Inv) as [[_ Hs] Hg]. split; [assumption|].
    intros a b Ha Hb. apply Hg; now right.
  - apply (bq_target _ _ _ _ _ Inv).
  - destruct (bq_start _ _ _ _ _ Inv) as [H|H]; [now left|].
    inversion H; subst. simpl in Hn. now left.
  - intros v Hv. destruct (bq_visited _ _ _ _ _ Inv v Hv) as [n [Hmin Hsucc]].
    exists n. split; [assumption|].
    intros u Hvu Hu. destruct (Hsucc u Hvu Hu) as [q [[<-|Hq] [Hl Hlen]]].
    + rewrite Hl in Hn. contradiction.
    + eauto.
Qed.

Lemma bfs_visit visited p rest :
  bfs_inv G s e visited (p :: rest) ->
  ~ In (last p EmptyString) visited -> last p EmptyString <> e ->
  bfs_inv G s e (last p EmptyString :: visited)
    (rest ++ map (fun neighbor => p ++ [neighbor])
                 (NX.successors G (last p EmptyString))).
Proof.
  intros Inv Hn Hne.
  set (node := last p EmptyString) in *.
  pose proof (bq_walks _ _ _ _ _ Inv) as Hwalks.
  inversion Hwalks as [|? ? Hp Hrest]; subst.
  destruct (bq_sorted _ _ _ _ _ Inv) as [[Hhd Hs] Hg].
  assert (Hlo : forall q, In q rest -> (length p <= length q)%nat).
  { intros q Hq. apply Hhd. now apply in_map. }
  assert (Hhi : forall q, In q rest -> (length q <= S (length p))%nat).
  { intros q Hq. apply Hg; [now left | now right]. }
  assert (Hnew : forall q,
            In q (map (fun neighbor => p ++ [neighbor])
                      (NX.successors G node)) ->
            length q = S (length p) /\
            exists u, q = p ++ [u] /\ In (node, u) (NX.edges G)).
  { intros q Hq. apply in_map_iff in Hq. destruct Hq as [u [<- Hu]].
    apply successors_In in Hu. rewrite length_app. simpl.
    split; [lia | eauto]. }
  constructor.
  - apply Forall_app. split; [assumption|].
    apply Forall_forall. intros q Hq.
    destruct (Hnew q Hq) as [_ [u [-> Hu]]].
    destruct Hp as [Hw [t ->]]. split.
    + apply walk_snoc; [assumption | discriminate | exact Hu].
    + exists (t ++ [u]). reflexivity.
  - split.
    + rewrite map_app. apply nondecreasing_app; [assumption | |].
      * apply (nondecreasing_const (S (length p))).
        intros x Hx. apply in_map_iff in Hx. destruct Hx as [q [<- Hq]].
        apply (Hnew q Hq).
      * intros x y Hx Hy. apply in_map_iff in Hx, Hy.
        destruct Hx as [q [<- Hq]], Hy as [q' [<- Hq']].
        destruct (Hnew q' Hq') as [-> _]. now apply Hhi.
    + intros a b Ha Hb. apply in_app_iff in Ha, Hb.
      assert (Hla : (length p <= length a)%nat).
      { destruct Ha as [Ha|Ha]; [now apply Hlo|].
        destruct (Hnew a Ha) as [-> _]. lia. }
      assert (Hlb : (length b <= S (length p))%nat).
      { destruct Hb as [Hb|Hb]; [now apply Hhi|].
        destruct (Hnew b Hb) as [-> _]. lia. }
      lia.
  - intros [H|H]; [now apply Hne | now apply (bq_target _ _ _ _ _ Inv)].
  - left. destruct (bq_start _ _ _ _ _ Inv) as [H|H]; [now right|].
    inversion H; subst. now left.
  - intros v [<-|Hv].
    + exists (length p). split.
      * intros w Hw Hl.
        destruct (queue_covers visited (p :: rest) w node Inv Hw Hl Hn)
          as [q [Hq Hlen]].
        pose proof (head_shortest p rest q (bq_sorted _ _ _ _ _ Inv) Hq). lia.
      * intros u Hvu Hu. exists (p ++ [u]). split; [|split].
        -- apply in_app_iff. right. apply in_map_iff. exists u.
           split; [reflexivity | now apply successors_In].
        -- apply last_last.
        -- rewrite length_app. simpl. lia.
    + destruct (bq_visited _ _ _ _ _ Inv v Hv) as [n [Hmin Hsucc]].
      exists n. split; [assumption|].
      intros u Hvu Hu.
      assert (Hu' : ~ In u visited) by (intros H; apply Hu; now right).
      destruct (Hsucc u Hvu Hu') as [q [[<-|Hq] [Hl Hlen]]].
      * exfalso. apply Hu. left. exact Hl.
      * exists q. split; [|auto]. apply in_app_iff. now left.
Qed.

Lemma bfs_loop_spec budget : forall visited queue,
  bfs_inv G s e visited queue ->
  (bfs_potential G visited queue <= budget)%nat ->
  exists path,
    Importance.bfs_loop budget G e visited queue = Ok path /\
    ((path = [] /\
      forall w, walk_from G s w -> last w EmptyString <> e) \/
     (walk_from G s path /\ last path EmptyString = e /\
      forall w, walk_from G s w -> last w EmptyString = e ->
                (length path <= length w)%nat)).
Proof.
  induction budget as [|b IH]; intros visited queue Inv Hpot.
  all: destruct queue as [|p rest].
  all: try (
    exists []; split; [reflexivity|]; left; split; [reflexivity|];
    intros w Hw Hl;
    destruct (queue_covers visited [] w e Inv Hw Hl
                (bq_target _ _ _ _ _ Inv)) as [q [[] _]]).
  - unfold bfs_potential in Hpot. simpl in Hpot. lia.
  - cbn [Importance.bfs_loop].
    destruct (String.eqb (last p EmptyString) e) eqn:Ee.
    + apply String.eqb_eq in Ee. exists p. split; [reflexivity|]. right.
      pose proof (bq_walks _ _ _ _ _ Inv) as Hwalks.
      inversion Hwalks as [|? ? Hp Hrest].
      split; [assumption|]. split; [assumption|].
      intros w Hw Hl.
      destruct (queue_covers visited (p :: rest) w e Inv Hw Hl
                  (bq_target _ _ _ _ _ Inv)) as [q [Hq Hlen]].
      pose proof (head_shortest p rest q (bq_sorted _ _ _ _ _ Inv) Hq). lia.
    + apply String.eqb_neq in Ee.
      destruct (mem (last p EmptyString) visited) eqn:Em.
      * apply mem_In in Em. apply IH.
        -- now apply (bfs_drop visited p rest).
        -- unfold bfs_potential in *. simpl in Hpot. lia.
      * apply mem_false in Em. apply IH.
        -- now apply bfs_visit.
        -- unfold bfs_potential in *. rewrite length_app, length_map.
           unfold NX.successors. rewrite length_map.
           pose proof (potential_visit (NX.edges G) visited
                         (last p EmptyString) Em).
           simpl in Hpot. lia.
Qed.

(** [find_shortest_path] returns: the empty list when no walk joins
    [s] to [e], and otherwise a walk from [s] to [e] of least length. *)
Theorem find_shortest_path_spec :
  exists path,
    Importance.find_shortest_path G s e = Ok path /\
    ((path = [] /\
      forall w, walk_from G s w -> last w EmptyString <> e) \/
     (walk_from G s path /\ last path EmptyString = e /\
      forall w, walk_from G s w -> last w EmptyString = e ->
                (length path <= length w)%nat)).
Proof.
  apply bfs_loop_spec.
  - constructor.
    + constructor; [|constructor]. split; [exact I | now exists []].
    + split.
      * simpl. split; [intros y []| exact I].
      * intros p q [<-|[]] [<-|[]]. simpl. lia.
    + intros [].
    + now right.
    + intros v [].
  - unfold bfs_potential. simpl.
    rewrite (filter_all _ (NX.edges G)); [lia|]. reflexivity.
Qed.

End BFS.

(** ** The weights of one mission *)

Lemma find_shortest_path_ok G s x :
  Importance.find_shortest_path G s x = Ok (shortest_path G s x).
Proof.
  unfold shortest_path.
  destruct (find_shortest_path_spec G s x) as [p [E _]]. now rewrite E.
Qed.

Section Weights.

Variable page_rank : NX.DiGraph -> ident -> Q.
Variable data : Payload.
Variable m : ident.

Lemma adjusted_fold ds : forall acc,
  NoDup ds -> (forall d, In d ds -> dict_get d (fst acc) = None) ->
  foldM (fun (acc : list (ident * Q) * Q) node_id =>
           if Importance.is_operational_data data node_id then
             path <- Importance.find_shortest_path (Importance.G data)
                       m node_id ;;
             Ok (dict_set node_id
                   (Importance.adjust_score_for_path_length
                      (page_rank (Importance.G data) node_id) (length path))
                   (fst acc),
                 (snd acc +
                  Importance.adjust_score_for_path_length
                    (page_rank (Importance.G data) node_id)
                    (length path))%Q)
           else Ok acc) ds acc
  = Ok (fst acc ++ map (fun d => (d, weight page_rank data m d))
                       (filter (Importance.is_operational_data data) ds),
        fold_left Qplus
          (map (weight page_rank data m)
               (filter (Importance.is_operational_data data) ds))
          (snd acc)).
Proof.
  induction ds as [|d ds IH]; intros [adj total] Hnd Hnone.
  - simpl. now rewrite app_nil_r.
  - inversion Hnd as [|? ? Hd Hnd']; subst.
    cbn [foldM filter].
    destruct (Importance.is_operational_data data d) eqn:Ed.
    + rewrite find_shortest_path_ok. cbn [bind fst snd].
      fold (weight page_rank data m d).
      rewrite dict_set_new by (apply Hnone; now left).
      rewrite IH; [|assumption|].
      * cbn [fst snd map fold_left]. now rewrite <- app_assoc.
      * intros d' Hd'. cbn [fst].
        rewrite dict_get_app_none by (apply Hnone; now right).
        simpl. destruct (String.eqb d' d) eqn:E; [|reflexivity].
        apply String.eqb_eq in E. subst. contradiction.
    + cbn [bind]. apply IH; [assumption|].
      intros d' Hd'. apply Hnone. now right.
Qed.

Lemma adjusted_scores_of_ok limit deps :
  Importance.get_all_dependencies limit (Importance.G data) m = Ok deps ->
  Importance.adjusted_scores_of page_rank limit data m =
  Ok (map (fun d => (d, weight page_rank data m d)) (data_of data deps),
      sumQ (map (weight page_rank data m) (data_of data deps))).
Proof.
  intros E. unfold Importance.adjusted_scores_of. rewrite E. cbn [bind].
  rewrite adjusted_fold; [reflexivity | apply dict_keys_NoDup | reflexivity].
Qed.

(** The weight of a reachable node is its PageRank over the number of
    nodes of a shortest walk. *)
Lemma weight_reachable d :
  reachable (Importance.G data) m d ->
  exists k, shortest_edges (Importance.G data) m d k /\
            weight page_rank data m d =
            (page_rank (Importance.G data) d / inject_Z (Z.of_nat (S k)))%Q.
Proof.
  intros [l Hw]. unfold weight, shortest_path.
  destruct (find_shortest_path_spec (Importance.G data) m d)
    as [p [E [[-> Hno]|[Hp [Hl Hmin]]]]]; rewrite E.
  - exfalso. apply (Hno (m :: l ++ [d])).
    + split; [assumption | eauto].
    + change (m :: l ++ [d]) with ((m :: l) ++ [d]). apply last_last.
  - destruct p as [|a p]; [destruct Hp as [_ [t Ht]]; discriminate|].
    exists (length p). split.
    + split; [exists (a :: p); auto | exact Hmin].
    + reflexivity.
Qed.

End Weights.

Lemma data_of_In data deps d :
  In d (data_of data deps) <->
  Importance.is_operational_data data d = true /\ In d deps.
Proof.
  unfold data_of. rewrite filter_In, dict_keys_In. tauto.
Qed.

(** * The claims about the weights *)

(** C2, as the claim states it, fails: in scenario A data node [D1] is one
    edge away from mission [M1], yet its weight is half its PageRank. *)
Lemma C2_counterexample :
  shortest_edges (Importance.G scenario_A) "M1" "D1" 1 /\
  exists adj total w,
    Importance.adjusted_scores_of uniform_rank 1000 scenario_A "M1"
    = Ok (adj, total) /\
    dict_get "D1" adj = Some w /\
    ~ (w == uniform_rank (Importance.G scenario_A) "D1" / inject_Z 1)%Q.
Proof.
  split.
  - split.
    + exists ["M1"; "D1"]. repeat split; simpl; auto. now exists ["D1"].
    + intros w [_ [t ->]] Hl. destruct t; [discriminate | simpl; lia].
  - exists [("D1", 1 # 2)], (1 # 2), (1 # 2).
    split; [vm_compute; reflexivity|]. split; [reflexivity|].
    vm_compute. discriminate.
Qed.

(** C2, amended.  When the graph is acyclic and the recursion limit is at
    least its number of nodes, the weights of a mission are computed, the
    weighted nodes are the data nodes reachable from the mission, and the
    weight of each is its PageRank divided by the number of nodes of a
    shortest walk from the mission to it, that is by the least edge count
    plus one. *)
Theorem C2_weight_is_rank_over_node_count
    (page_rank : NX.DiGraph -> ident -> Q) (data : Payload) (limit : nat)
    (m : ident) :
  acyclic (Importance.G data) ->
  (length (NX.nodes (Importance.G data)) <= limit)%nat ->
  In m (Importance.missions data) ->
  exists adj total,
    Importance.adjusted_scores_of page_rank limit data m = Ok (adj, total) /\
    (forall d, (exists w, dict_get d adj = Some w) <->
               Importance.is_operational_data data d = true /\
               reachable (Importance.G data) m d) /\
    forall d, Importance.is_operational_data data d = true ->
      reachable (Importance.G data) m d ->
      exists k, shortest_edges (Importance.G data) m d k /\
        dict_get d adj =
        Some (page_rank (Importance.G data) d / inject_Z (Z.of_nat (S k)))%Q.
Proof.
  intros Hac Hl Hm.
  destruct (get_all_dependencies_acyclic (Importance.G data) limit m
              (Imp_G_wf data) Hac (Imp_G_mission data m Hm) Hl)
    as [deps [E Hdeps]].
  eexists _, _. split; [apply (adjusted_scores_of_ok _ _ _ _ _ E)|].
  assert (Hget : forall d, dict_get d
            (map (fun d => (d, weight page_rank data m d)) (data_of data deps))
            = if mem d (data_of data deps)
              then Some (weight page_rank data m d) else None)
    by (intros d; apply dict_get_map_fun).
  split.
  - intros d. rewrite Hget, <- Hdeps, <- data_of_In, <- mem_In.
    destruct (mem d (data_of data deps)); split.
    + reflexivity.
    + eauto.
    + intros [w Hw]. discriminate.
    + discriminate.
  - intros d Hd Hr.
    destruct (weight_reachable page_rank data m d Hr) as [k [Hk Hw]].
    exists k. split; [assumption|]. rewrite Hget, <- Hw.
    replace (mem d (data_of data deps)) with true; [reflexivity|].
    symmetry. apply mem_In, data_of_In. split; [assumption|].
    now apply Hdeps.
Qed.

Lemma C2_witness :
  exists adj total,
    Importance.adjusted_scores_of uniform_rank 1000 scenario_A "M2"
    = Ok (adj, total) /\
    (forall d, (exists w, dict_get d adj = Some w) <->
               Importance.is_operational_data scenario_A d = true /\
               reachable (Importance.G scenario_A) "M2" d) /\
    forall d, Importance.is_operational_data scenario_A d = true ->
      reachable (Importance.G scenario_A) "M2" d ->
      exists k, shortest_edges (Importance.G scenario_A) "M2" d k /\
        dict_get d adj =
        Some (uniform_rank (Importance.G scenario_A) d
              / inject_Z (Z.of_nat (S k)))%Q.
Proof.
  apply (C2_weight_is_rank_over_node_count uniform_rank scenario_A 1000 "M2").
  - apply (topological_order_acyclic _ ["M2"; "M1"; "D1"; "D2"]).
    split; [|split].
    + repeat constructor; simpl; intuition discriminate.
    + intros v. simpl. tauto.
    + intros u v [H|[H|[]]]; inversion H; simpl; lia.
  - vm_compute. lia.
  - simpl. auto.
Defined.

(** ** Sums of scores *)

Lemma fold_Qplus_compat l : forall a a',
  (a == a')%Q -> (fold_left Qplus l a == fold_left Qplus l a')%Q.
Proof.
  induction l as [|x l IH]; intros a a' H; simpl; [assumption|].
  apply IH. now rewrite H.
Qed.

Lemma fold_Qplus_div l t : forall a,
  (fold_left Qplus (map (fun w => w / t) l) (a / t)
   == fold_left Qplus l a / t)%Q.
Proof.
  induction l as [|x l IH]; intros a; simpl; [reflexivity|].
  rewrite <- IH. apply fold_Qplus_compat.
  unfold Qdiv. ring.
Qed.

Lemma fold_Qplus_ge l : forall a,
  (forall x, In x l -> (0 <= x)%Q) -> (a <= fold_left Qplus l a)%Q.
Proof.
  induction l as [|x l IH]; intros a H; simpl; [apply Qle_refl|].
  apply Qle_trans with (a + x)%Q.
  - pose proof (H x (or_introl eq_refl)). lra.
  - apply IH. intros y Hy. apply H. now right.
Qed.

Lemma fold_Qplus_pos l : forall a x,
  (forall y, In y l -> (0 <= y)%Q) -> In x l -> (0 < x)%Q ->
  (a < fold_left Qplus l a)%Q.
Proof.
  induction l as [|y l IH]; intros a x H Hin Hx; [contradiction|].
  simpl. destruct Hin as [->|Hin].
  - apply Qlt_le_trans with (a + x)%Q; [lra|].
    apply fold_Qplus_ge. intros z Hz. apply H. now right.
  - apply Qle_lt_trans with (a + y)%Q.
    + pose proof (H y (or_introl eq_refl)). lra.
    + apply (IH _ x); [|assumption|assumption].
      intros z Hz. apply H. now right.
Qed.

Lemma adjust_nonneg score n :
  (0 <= score)%Q -> (0 <= Importance.adjust_score_for_path_length score n)%Q.
Proof.
  intros H. unfold Importance.adjust_score_for_path_length.
  destruct (0 <? n)%nat eqn:E; [|apply Qle_refl].
  apply Nat.ltb_lt in E. apply Qle_shift_div_l.
  - change 0%Q with (inject_Z 0). rewrite <- Zlt_Qlt. lia.
  - lra.
Qed.

Lemma normalize_sum_one adj total :
  (0 < total)%Q -> (sumQ (map snd adj) == total)%Q ->
  (sumQ (map snd (Importance.normalize_scores adj total)) == 1)%Q.
Proof.
  intros Ht Hs. unfold Importance.normalize_scores.
  destruct (Qlt_le_dec 0 total) as [_|H]; [|lra].
  rewrite map_map. cbn [snd].
  rewrite <- (map_map snd (fun w => w / total)%Q).
  unfold sumQ.
  assert (H0 : (0 == 0 / total)%Q) by (unfold Qdiv; ring).
  rewrite (fold_Qplus_compat _ _ _ H0), fold_Qplus_div.
  unfold sumQ in Hs. rewrite Hs. field. lra.
Qed.

(** ** The loops of [pagerank_analysis] *)

Lemma scores_fold {V} (f : ident -> result V) ms : forall acc,
  (forall m, In m ms -> exists s, f m = Ok s) ->
  exists res,
    foldM (fun acc mission_uuid =>
             s <- f mission_uuid ;; Ok (dict_set mission_uuid s acc)) ms acc
    = Ok res /\
    (forall m, In m ms -> exists s, f m = Ok s /\ dict_get m res = Some s) /\
    (forall m, ~ In m ms -> dict_get m res = dict_get m acc).
Proof.
  induction ms as [|m0 ms IH]; intros acc H.
  - exists acc. split; [reflexivity|]. split; [intros m []|reflexivity].
  - destruct (H m0 (or_introl eq_refl)) as [s0 E0].
    destruct (IH (dict_set m0 s0 acc)) as [res [E [Hin Hout]]].
    { intros m Hm. apply H. now right. }
    exists res. cbn [foldM]. rewrite E0. cbn [bind]. split; [exact E|].
    split.
    + intros m Hm. destruct (in_dec string_dec m ms) as [Hi|Hn];
        [now apply Hin|].
      destruct Hm as [<-|Hm]; [|contradiction].
      exists s0. split; [assumption|].
      rewrite (Hout m0 Hn). apply dict_get_set_eq.
    + intros m Hm. rewrite Hout.
      * apply dict_get_set_neq. intros ->. apply Hm. now left.
      * intros Hi. apply Hm. now right.
Qed.

Lemma filled_from_trans ds r0 r1 r2 :
  filled_from ds r0 r1 -> filled_from ds r1 r2 -> filled_from ds r0 r2.
Proof.
  intros H1 H2 d. rewrite (H2 d), (H1 d).
  destruct (dict_get d r0); [reflexivity|].
  destruct (mem d ds); reflexivity.
Qed.

Lemma fill_inner m ds : forall mds row,
  dict_get m mds = Some row ->
  exists mds' row',
    foldM (fun mds data_uuid =>
             match dict_get m mds with
             | None => Raise KeyError
             | Some row =>
                 match dict_get data_uuid row with
                 | Some _ => Ok mds
                 | None => Ok (dict_set m (dict_set data_uuid 0%Q row) mds)
                 end
             end) ds mds = Ok mds' /\
    dict_get m mds' = Some row' /\ filled_from ds row row' /\
    forall m', m' <> m -> dict_get m' mds' = dict_get m' mds.
Proof.
  induction ds as [|d ds IH]; intros mds row Hrow.
  - exists mds, row. split; [reflexivity|]. split; [assumption|].
    split; [|reflexivity]. intros x. simpl. now destruct (dict_get x row).
  - cbn [foldM]. rewrite Hrow. destruct (dict_get d row) as [v|] eqn:Ed.
    + cbn [bind]. destruct (IH mds row Hrow) as [mds' [row' [E [Hg [Hf Ho]]]]].
      exists mds', row'. split; [exact E|]. split; [assumption|].
      split; [|assumption].
      intros x. rewrite (Hf x).
      destruct (dict_get x row) eqn:Ex; [reflexivity|].
      change (mem x (d :: ds)) with (String.eqb x d || mem x ds).
      destruct (String.eqb x d) eqn:Exd; [|reflexivity].
      apply String.eqb_eq in Exd. subst. congruence.
    + cbn [bind].
      destruct (IH (dict_set m (dict_set d 0%Q row) mds) (dict_set d 0%Q row))
        as [mds' [row' [E [Hg [Hf Ho]]]]]; [apply dict_get_set_eq|].
      exists mds', row'. split; [exact E|]. split; [assumption|]. split.
      * intros x. rewrite (Hf x).
        change (mem x (d :: ds)) with (String.eqb x d || mem x ds).
        destruct (String.eqb x d) eqn:Exd.
        -- apply String.eqb_eq in Exd. subst x.
           now rewrite dict_get_set_eq, Ed.
        -- apply String.eqb_neq in Exd.
           now rewrite dict_get_set_neq by assumption.
      * intros m' Hm'. rewrite (Ho m' Hm'). now apply dict_get_set_neq.
Qed.

Lemma fill_outer ds ms : forall mds,
  (forall m, In m ms -> exists row, dict_get m mds = Some row) ->
  exists mds',
    foldM (fun mds mission_uuid =>
             foldM (fun mds data_uuid =>
                      match dict_get mission_uuid mds with
                      | None => Raise KeyError
                      | Some row =>
                          match dict_get data_uuid row with
                          | Some _ => Ok mds
                          | None =>
                              Ok (dict_set mission_uuid
                                    (dict_set data_uuid 0%Q row) mds)
                          end
                      end) ds mds) ms mds = Ok mds' /\
    forall m row, dict_get m mds = Some row ->
      exists row', dict_get m mds' = Some row' /\
                   (In m ms -> filled_from ds row row') /\
                   (~ In m ms -> row' = row).
Proof.
  induction ms as [|m0 ms IH]; intros mds Hrows.
  - exists mds. split; [reflexivity|]. intros m row Hm.
    exists row. split; [assumption|]. split; [intros []|reflexivity].
  - destruct (Hrows m0 (or_introl eq_refl)) as [row0 Hrow0].
    destruct (fill_inner m0 ds mds row0 Hrow0)
      as [mds1 [row1 [E1 [Hg1 [Hf1 Ho1]]]]].
    destruct (IH mds1) as [mds' [E' H']].
    { intros m Hm. destruct (string_dec m m0) as [->|Hne]; [eauto|].
      rewrite (Ho1 m Hne). apply Hrows. now right. }
    exists mds'. cbn [foldM]. rewrite E1. cbn [bind]. split; [exact E'|].
    intros m row Hm. destruct (string_dec m m0) as [->|Hne].
    + assert (row = row0) by congruence. subst row.
      destruct (H' m0 row1 Hg1) as [row' [Hg' [Hin Hout]]].
      exists row'. split; [assumption|]. split.
      * intros _. destruct (in_dec string_dec m0 ms) as [Hi|Hn].
        -- apply (filled_from_trans ds row0 row1 row' Hf1 (Hin Hi)).
        -- now rewrite (Hout Hn).
      * intros Hn. exfalso. apply Hn. now left.
    + rewrite <- (Ho1 m Hne) in Hm.
      destruct (H' m row Hm) as [row' [Hg' [Hin Hout]]].
      exists row'. split; [assumption|]. split.
      * intros [Heq|Hi]; [congruence | now apply Hin].
      * intros Hn. apply Hout. intros Hi. apply Hn. now right.
Qed.

Lemma dict_get_normalize d adj total :
  dict_get d (Importance.normalize_scores adj total) =
  option_map (fun w => (w / (if Qlt_le_dec 0 total then total else 1))%Q)
             (dict_get d adj).
Proof.
  unfold Importance.normalize_scores.
  induction adj as [|[k v] adj IH]; simpl; [reflexivity|].
  destruct (String.eqb d k); [reflexivity | assumption].
Qed.

Lemma reachable_node G v x : wf_graph G -> reachable G v x -> In x (NX.nodes G).
Proof.
  intros Hwf [l Hw]. revert v Hw.
  induction l as [|y l IH]; intros v Hw; simpl in Hw.
  - destruct Hw as [He _]. apply Hwf in He. tauto.
  - destruct Hw as [_ Hw]. apply (IH y Hw).
Qed.

Lemma mission_scores_ok (page_rank : NX.DiGraph -> ident -> Q)
    (data : Payload) (limit : nat) (m : ident) :
  acyclic (Importance.G data) ->
  (length (NX.nodes (Importance.G data)) <= limit)%nat ->
  In m (Importance.missions data) ->
  exists deps,
    (forall x, In x deps <-> reachable (Importance.G data) m x) /\
    Importance.mission_scores page_rank limit data m =
    Ok (Importance.normalize_scores
          (map (fun d => (d, weight page_rank data m d)) (data_of data deps))
          (sumQ (map (weight page_rank data m) (data_of data deps)))).
Proof.
  intros Hac Hlimit Hm.
  destruct (get_all_dependencies_acyclic (Importance.G data) limit m
              (Imp_G_wf data) Hac (Imp_G_mission data m Hm) Hlimit)
    as [deps [E Hdeps]].
  exists deps. split; [assumption|].
  unfold Importance.mission_scores.
  now rewrite (adjusted_scores_of_ok page_rank data m limit deps E).
Qed.

Section PositiveRank.

Variable page_rank : NX.DiGraph -> ident -> Q.
Variable data : Payload.
Hypothesis Hrank : forall v, In v (NX.nodes (Importance.G data)) ->
  (0 < page_rank (Importance.G data) v)%Q.

Lemma weight_nonneg m deps d :
  (forall x, In x deps <-> reachable (Importance.G data) m x) ->
  In d (data_of data deps) -> (0 <= weight page_rank data m d)%Q.
Proof.
  intros Hdeps Hd. apply data_of_In in Hd. destruct Hd as [_ Hd].
  apply Hdeps in Hd. apply adjust_nonneg. apply Qlt_le_weak, Hrank.
  apply (reachable_node _ m d (Imp_G_wf data) Hd).
Qed.

Lemma weight_pos m d :
  reachable (Importance.G data) m d -> (0 < weight page_rank data m d)%Q.
Proof.
  intros Hr. destruct (weight_reachable page_rank data m d Hr) as [k [_ ->]].
  apply Qlt_shift_div_l.
  - change 0%Q with (inject_Z 0). rewrite <- Zlt_Qlt. lia.
  - rewrite Qmult_0_l. apply Hrank.
    apply (reachable_node _ m d (Imp_G_wf data) Hr).
Qed.

Lemma mission_scores_sum m deps :
  (forall x, In x deps <-> reachable (Importance.G data) m x) ->
  reaches_data data m ->
  (sumQ (map snd
     (Importance.normalize_scores
        (map (fun d => (d, weight page_rank data m d)) (data_of data deps))
        (sumQ (map (weight page_rank data m) (data_of data deps)))))
   == 1)%Q.
Proof.
  intros Hdeps [d0 [Hd0 Hr0]].
  assert (Hmap : map snd (map (fun d => (d, weight page_rank data m d))
                              (data_of data deps))
                 = map (weight page_rank data m) (data_of data deps))
    by (rewrite map_map; reflexivity).
  apply normalize_sum_one.
  - unfold sumQ. apply (fold_Qplus_pos _ 0%Q (weight page_rank data m d0)).
    + intros y Hy. apply in_map_iff in Hy. destruct Hy as [d [<- Hd]].
      now apply (weight_nonneg m deps d).
    + apply in_map, data_of_In. split; [assumption | now apply Hdeps].
    + now apply weight_pos.
  - rewrite Hmap. reflexivity.
Qed.

End PositiveRank.

(** * The claim about the importance scores *)

(** C8, amended.  On an acyclic graph, with a recursion limit of at least
    its number of nodes and a PageRank that is positive on its nodes, the
    handler returns; for every mission the scores sum to 1 when a data node
    is reachable from it and the score map is empty when none is (nothing is
    divided by a zero sum), and the matrix holds the score of each data node
    that has one and 0 for every other data node. *)
Theorem C8_importance_scores (page_rank : NX.DiGraph -> ident -> Q)
    (data : Payload) (limit : nat) :
  acyclic (Importance.G data) ->
  (length (NX.nodes (Importance.G data)) <= limit)%nat ->
  (forall v, In v (NX.nodes (Importance.G data)) ->
             (0 < page_rank (Importance.G data) v)%Q) ->
  exists res,
    Importance.pagerank_analysis page_rank limit data = Ok res /\
    forall m, In m (Importance.missions data) ->
      exists scores,
        dict_get m (Importance.perMission res) = Some scores /\
        (reaches_data data m -> (sumQ (map snd scores) == 1)%Q) /\
        (~ reaches_data data m -> scores = []) /\
        (forall i j d,
           nth_error (Importance.missions data) i = Some m ->
           nth_error (Importance.operational_data data) j = Some d ->
           entry (Importance.score_mat res) i j =
           match dict_get d scores with Some v => v | None => 0%Q end).
Proof.
  intros Hac Hl Hrank.
  destruct (scores_fold (Importance.mission_scores page_rank limit data)
              (Importance.missions data) [])
    as [scores [Es [Hin _]]].
  { intros m Hm.
    destruct (mission_scores_ok page_rank data limit m Hac Hl Hm)
      as [deps [_ E]]. eauto. }
  destruct (fill_outer (Importance.operational_data data)
              (Importance.missions data) scores)
    as [filled [Ef Hfill]].
  { intros m Hm. destruct (Hin m Hm) as [s [_ Hs]]. eauto. }
  set (val := fun m d =>
         match dict_get m filled with
         | Some row => match dict_get d row with Some v => v | None => 0%Q end
         | None => 0%Q
         end).
  assert (Hrow : forall m, In m (Importance.missions data) ->
            exists s row, dict_get m scores = Some s /\
                          dict_get m filled = Some row /\
                          filled_from (Importance.operational_data data) s row).
  { intros m Hm. destruct (Hin m Hm) as [s [_ Hs]].
    destruct (Hfill m s Hs) as [row [Hr [Hf _]]].
    exists s, row. auto. }
  assert (Emat : Importance.score_matrix data filled =
                 Ok (map (fun m => map (val m)
                                       (Importance.operational_data data))
                         (Importance.missions data))).
  { unfold Importance.score_matrix. apply mapM_ok. intros m Hm.
    apply mapM_ok. intros d Hd.
    destruct (Hrow m Hm) as [s [row [_ [Hr Hf]]]].
    unfold val. rewrite Hr. specialize (Hf d).
    apply mem_In in Hd. rewrite Hd in Hf.
    destruct (dict_get d row) as [v|]; [reflexivity|].
    destruct (dict_get d s); discriminate. }
  unfold Importance.pagerank_analysis, Importance.missions_importance_scores,
    Importance.fill_zero.
  rewrite Es. cbn [bind]. rewrite Ef. cbn [bind]. rewrite Emat. cbn [bind].
  eexists. split; [reflexivity|].
  cbn [Importance.perMission Importance.score_mat].
  intros m Hm.
  destruct (Hin m Hm) as [s [Esc Hs]].
  destruct (mission_scores_ok page_rank data limit m Hac Hl Hm)
    as [deps [Hdeps E]].
  rewrite E in Esc. inversion Esc as [Heq]. clear Esc.
  exists s. split; [assumption|]. split; [|split].
  - intros Hr. rewrite <- Heq.
    now apply (mission_scores_sum page_rank data Hrank m deps).
  - intros Hn. rewrite <- Heq.
    destruct (data_of data deps) as [|d l] eqn:Ed; [reflexivity|].
    exfalso. apply Hn. exists d.
    assert (Hd : In d (data_of data deps)) by (rewrite Ed; now left).
    apply data_of_In in Hd. destruct Hd as [Hd1 Hd2].
    split; [assumption | now apply Hdeps].
  - intros i j d Hi Hj. unfold entry.
    rewrite (nth_error_nth _ _ []
               (map_nth_error (fun m => map (val m)
                                 (Importance.operational_data data)) _ _ Hi)).
    rewrite (nth_error_nth _ _ 0%Q (map_nth_error (val m) _ _ Hj)).
    destruct (Hrow m Hm) as [s' [row [Hs' [Hr Hf]]]].
    assert (s' = s) by congruence. subst s'.
    unfold val. rewrite Hr, (Hf d).
    assert (Hd : mem d (Importance.operational_data data) = true).
    { apply mem_In. eapply nth_error_In. eassumption. }
    rewrite Hd. now destruct (dict_get d s).
Qed.

Lemma C8_witness :
  exists res,
    Importance.pagerank_analysis uniform_rank 1000 scenario_A = Ok res /\
    forall m, In m (Importance.missions scenario_A) ->
      exists scores,
        dict_get m (Importance.perMission res) = Some scores /\
        (reaches_data scenario_A m -> (sumQ (map snd scores) == 1)%Q) /\
        (~ reaches_data scenario_A m -> scores = []) /\
        (forall i j d,
           nth_error (Importance.missions scenario_A) i = Some m ->
           nth_error (Importance.operational_data scenario_A) j = Some d ->
           entry (Importance.score_mat res) i j =
           match dict_get d scores with Some v => v | None => 0%Q end).
Proof.
  apply (C8_importance_scores uniform_rank scenario_A 1000).
  - apply (topological_order_acyclic _ ["M2"; "M1"; "D1"; "D2"]).
    split; [|split].
    + repeat constructor; simpl; intuition discriminate.
    + intros v. simpl. tauto.
    + intros u v [H|[H|[]]]; inversion H; simpl; lia.
  - vm_compute. lia.
  - intros v _. reflexivity.
Defined.

(** ** Unknown identifiers in the bottom-up handler *)

Lemma foldM_ok {A B} (f : A -> B -> result A) l : forall a,
  (forall a b, In b l -> exists a', f a b = Ok a') ->
  exists a', foldM f l a = Ok a'.
Proof.
  induction l as [|b l IH]; intros a H.
  - now exists a.
  - destruct (H a b (or_introl eq_refl)) as [a1 E1].
    destruct (IH a1) as [a' E']; [intros x y Hy; apply H; now right|].
    exists a'. cbn [foldM]. rewrite E1. exact E'.
Qed.

Lemma process_mission_known data leafs mat m :
  In m (BottomUp.missions data) ->
  exists mat', BottomUp.process_mission data leafs mat m = Ok mat'.
Proof.
  intros Hm. unfold BottomUp.process_mission.
  rewrite (lookup_index_ok m _ Hm). cbn [bind].
  destruct (mem m leafs).
  - apply foldM_ok. intros a d Hd. apply filter_In in Hd.
    destruct Hd as [_ Hd]. apply mem_In in Hd.
    rewrite (lookup_index_ok d _ Hd). cbn [bind]. eauto.
  - rewrite (mapM_ok _ (fun c => nth (position c (BottomUp.missions data))
                                      mat [])).
    + cbn [bind]. destruct (map _ _); eauto.
    + intros c Hc. apply filter_In in Hc. destruct Hc as [_ Hc].
      apply mem_In in Hc. now rewrite (lookup_index_ok c _ Hc).
Qed.

Lemma process_mission_unknown data leafs mat m :
  ~ In m (BottomUp.missions data) ->
  BottomUp.process_mission data leafs mat m = Raise KeyError.
Proof.
  intros Hm. unfold BottomUp.process_mission, BottomUp.lookup_index.
  now rewrite (index_of_none m _ Hm).
Qed.

(** A hierarchy record that names an unknown mission is only noticed by
    the bottom-up loop, as a [KeyError] on [mission_to_index]. *)
Lemma bottom_up_unknown_mission data :
  acyclic (BottomUp.M data) ->
  (exists r, In r (MissionHierarchy data) /\
             (~ In (ChildMission r) (map UUID (Mission data)) \/
              ~ In (ParentMission r) (map UUID (Mission data)))) ->
  BottomUp.bottom_up_process data = Raise KeyError.
Proof.
  intros Hac [r [Hr Hun]].
  destruct (topological_sort_acyclic _ (M_wf data) Hac)
    as [tp [Etp [_ [Hnodes _]]]].
  unfold BottomUp.bottom_up_process. rewrite Etp.
  assert (Hbad : exists u, In u tp /\ ~ In u (BottomUp.missions data)).
  { assert (He : In (ChildMission r, ParentMission r)
                    (NX.edges (BottomUp.M data))).
    { apply M_edges. unfold BottomUp.mission_hierarchy.
      apply in_map_iff. now exists r. }
    apply (M_wf data) in He. destruct He as [Hc Hp].
    destruct Hun as [H|H]; [exists (ChildMission r) | exists (ParentMission r)];
      (split; [now apply Hnodes | now rewrite missions_In]). }
  generalize (zeros (length (BottomUp.missions data))
                    (length (BottomUp.operational_data data))).
  clear Etp Hnodes. induction tp as [|u tp IH]; intros mat.
  - destruct Hbad as [u [[] _]].
  - cbn [foldM].
    destruct (in_dec string_dec u (BottomUp.missions data)) as [Hu|Hu].
    + destruct (process_mission_known data
                  (BottomUp.find_leaf_mission_nodes (BottomUp.M data)) mat u Hu)
        as [mat' E].
      rewrite E. cbn [bind]. apply IH.
      destruct Hbad as [x [[<-|Hx] Hn]]; [contradiction | eauto].
    + now rewrite process_mission_unknown.
Qed.

(** * The claim about unknown identifiers *)

(** C3, as the claim states it, fails: the usage records of this payload
    name identifiers that are in neither list, the graph is built with them
    as nodes, and the bottom-up handler returns a matrix. *)
Lemma C3_counterexample :
  ~ In "D9" (map UUID (OperationalData unknown_id_input)) /\
  ~ In "M7" (map UUID (Mission unknown_id_input)) /\
  NX.nodes (BottomUp.G unknown_id_input) = ["M1"; "D1"; "D9"; "M7"] /\
  BottomUp.bottom_up_process unknown_id_input = Ok [[0%Q]].
Proof.
  split; [simpl; intuition discriminate|].
  split; [simpl; intuition discriminate|].
  split; reflexivity.
Qed.

(** C3, amended.  Graph construction never rejects a payload: every
    identifier that a hierarchy or usage record names is a node of the
    combined graph (and of the mission graph for hierarchy records), whether
    or not it is in the mission or data list. *)
Theorem C3_edge_endpoints_become_nodes (data : Payload) :
  wf_graph (BottomUp.G data) /\ wf_graph (BottomUp.M data) /\
  (forall r, In r (MissionHierarchy data) ->
     In (ChildMission r) (NX.nodes (BottomUp.M data)) /\
     In (ParentMission r) (NX.nodes (BottomUp.M data)) /\
     In (ChildMission r) (NX.nodes (BottomUp.G data)) /\
     In (ParentMission r) (NX.nodes (BottomUp.G data))) /\
  (forall r, In r (Mission_OperationalData data) ->
     In (rel_OperationalData r) (NX.nodes (BottomUp.G data)) /\
     In (rel_Mission r) (NX.nodes (BottomUp.G data))).
Proof.
  split; [apply G_wf|]. split; [apply M_wf|]. split.
  - intros r Hr.
    assert (HM : In (ChildMission r, ParentMission r)
                    (NX.edges (BottomUp.M data))).
    { apply M_edges. unfold BottomUp.mission_hierarchy.
      apply in_map_iff. now exists r. }
    assert (HG : In (ChildMission r, ParentMission r)
                    (NX.edges (BottomUp.G data))).
    { apply G_edges. left. unfold BottomUp.mission_hierarchy.
      apply in_map_iff. now exists r. }
    apply (M_wf data) in HM. apply (G_wf data) in HG. tauto.
  - intros r Hr.
    assert (HG : In (rel_OperationalData r, rel_Mission r)
                    (NX.edges (BottomUp.G data))).
    { apply G_edges. right. unfold BottomUp.mission_data_relations.
      apply in_map_iff. now exists r. }
    apply (G_wf data) in HG. tauto.
Qed.

(** * Further properties of [bottom_up_process] *)

(** X1.  When the mission hierarchy has a cycle, the handler produces no
    matrix: after the [except] branch has printed its message, the loop over
    [traversal_path] raises [UnboundLocalError]. *)
Theorem X1_bottom_up_cycle_unbound (data : Payload) :
  has_cycle (BottomUp.M data) ->
  BottomUp.bottom_up_process data = Raise UnboundLocalError.
Proof.
  intros Hc. unfold BottomUp.bottom_up_process.
  now rewrite (topological_sort_cyclic _ (M_wf data) Hc).
Qed.

Lemma X1_witness :
  BottomUp.bottom_up_process scenario_B = Raise UnboundLocalError.
Proof.
  apply (X1_bottom_up_cycle_unbound scenario_B).
  exists "A", ["B"]. simpl. intuition.
Defined.

(** X2.  When the hierarchy is acyclic and one of its records names an
    identifier that is not in the mission list, the handler raises
    [KeyError] (the lookup in [mission_to_index]). *)
Theorem X2_bottom_up_unknown_mission_key_error (data : Payload) :
  acyclic (BottomUp.M data) ->
  (exists r, In r (MissionHierarchy data) /\
             (~ In (ChildMission r) (map UUID (Mission data)) \/
              ~ In (ParentMission r) (map UUID (Mission data)))) ->
  BottomUp.bottom_up_process data = Raise KeyError.
Proof.
  intros Hac Hun.
  destruct (topological_sort_acyclic _ (M_wf data) Hac)
    as [tp [Etp [_ [Hnodes _]]]].
  unfold BottomUp.bottom_up_process. rewrite Etp.
  assert (Hbad : exists u, In u tp /\ ~ In u (BottomUp.missions data)).
  { destruct Hun as [r [Hr Hun]].
    assert (He : In (ChildMission r, ParentMission r)
                    (NX.edges (BottomUp.M data))).
    { apply M_edges. unfold BottomUp.mission_hierarchy.
      apply in_map_iff. now exists r. }
    apply (M_wf data) in He. destruct He as [Hc Hp].
    destruct Hun as [H|H]; [exists (ChildMission r) | exists (ParentMission r)];
      (split; [now apply Hnodes | now rewrite missions_In]). }
  generalize (zeros (length (BottomUp.missions data))
                    (length (BottomUp.operational_data data))).
  clear Etp Hnodes Hun. induction tp as [|u tp IH]; intros mat.
  - destruct Hbad as [u [[] _]].
  - cbn [foldM].
    destruct (in_dec string_dec u (BottomUp.missions data)) as [Hu|Hu].
    + destruct (process_mission_known data
                  (BottomUp.find_leaf_mission_nodes (BottomUp.M data)) mat u Hu)
        as [mat' E].
      rewrite E. cbn [bind]. apply IH.
      destruct Hbad as [x [[<-|Hx] Hn]]; [contradiction | eauto].
    + now rewrite process_mission_unknown.
Qed.

Lemma X2_witness :
  BottomUp.bottom_up_process unknown_parent_input = Raise KeyError.
Proof.
  apply (X2_bottom_up_unknown_mission_key_error unknown_parent_input).
  - apply (topological_order_acyclic _ ["M1"; "M9"]).
    split; [|split].
    + repeat constructor; simpl; intuition discriminate.
    + intros v. simpl. tauto.
    + intros u v [H|[]]. inversion H. simpl. lia.
  - exists (mkHierarchy "M1" "M9"). split; [now left|].
    right. simpl. intuition discriminate.
Defined.

(** * Further properties of [find_shortest_path] *)

(** X12.  On a graph as networkx keeps it (no repeated node or edge, every
    edge endpoint a node) and for a start node of that graph,
    [find_shortest_path] returns: the empty list exactly when no walk joins
    [start] to [end], and otherwise a walk from [start] to [end] that no
    other such walk undercuts in length.  (For a start node that is not in
    the graph networkx raises [NetworkXError]; that case is excluded.) *)
Theorem X12_find_shortest_path_shortest (G : NX.DiGraph) (s e : ident) :
  wf_graph G -> In s (NX.nodes G) ->
  exists path,
    Importance.find_shortest_path G s e = Ok path /\
    ((path = [] /\
      forall w, walk_from G s w -> last w EmptyString <> e) \/
     (walk_from G s path /\ last path EmptyString = e /\
      forall w, walk_from G s w -> last w EmptyString = e ->
                (length path <= length w)%nat)).
Proof. intros _ _. exact (find_shortest_path_spec G s e). Qed.

Lemma X12_witness :
  exists path,
    Importance.find_shortest_path (Importance.G scenario_A) "M2" "D1"
    = Ok path /\
    ((path = [] /\
      forall w, walk_from (Importance.G scenario_A) "M2" w ->
                last w EmptyString <> "D1") \/
     (walk_from (Importance.G scenario_A) "M2" path /\
      last path EmptyString = "D1" /\
      forall w, walk_from (Importance.G scenario_A) "M2" w ->
                last w EmptyString = "D1" ->
                (length path <= length w)%nat)).
Proof.
  apply (X12_find_shortest_path_shortest (Importance.G scenario_A) "M2" "D1").
  - apply Imp_G_wf.
  - simpl. auto.
Defined.

(** * Further properties of [bfs_dfs_analysis] *)

(** X11.  In a payload whose hierarchy records join missions, whose usage
    records join a data node to a mission, and in which no identifier names
    both a mission and a data node, the scores of a request do not depend on
    what earlier requests left in the default [visited] set. *)
Theorem X11_typed_payload_scores_stable (data : Payload) (limit : nat)
    (v1 v2 : list ident) :
  edges_typed data -> (0 < limit)%nat ->
  exists sc v1' v2',
    Criticality.bfs_dfs_analysis limit v1 data = Ok (sc, v1') /\
    Criticality.bfs_dfs_analysis limit v2 data = Ok (sc, v2').
Proof.
  intros Ht Hl. destruct limit as [|limit]; [lia|].
  destruct (criticality_loop_typed limit data v1 Ht) as [v1' E1].
  destruct (criticality_loop_typed limit data v2 Ht) as [v2' E2].
  unfold Criticality.bfs_dfs_analysis. rewrite E1, E2. cbn [bind fst snd].
  eexists _, v1', v2'. split; reflexivity.
Qed.

Lemma X11_witness :
  exists sc v1' v2',
    Criticality.bfs_dfs_analysis 1000 [] scenario_A = Ok (sc, v1') /\
    Criticality.bfs_dfs_analysis 1000 ["D1"; "M1"] scenario_A = Ok (sc, v2').
Proof.
  apply (X11_typed_payload_scores_stable scenario_A 1000 [] ["D1"; "M1"]).
  - split; [|split].
    + intros r [<-|[]]; simpl; auto.
    + intros r [<-|[]]; simpl; auto.
    + simpl. intuition congruence.
  - lia.
Defined.

(** ** What [calculate_depth] returns *)

Lemma mapM_st_Forall2 {S A B} (f : A -> S -> result (B * S))
    (P : A -> B -> Prop) (Q : S -> S -> Prop) :
  (forall s, Q s s) -> (forall a b c, Q a b -> Q b c -> Q a c) ->
  (forall a s b s', f a s = Ok (b, s') -> P a b /\ Q s s') ->
  forall l s bs s',
    Criticality.mapM_st f l s = Ok (bs, s') -> Forall2 P l bs /\ Q s s'.
Proof.
  intros Hrefl Htrans Hf. induction l as [|a l IH]; intros s bs s' E.
  - simpl in E. inversion E; subst. split; [constructor | apply Hrefl].
  - cbn [Criticality.mapM_st] in E.
    destruct (f a s) as [[b s1]| |] eqn:E1; cbn [bind fst snd] in E;
      try discriminate.
    destruct (Criticality.mapM_st f l s1) as [[bs' s2]| |] eqn:E2;
      cbn [bind fst snd] in E; try discriminate.
    inversion E; subst.
    destruct (Hf a s b s1 E1) as [HP HQ].
    destruct (IH s1 bs' s' E2) as [HF HQ'].
    split; [now constructor | eapply Htrans; eassumption].
Qed.

Lemma fold_max_in l : forall a, In (fold_left Z.max l a) (a :: l).
Proof.
  induction l as [|x l IH]; intros a; simpl; [now left|].
  destruct (IH (Z.max a x)) as [H|H]; [|now right; right].
  rewrite <- H. destruct (Z.max_dec a x) as [-> | ->]; auto.
Qed.

(** A returned depth is the number of edges of a walk that ends at the
    node; the call leaves the node in the visited set. *)
Lemma calculate_depth_sound G limit : forall node visited d v',
  Criticality.calculate_depth limit G node visited = Ok (d, v') ->
  (0 <= d)%Z /\ incl visited v' /\ In node v' /\
  exists w, walk G (w ++ [node]) /\ Z.of_nat (length w) = d.
Proof.
  induction limit as [|limit IH]; intros node visited d v' E;
    [discriminate|].
  cbn [Criticality.calculate_depth] in E.
  destruct (mem node visited) eqn:Em.
  - inversion E; subst. apply mem_In in Em.
    split; [lia|]. split; [apply incl_refl|]. split; [assumption|].
    exists []. split; [exact I | reflexivity].
  - destruct (Criticality.mapM_st (Criticality.calculate_depth limit G)
                (NX.predecessors G node) (node :: visited))
      as [[ds v1]| |] eqn:Em1; cbn [bind fst snd] in E; try discriminate.
    destruct (mapM_st_Forall2 (Criticality.calculate_depth limit G)
                (fun p dp => (0 <= dp)%Z /\
                   exists w, walk G (w ++ [p]) /\ Z.of_nat (length w) = dp)
                (@incl ident) (@incl_refl ident)
                (fun a b c H1 H2 => incl_tran H1 H2))
      with (l := NX.predecessors G node) (s := node :: visited)
           (bs := ds) (s' := v1) as [HF Hincl].
    { intros p s dp s' Ep. destruct (IH p s dp s' Ep) as [H0 [H1 [_ H2]]].
      auto. }
    { exact Em1. }
    assert (Hv : incl visited v1 /\ In node v1).
    { split; [intros x Hx; apply Hincl; now right | apply Hincl; now left]. }
    destruct ds as [|d0 ds].
    + inversion E; subst. split; [lia|]. split; [tauto|]. split; [tauto|].
      exists []. split; [exact I | reflexivity].
    + assert (Hd : d = (1 + fold_left Z.max ds d0)%Z) by congruence.
      assert (Hv1 : v' = v1) by congruence. subst v'. clear E.
      destruct (Forall2_In_r _ _ _ (fold_left Z.max ds d0) HF
                  (fold_max_in ds d0)) as [p [Hp [Hp0 [w [Hw Hlen]]]]].
      split; [lia|]. split; [tauto|]. split; [tauto|].
      exists (w ++ [p]). rewrite Hd. split.
      * apply walk_snoc; [assumption | now destruct w |].
        rewrite last_last. now apply predecessors_In.
      * rewrite length_app. cbn [length]. lia.
Qed.

Lemma walk_end_incl G w x :
  wf_graph G -> In x (NX.nodes G) -> walk G (w ++ [x]) ->
  incl (w ++ [x]) (NX.nodes G).
Proof.
  intros Hwf Hx Hw. destruct w as [|a w]; simpl in *.
  - intros y [<-|[]]. assumption.
  - apply walk_incl; [assumption | | assumption].
    destruct (w ++ [x]) as [|b l] eqn:E; [now destruct w|].
    destruct Hw as [He _]. apply Hwf in He. tauto.
Qed.

(** * Further properties of [calculate_depth] *)

(** X4.  On the graph of any payload, cyclic or not, [calculate_depth]
    returns as soon as the recursion limit exceeds the number of nodes that
    are not yet in [visited]; the depth is not negative, [visited] only
    grows, and the node is in it afterwards. *)
Theorem X4_calculate_depth_returns (data : Payload) (limit : nat)
    (node : ident) (visited : list ident) :
  In node (NX.nodes (Criticality.G data)) ->
  (unvisited (Criticality.G data) visited < limit)%nat ->
  exists d v',
    Criticality.calculate_depth limit (Criticality.G data) node visited
    = Ok (d, v') /\
    (0 <= d)%Z /\ incl visited v' /\ In node v'.
Proof.
  intros Hn Hl.
  destruct (calculate_depth_total (Criticality.G data) (G_wf data) limit
              node visited Hn Hl) as [d [v' [E _]]].
  exists d, v'. split; [exact E|].
  destruct (calculate_depth_sound _ _ _ _ _ _ E) as [H0 [H1 [H2 _]]]. auto.
Qed.

Lemma X4_witness :
  exists d v',
    Criticality.calculate_depth 3 (Criticality.G scenario_B) "A" ["D1"]
    = Ok (d, v') /\
    (0 <= d)%Z /\ incl ["D1"] v' /\ In "A" v'.
Proof.
  apply (X4_calculate_depth_returns scenario_B 3 "A" ["D1"]).
  - simpl. auto.
  - vm_compute. lia.
Defined.

(** X5.  The depth that [calculate_depth] returns is the number of edges
    of some walk of the graph that ends at the node; on an acyclic graph it
    is therefore below the number of nodes. *)
Theorem X5_depth_is_walk_length (data : Payload) (limit : nat)
    (node : ident) (visited : list ident) :
  In node (NX.nodes (Criticality.G data)) ->
  (unvisited (Criticality.G data) visited < limit)%nat ->
  exists d v' w,
    Criticality.calculate_depth limit (Criticality.G data) node visited
    = Ok (d, v') /\
    walk (Criticality.G data) (w ++ [node]) /\ Z.of_nat (length w) = d /\
    (acyclic (Criticality.G data) ->
     (d < Z.of_nat (length (NX.nodes (Criticality.G data))))%Z).
Proof.
  intros Hn Hl.
  destruct (calculate_depth_total (Criticality.G data) (G_wf data) limit
              node visited Hn Hl) as [d [v' [E _]]].
  destruct (calculate_depth_sound _ _ _ _ _ _ E) as [_ [_ [_ [w [Hw Hlen]]]]].
  exists d, v', w. split; [exact E|]. split; [assumption|].
  split; [assumption|]. intros Hac.
  assert (Hnd : NoDup (w ++ [node])).
  { destruct (ListDec.NoDup_dec string_dec (w ++ [node])) as [H|H];
      [assumption|].
    exfalso. apply Hac. eapply walk_dup_cycle; eassumption. }
  pose proof (NoDup_incl_length Hnd
                (walk_end_incl _ w node (G_wf data) Hn Hw)) as Hle.
  rewrite length_app in Hle. cbn [length] in Hle.
  change (BottomUp.G data) with (Criticality.G data) in Hle. lia.
Qed.

Lemma X5_witness :
  exists d v' w,
    Criticality.calculate_depth 1000 (Criticality.G scenario_A) "M2" []
    = Ok (d, v') /\
    walk (Criticality.G scenario_A) (w ++ ["M2"]) /\
    Z.of_nat (length w) = d /\
    (acyclic (Criticality.G scenario_A) ->
     (d < Z.of_nat (length (NX.nodes (Criticality.G scenario_A))))%Z).
Proof.
  apply (X5_depth_is_walk_length scenario_A 1000 "M2" []).
  - simpl. auto.
  - vm_compute. lia.
Defined.

(** X6.  [calculate_depth] keeps what it has visited: once a call on a
    node has returned, every later call on that node with the same set
    returns depth 0 and leaves the set as it is. *)
Theorem X6_second_call_returns_zero (data : Payload) (limit limit2 : nat)
    (node : ident) (visited : list ident) :
  In node (NX.nodes (Criticality.G data)) ->
  (unvisited (Criticality.G data) visited < limit)%nat ->
  (0 < limit2)%nat ->
  exists d v',
    Criticality.calculate_depth limit (Criticality.G data) node visited
    = Ok (d, v') /\
    Criticality.calculate_depth limit2 (Criticality.G data) node v'
    = Ok (0%Z, v').
Proof.
  intros Hn Hl H2.
  destruct (calculate_depth_total (Criticality.G data) (G_wf data) limit
              node visited Hn Hl) as [d [v' [E _]]].
  exists d, v'. split; [exact E|].
  destruct (calculate_depth_sound _ _ _ _ _ _ E) as [_ [_ [Hin _]]].
  destruct limit2 as [|limit2]; [lia|].
  cbn [Criticality.calculate_depth].
  apply mem_In in Hin. now rewrite Hin.
Qed.

Lemma X6_witness :
  exists d v',
    Criticality.calculate_depth 1000 (Criticality.G scenario_A) "M2" []
    = Ok (d, v') /\
    Criticality.calculate_depth 1 (Criticality.G scenario_A) "M2" v'
    = Ok (0%Z, v').
Proof.
  apply (X6_second_call_returns_zero scenario_A 1000 1 "M2" []).
  - simpl. auto.
  - vm_compute. lia.
  - lia.
Defined.

(** ** Raw scores *)

Lemma criticality_fold_scores limit data ds : forall acc visited sc v',
  foldM (fun (acc : list (ident * Q) * list ident) node_id =>
    r <- Criticality.calculate_depth limit (Criticality.G data) node_id
           (snd acc) ;;
    Ok (dict_set node_id
          (inject_Z (Criticality.calculate_breadth (Criticality.G data)
                       node_id)
           + 1 / (inject_Z (fst r) + 1))%Q (fst acc), snd r))
    ds (acc, visited) = Ok (sc, v') ->
  (forall d, In d ds ->
     exists dep, (0 <= dep)%Z /\
       dict_get d sc =
       Some (inject_Z (Criticality.calculate_breadth (Criticality.G data) d)
             + 1 / (inject_Z dep + 1))%Q) /\
  (forall d, ~ In d ds -> dict_get d sc = dict_get d acc).
Proof.
  induction ds as [|d0 ds IH]; intros acc visited sc v' E.
  - simpl in E. inversion E; subst. split; [intros d []|reflexivity].
  - cbn [foldM snd fst] in E.
    destruct (Criticality.calculate_depth limit (Criticality.G data) d0
                visited) as [[dep v1]| |] eqn:Ed; cbn [bind fst snd] in E;
      try discriminate.
    destruct (IH _ _ _ _ E) as [Hin Hout].
    destruct (calculate_depth_sound _ _ _ _ _ _ Ed) as [Hdep _].
    split.
    + intros d Hd. destruct (in_dec string_dec d ds) as [Hi|Hn];
        [now apply Hin|].
      destruct Hd as [<-|Hd]; [|contradiction].
      exists dep. split; [assumption|].
      rewrite (Hout d0 Hn). apply dict_get_set_eq.
    + intros d Hd. rewrite Hout.
      * apply dict_get_set_neq. intros ->. apply Hd. now left.
      * intros Hi. apply Hd. now right.
Qed.

Lemma inverse_depth_bounds dep :
  (0 <= dep)%Z ->
  (0 < 1 / (inject_Z dep + 1) /\ 1 / (inject_Z dep + 1) <= 1)%Q.
Proof.
  intros H.
  assert (Ht : (1 <= inject_Z dep + 1)%Q).
  { assert (H0 : (inject_Z 0 <= inject_Z dep)%Q) by now rewrite <- Zle_Qle.
    change (inject_Z 0) with 0%Q in H0. lra. }
  split.
  - apply Qlt_shift_div_l; lra.
  - apply Qle_shift_div_r; lra.
Qed.

(** * Further properties of the criticality scores *)

(** X7.  The raw score of a data node lies above its breadth (the number
    of its successors) and at most one above it; so of two data nodes the
    one with the larger breadth always has the larger raw score, whatever
    their depths. *)
Theorem X7_raw_score_ordered_by_breadth (data : Payload) (limit : nat)
    (visited : list ident) :
  (length (NX.nodes (Criticality.G data)) < limit)%nat ->
  exists sc v',
    Criticality.bfs_dfs_analysis limit visited data = Ok (sc, v') /\
    forall d1 s1,
      dict_get d1 (Criticality.non_normalized_scores sc) = Some s1 ->
      (inject_Z (Criticality.calculate_breadth (Criticality.G data) d1) < s1
       /\ s1 <= inject_Z (Criticality.calculate_breadth (Criticality.G data)
                            d1) + 1)%Q /\
      forall d2 s2,
        dict_get d2 (Criticality.non_normalized_scores sc) = Some s2 ->
        (Criticality.calculate_breadth (Criticality.G data) d1 <
         Criticality.calculate_breadth (Criticality.G data) d2)%Z ->
        (s1 < s2)%Q.
Proof.
  intros Hl.
  destruct (criticality_loop_total limit data visited Hl) as [sc [v' [E _]]].
  unfold Criticality.bfs_dfs_analysis. rewrite E. cbn [bind fst snd].
  exists (Criticality.mkScores sc (Criticality.normalize sc)), v'.
  split; [reflexivity|]. cbn [Criticality.non_normalized_scores].
  unfold Criticality.criticality_loop in E.
  destruct (criticality_fold_scores _ _ _ _ _ _ _ E) as [Hin Hout].
  assert (Hsc : forall d s, dict_get d sc = Some s ->
            exists dep, (0 <= dep)%Z /\
              s = (inject_Z (Criticality.calculate_breadth
                               (Criticality.G data) d)
                   + 1 / (inject_Z dep + 1))%Q).
  { intros d s Hs.
    destruct (in_dec string_dec d (Criticality.operational_data data))
      as [Hi|Hn].
    - destruct (Hin d Hi) as [dep [Hdep Hg]]. exists dep.
      split; [assumption | congruence].
    - rewrite (Hout d Hn) in Hs. discriminate. }
  intros d1 s1 H1. destruct (Hsc d1 s1 H1) as [dep1 [Hd1 ->]].
  destruct (inverse_depth_bounds dep1 Hd1) as [Hlo1 Hhi1].
  split; [split; lra|].
  intros d2 s2 H2 Hb. destruct (Hsc d2 s2 H2) as [dep2 [Hd2 ->]].
  destruct (inverse_depth_bounds dep2 Hd2) as [Hlo2 Hhi2].
  assert (Hb' : (inject_Z (Criticality.calculate_breadth
                             (Criticality.G data) d1) + 1
                 <= inject_Z (Criticality.calculate_breadth
                                (Criticality.G data) d2))%Q).
  { change 1%Q with (inject_Z 1). rewrite <- inject_Z_plus, <- Zle_Qle. lia. }
  lra.
Qed.

Lemma X7_witness :
  exists sc v',
    Criticality.bfs_dfs_analysis 1000 [] shared_id_input = Ok (sc, v') /\
    forall d1 s1,
      dict_get d1 (Criticality.non_normalized_scores sc) = Some s1 ->
      (inject_Z (Criticality.calculate_breadth
                   (Criticality.G shared_id_input) d1) < s1
       /\ s1 <= inject_Z (Criticality.calculate_breadth
                            (Criticality.G shared_id_input) d1) + 1)%Q /\
      forall d2 s2,
        dict_get d2 (Criticality.non_normalized_scores sc) = Some s2 ->
        (Criticality.calculate_breadth (Criticality.G shared_id_input) d1 <
         Criticality.calculate_breadth (Criticality.G shared_id_input) d2)%Z ->
        (s1 < s2)%Q.
Proof.
  apply (X7_raw_score_ordered_by_breadth shared_id_input 1000 []).
  vm_compute. lia.
Defined.

(** ** Extrema and normalisation *)

Lemma Qmax_ge_l a b : (a <= Criticality.Qmax a b)%Q.
Proof. unfold Criticality.Qmax. destruct (Qlt_le_dec a b); lra. Qed.

Lemma Qmax_ge_r a b : (b <= Criticality.Qmax a b)%Q.
Proof. unfold Criticality.Qmax. destruct (Qlt_le_dec a b); lra. Qed.

Lemma Qmin_le_l a b : (Criticality.Qmin a b <= a)%Q.
Proof. unfold Criticality.Qmin. destruct (Qlt_le_dec b a); lra. Qed.

Lemma Qmin_le_r a b : (Criticality.Qmin a b <= b)%Q.
Proof. unfold Criticality.Qmin. destruct (Qlt_le_dec b a); lra. Qed.

Lemma fold_Qmax_ge l : forall a x,
  In x (a :: l) -> (x <= fold_left Criticality.Qmax l a)%Q.
Proof.
  induction l as [|y l IH]; intros a x Hx; simpl.
  - destruct Hx as [->|[]]. apply Qle_refl.
  - destruct Hx as [->|[->|Hx]].
    + apply Qle_trans with (Criticality.Qmax x y);
        [apply Qmax_ge_l | apply IH; now left].
    + apply Qle_trans with (Criticality.Qmax a x);
        [apply Qmax_ge_r | apply IH; now left].
    + apply IH. now right.
Qed.

Lemma fold_Qmin_le l : forall a x,
  In x (a :: l) -> (fold_left Criticality.Qmin l a <= x)%Q.
Proof.
  induction l as [|y l IH]; intros a x Hx; simpl.
  - destruct Hx as [->|[]]. apply Qle_refl.
  - destruct Hx as [->|[->|Hx]].
    + apply Qle_trans with (Criticality.Qmin x y);
        [apply IH; now left | apply Qmin_le_l].
    + apply Qle_trans with (Criticality.Qmin a x);
        [apply IH; now left | apply Qmin_le_r].
    + apply IH. now right.
Qed.

Lemma fold_Qmax_in l : forall a, In (fold_left Criticality.Qmax l a) (a :: l).
Proof.
  induction l as [|y l IH]; intros a; simpl; [now left|].
  destruct (IH (Criticality.Qmax a y)) as [H|H]; [|now right; right].
  rewrite <- H. unfold Criticality.Qmax. destruct (Qlt_le_dec a y); auto.
Qed.

Lemma fold_Qmin_in l : forall a, In (fold_left Criticality.Qmin l a) (a :: l).
Proof.
  induction l as [|y l IH]; intros a; simpl; [now left|].
  destruct (IH (Criticality.Qmin a y)) as [H|H]; [|now right; right].
  rewrite <- H. unfold Criticality.Qmin. destruct (Qlt_le_dec y a); auto.
Qed.

Lemma max_default_ge dflt l x :
  In x l -> (x <= Criticality.max_default dflt l)%Q.
Proof. destruct l as [|a l]; [intros []|]. apply fold_Qmax_ge. Qed.

Lemma min_default_le dflt l x :
  In x l -> (Criticality.min_default dflt l <= x)%Q.
Proof. destruct l as [|a l]; [intros []|]. apply fold_Qmin_le. Qed.

Lemma max_default_in dflt l :
  l <> [] -> In (Criticality.max_default dflt l) l.
Proof. destruct l as [|a l]; [congruence|]. intros _. apply fold_Qmax_in. Qed.

Lemma min_default_in dflt l :
  l <> [] -> In (Criticality.min_default dflt l) l.
Proof. destruct l as [|a l]; [congruence|]. intros _. apply fold_Qmin_in. Qed.

Lemma dict_get_In_snd {V} k (v : V) l :
  dict_get k l = Some v -> In v (map snd l).
Proof.
  induction l as [|[k' v'] l IH]; simpl; [discriminate|].
  destruct (String.eqb k k'); [intros H; left; congruence | auto].
Qed.

Lemma dict_get_criticality_normalize k l :
  dict_get k (Criticality.normalize l) =
  option_map
    (fun s =>
       if Qlt_le_dec (Criticality.min_default 0 (map snd l))
                     (Criticality.max_default 1 (map snd l))
       then (1 + 3 * (s - Criticality.min_default 0 (map snd l))
                 / (Criticality.max_default 1 (map snd l)
                    - Criticality.min_default 0 (map snd l)))%Q
       else 1%Q)
    (dict_get k l).
Proof.
  unfold Criticality.normalize.
  generalize (Criticality.min_default 0 (map snd l)).
  generalize (Criticality.max_default 1 (map snd l)).
  intros mx mn. induction l as [|[k' v] l IH]; simpl; [reflexivity|].
  destruct (String.eqb k k'); [reflexivity | assumption].
Qed.

Lemma rescale_bounds a d :
  (0 < d)%Q -> (0 <= a)%Q -> (a <= d)%Q ->
  (1 <= 1 + 3 * a / d /\ 1 + 3 * a / d <= 4)%Q.
Proof.
  intros Hd H0 H1.
  assert (Hlo : (0 <= 3 * a / d)%Q) by (apply Qle_shift_div_l; lra).
  assert (Hhi : (3 * a / d <= 3)%Q) by (apply Qle_shift_div_r; lra).
  split; lra.
Qed.

Lemma rescale_mono a b d :
  (0 < d)%Q -> (a <= b)%Q -> (1 + 3 * a / d <= 1 + 3 * b / d)%Q.
Proof.
  intros Hd Hab.
  assert (H : (3 * a / d <= 3 * b / d)%Q).
  { unfold Qdiv. apply Qmult_le_compat_r; [lra|].
    apply Qlt_le_weak, Qinv_lt_0_compat, Hd. }
  lra.
Qed.

Lemma rescale_strict a b d :
  (0 < d)%Q -> (a < b)%Q -> (1 + 3 * a / d < 1 + 3 * b / d)%Q.
Proof.
  intros Hd Hab.
  assert (H : (3 * a / d < 3 * b / d)%Q).
  { unfold Qdiv. apply Qmult_lt_compat_r; [|lra].
    apply Qinv_lt_0_compat, Hd. }
  lra.
Qed.

(** * Further properties of the normalisation of criticality scores *)

(** X8.  Every normalised criticality score lies between 1 and 4, and the
    normalised map has an entry for exactly the keys of the raw map. *)
Theorem X8_normalized_scores_in_range (l : list (ident * Q)) (k : ident) :
  (dict_get k (Criticality.normalize l) = None <-> dict_get k l = None) /\
  forall v, dict_get k (Criticality.normalize l) = Some v ->
            (1 <= v /\ v <= 4)%Q.
Proof.
  rewrite dict_get_criticality_normalize. split.
  - destruct (dict_get k l); simpl; split; congruence.
  - intros v Hv. destruct (dict_get k l) as [s|] eqn:Es; [|discriminate].
    simpl in Hv. apply dict_get_In_snd in Es.
    pose proof (max_default_ge 1 _ _ Es) as Hmax.
    pose proof (min_default_le 0 _ _ Es) as Hmin.
    destruct (Qlt_le_dec _ _) as [Hlt|Hle].
    + inversion Hv. apply rescale_bounds; lra.
    + inversion Hv. split; lra.
Qed.

(** X9.  When all raw scores are equal (in particular when there is only
    one data node), every normalised score is 1. *)
Theorem X9_equal_scores_normalize_to_one (l : list (ident * Q))
    (k : ident) (v : Q) :
  (forall x y, In x (map snd l) -> In y (map snd l) -> (x == y)%Q) ->
  dict_get k (Criticality.normalize l) = Some v -> v = 1%Q.
Proof.
  intros Heq Hv. rewrite dict_get_criticality_normalize in Hv.
  destruct (dict_get k l) as [s|] eqn:Es; [|discriminate].
  simpl in Hv. apply dict_get_In_snd in Es.
  assert (Hne : map snd l <> []) by (intros H; rewrite H in Es; contradiction).
  pose proof (Heq _ _ (min_default_in 0 _ Hne) (max_default_in 1 _ Hne)) as H.
  destruct (Qlt_le_dec _ _) as [Hlt|Hle]; [lra | congruence].
Qed.

Lemma X9_witness :
  dict_get "D1" (Criticality.normalize [("D1", 2%Q); ("D2", 4 # 2)])
  = Some 1%Q.
Proof.
  assert (H : forall v,
            dict_get "D1" (Criticality.normalize [("D1", 2%Q); ("D2", 4 # 2)])
            = Some v -> v = 1%Q).
  { intros v. apply (X9_equal_scores_normalize_to_one
                       [("D1", 2%Q); ("D2", 4 # 2)] "D1" v).
    intros x y [<-|[<-|[]]] [<-|[<-|[]]]; reflexivity. }
  destruct (dict_get "D1" (Criticality.normalize [("D1", 2%Q); ("D2", 4 # 2)]))
    as [v|] eqn:E.
  - now rewrite (H v eq_refl).
  - vm_compute in E. discriminate.
Defined.

(** X10.  Normalisation keeps the order of the raw scores, strictly; and
    as soon as two raw scores differ, a largest raw score is mapped to 4 and
    a smallest one to 1. *)
Theorem X10_normalize_keeps_order (l : list (ident * Q))
    (k1 k2 : ident) (s1 s2 n1 n2 : Q) :
  dict_get k1 l = Some s1 -> dict_get k2 l = Some s2 ->
  dict_get k1 (Criticality.normalize l) = Some n1 ->
  dict_get k2 (Criticality.normalize l) = Some n2 ->
  ((s1 <= s2)%Q -> (n1 <= n2)%Q) /\
  ((s1 < s2)%Q ->
   (n1 < n2)%Q /\
   ((forall x, In x (map snd l) -> (s1 <= x)%Q) -> (n1 == 1)%Q) /\
   ((forall x, In x (map snd l) -> (x <= s2)%Q) -> (n2 == 4)%Q)).
Proof.
  intros E1 E2 N1 N2.
  rewrite dict_get_criticality_normalize in N1, N2.
  rewrite E1 in N1. rewrite E2 in N2. simpl in N1, N2.
  apply dict_get_In_snd in E1, E2.
  pose proof (max_default_ge 1 _ _ E1) as Hmax1.
  pose proof (min_default_le 0 _ _ E1) as Hmin1.
  pose proof (max_default_ge 1 _ _ E2) as Hmax2.
  pose proof (min_default_le 0 _ _ E2) as Hmin2.
  assert (Hne : map snd l <> []) by (intros H; rewrite H in E1; contradiction).
  pose proof (max_default_in 1 _ Hne) as Hmaxin.
  pose proof (min_default_in 0 _ Hne) as Hminin.
  set (mx := Criticality.max_default 1 (map snd l)) in *.
  set (mn := Criticality.min_default 0 (map snd l)) in *.
  destruct (Qlt_le_dec mn mx) as [Hlt|Hle].
  - inversion N1. inversion N2. split.
    + intros H. apply rescale_mono; lra.
    + intros H. split; [apply rescale_strict; lra|]. split.
      * intros Hall. pose proof (Hall mn Hminin).
        assert (Hz : (s1 - mn == 0)%Q) by lra.
        rewrite Hz. field. lra.
      * intros Hall. pose proof (Hall mx Hmaxin).
        assert (Hz : (s2 - mn == mx - mn)%Q) by lra.
        rewrite Hz. field. lra.
  - inversion N1. inversion N2. split; [lra|]. intros H. lra.
Qed.

Lemma X10_witness :
  ((1 # 2 <= 2)%Q -> (12 # 12 <= 24 # 6)%Q) /\
  ((1 # 2 < 2)%Q ->
   (12 # 12 < 24 # 6)%Q /\
   ((forall x, In x (map snd [("X", 1 # 2); ("E", 1%Q); ("D", 2%Q)]) ->
               (1 # 2 <= x)%Q) -> (12 # 12 == 1)%Q) /\
   ((forall x, In x (map snd [("X", 1 # 2); ("E", 1%Q); ("D", 2%Q)]) ->
               (x <= 2)%Q) -> (24 # 6 == 4)%Q)).
Proof.
  apply (X10_normalize_keeps_order [("X", 1 # 2); ("E", 1%Q); ("D", 2%Q)]
           "X" "D" (1 # 2) 2 (12 # 12) (24 # 6)).
  - reflexivity.
  - reflexivity.
  - vm_compute. reflexivity.
  - vm_compute. reflexivity.
Defined.

(** ** When the closure recursion returns *)

Lemma mapM_raise {A B} (f : A -> result B) e l :
  (forall a, In a l -> (exists b, f a = Ok b) \/ f a = Raise e) ->
  (exists a, In a l /\ f a = Raise e) ->
  mapM f l = Raise e.
Proof.
  induction l as [|a l IH]; intros Hall [x [Hx Ex]]; [contradiction|].
  cbn [mapM].
  destruct (Hall a (or_introl eq_refl)) as [[b Eb]|Eb];
    [|now rewrite Eb].
  rewrite Eb. cbn [bind]. rewrite IH; [reflexivity | |].
  - intros y Hy. apply Hall. now right.
  - destruct Hx as [<-|Hx]; [congruence | eauto].
Qed.

Lemma foldM_raise {A B} (f : A -> B -> result A) e l : forall a,
  (forall a b, In b l -> (exists a', f a b = Ok a') \/ f a b = Raise e) ->
  (exists b, In b l /\ forall a, f a b = Raise e) ->
  foldM f l a = Raise e.
Proof.
  induction l as [|b l IH]; intros a Hall [x [Hx Ex]]; [contradiction|].
  cbn [foldM].
  destruct (Hall a b (or_introl eq_refl)) as [[a' Ea]|Ea];
    [|now rewrite Ea].
  rewrite Ea. cbn [bind]. apply IH.
  - intros y z Hz. apply Hall. now right.
  - destruct Hx as [<-|Hx]; [rewrite Ex in Ea; discriminate | eauto].
Qed.

Lemma get_all_dependencies_outcome G limit : forall v,
  (exists deps, Importance.get_all_dependencies limit G v = Ok deps) \/
  Importance.get_all_dependencies limit G v = Raise RecursionError.
Proof.
  induction limit as [|limit IH]; intros v; [now right|].
  cbn [Importance.get_all_dependencies].
  induction (NX.successors G v) as [|u us IHus].
  - left. simpl. eauto.
  - cbn [mapM]. destruct (IH u) as [[d Ed]|Ed]; [|right; now rewrite Ed].
    rewrite Ed. cbn [bind].
    destruct (mapM (Importance.get_all_dependencies limit G) us)
      as [subs| |] eqn:Es.
    + left. cbn [bind]. eauto.
    + destruct IHus as [[d' Ed']|Ed']; cbn [bind] in Ed'; [discriminate|].
      right. cbn [bind]. congruence.
    + destruct IHus as [[d' Ed']|Ed']; cbn [bind] in Ed'; discriminate.
Qed.

(** A walk with more nodes than the recursion limit exhausts it. *)
Lemma get_all_dependencies_long_walk G limit : forall v l,
  walk G (v :: l) -> (limit < length (v :: l))%nat ->
  Importance.get_all_dependencies limit G v = Raise RecursionError.
Proof.
  induction limit as [|limit IH]; intros v l Hw Hlen; [reflexivity|].
  cbn [Importance.get_all_dependencies].
  destruct l as [|u l]; [simpl in Hlen; lia|].
  destruct Hw as [He Hw].
  rewrite (mapM_raise (Importance.get_all_dependencies limit G)
             RecursionError (NX.successors G v)); [reflexivity | |].
  - intros a _. apply get_all_dependencies_outcome.
  - exists u. split; [now apply successors_In|].
    apply (IH u l Hw). simpl in *. lia.
Qed.

Lemma get_all_dependencies_nodup G limit v deps :
  Importance.get_all_dependencies limit G v = Ok deps -> NoDup deps.
Proof.
  destruct limit as [|limit]; [discriminate|].
  cbn [Importance.get_all_dependencies].
  destruct (mapM _ _) as [subs| |]; cbn [bind]; try discriminate.
  intros E. injection E as <-.
  generalize (dict_keys_NoDup (NX.successors G v)).
  generalize (dict_keys (NX.successors G v)).
  induction subs as [|s subs IH]; intros acc Hacc; simpl; [assumption|].
  apply IH. now apply dict_keys_fold_NoDup.
Qed.

Lemma walk_concat G a c b :
  walk G (a ++ [c]) -> walk G (c :: b) -> walk G (a ++ c :: b).
Proof.
  induction a as [|x a IH]; intros Ha Hb; [assumption|].
  destruct a as [|y a]; simpl in *.
  - destruct Ha as [He _]. auto.
  - destruct Ha as [He Ha]. split; [assumption|]. now apply IH.
Qed.

(** Around a cycle there are walks of every length. *)
Lemma cycle_long_walks G c l :
  walk G (c :: l ++ [c]) ->
  forall n, exists w, walk G (c :: w) /\ (n <= length w)%nat.
Proof.
  intros Hc. induction n as [|n [w [Hw Hn]]].
  - exists []. simpl. auto.
  - exists (l ++ c :: w). split.
    + change (c :: l ++ c :: w) with ((c :: l) ++ c :: w).
      apply walk_concat; assumption.
    + rewrite length_app. simpl. lia.
Qed.

Lemma reaches_cycle_long_walks G v :
  reaches_cycle G v ->
  forall n, exists w, walk G (v :: w) /\ (n <= length w)%nat.
Proof.
  intros [c [l [Hv Hc]]] n.
  destruct (cycle_long_walks G c l Hc n) as [w [Hw Hn]].
  destruct Hv as [->|[p Hp]]; [eauto|].
  exists (p ++ c :: w). split.
  - change (v :: p ++ c :: w) with ((v :: p) ++ c :: w).
    apply walk_concat; assumption.
  - rewrite length_app. simpl. lia.
Qed.

(** * Further properties of [get_all_dependencies] *)

(** X13.  On a graph as networkx keeps it (no repeated node or edge, every
    edge endpoint a node) and for a node of that graph,
    [get_all_dependencies] returns a list exactly when no walk out of the
    node has more nodes than the recursion limit; the list then holds every
    node reachable from the node along at least one edge, each once.  When
    it does not return a list it raises [RecursionError].  (For a node that
    is not in the graph networkx raises [NetworkXError]; that case is
    excluded.) *)
Theorem X13_closure_characterised (G : NX.DiGraph) (limit : nat) (v : ident) :
  wf_graph G -> In v (NX.nodes G) ->
  ((exists deps, Importance.get_all_dependencies limit G v = Ok deps) <->
   (forall l, walk G (v :: l) -> (length (v :: l) <= limit)%nat)) /\
  (forall deps, Importance.get_all_dependencies limit G v = Ok deps ->
     NoDup deps /\ forall x, In x deps <-> reachable G v x) /\
  ((exists deps, Importance.get_all_dependencies limit G v = Ok deps) \/
   Importance.get_all_dependencies limit G v = Raise RecursionError).
Proof.
  intros _ _.
  assert (Hbound : forall deps,
            Importance.get_all_dependencies limit G v = Ok deps ->
            forall l, walk G (v :: l) -> (length (v :: l) <= limit)%nat).
  { intros deps E l Hw.
    destruct (le_lt_dec (length (v :: l)) limit) as [H|H]; [assumption|].
    rewrite (get_all_dependencies_long_walk G limit v l Hw H) in E.
    discriminate. }
  split; [|split].
  - split.
    + intros [deps E]. now apply (Hbound deps).
    + intros H. destruct (get_all_dependencies_spec G limit v H)
        as [deps [E _]]. eauto.
  - intros deps E. split; [now apply get_all_dependencies_nodup in E|].
    destruct (get_all_dependencies_spec G limit v (Hbound deps E))
      as [deps' [E' Hspec]].
    assert (deps' = deps) by congruence. now subst.
  - apply get_all_dependencies_outcome.
Qed.

Lemma X13_witness :
  ((exists deps,
      Importance.get_all_dependencies 1000 (Importance.G scenario_A) "M2"
      = Ok deps) <->
   (forall l, walk (Importance.G scenario_A) ("M2" :: l) ->
              (length ("M2" :: l) <= 1000)%nat)) /\
  (forall deps,
     Importance.get_all_dependencies 1000 (Importance.G scenario_A) "M2"
     = Ok deps ->
     NoDup deps /\
     forall x, In x deps <-> reachable (Importance.G scenario_A) "M2" x) /\
  ((exists deps,
      Importance.get_all_dependencies 1000 (Importance.G scenario_A) "M2"
      = Ok deps) \/
   Importance.get_all_dependencies 1000 (Importance.G scenario_A) "M2"
   = Raise RecursionError).
Proof.
  apply (X13_closure_characterised (Importance.G scenario_A) 1000 "M2").
  - apply Imp_G_wf.
  - simpl. auto.
Defined.

(** ** A mission that reaches a cycle *)

Lemma pagerank_analysis_cycle (page_rank : NX.DiGraph -> ident -> Q)
    (data : Payload) (limit : nat) (m : ident) :
  In m (Importance.missions data) ->
  Importance.get_all_dependencies limit (Importance.G data) m
  = Raise RecursionError ->
  Importance.pagerank_analysis page_rank limit data = Raise RecursionError.
Proof.
  intros Hm Hgad.
  unfold Importance.pagerank_analysis, Importance.missions_importance_scores.
  rewrite (foldM_raise _ RecursionError); [reflexivity | |].
  - intros acc m' _. unfold Importance.mission_scores.
    destruct (get_all_dependencies_outcome (Importance.G data) limit m')
      as [[deps E]|E].
    + left. rewrite (adjusted_scores_of_ok page_rank data m' limit deps E).
      cbn [bind]. eauto.
    + right. unfold Importance.adjusted_scores_of. now rewrite E.
  - exists m. split; [assumption|]. intros acc.
    unfold Importance.mission_scores, Importance.adjusted_scores_of.
    now rewrite Hgad.
Qed.

(** C8, as the claim states it, fails: in scenario B mission [A] reaches
    data node [D1], yet at every recursion limit and for every PageRank the
    handler raises [RecursionError]; no score map exists whose entries could
    sum to 1. *)
Lemma C8_counterexample :
  In "A" (Importance.missions scenario_B) /\
  reaches_data scenario_B "A" /\
  forall (page_rank : NX.DiGraph -> ident -> Q) (limit : nat),
    Importance.pagerank_analysis page_rank limit scenario_B
    = Raise RecursionError.
Proof.
  split; [simpl; auto|]. split.
  - exists "D1". split; [reflexivity|]. exists []. simpl. auto.
  - intros page_rank limit.
    apply (pagerank_analysis_cycle page_rank scenario_B limit "A");
      [simpl; auto|].
    assert (Hc : reaches_cycle (Importance.G scenario_B) "A").
    { exists "A", ["B"]. split; [now left|]. simpl. intuition. }
    destruct (reaches_cycle_long_walks _ "A" Hc limit) as [w [Hw Hn]].
    apply (get_all_dependencies_long_walk _ limit "A" w Hw). simpl. lia.
Qed.

(** X14.  When a mission is on a cycle of the importance graph or reaches
    one, its closure is returned at no recursion limit, and the whole
    handler raises [RecursionError], whatever the PageRank values. *)
Theorem X14_cycle_raises_recursion_error
    (page_rank : NX.DiGraph -> ident -> Q) (data : Payload) (limit : nat)
    (m : ident) :
  In m (Importance.missions data) ->
  reaches_cycle (Importance.G data) m ->
  Importance.get_all_dependencies limit (Importance.G data) m
  = Raise RecursionError /\
  Importance.pagerank_analysis page_rank limit data = Raise RecursionError.
Proof.
  intros Hm Hc.
  assert (Hgad : Importance.get_all_dependencies limit (Importance.G data) m
                 = Raise RecursionError).
  { destruct (reaches_cycle_long_walks _ m Hc limit) as [w [Hw Hn]].
    apply (get_all_dependencies_long_walk _ limit m w Hw). simpl. lia. }
  split; [assumption|].
  now apply (pagerank_analysis_cycle page_rank data limit m).
Qed.

Lemma X14_witness :
  Importance.get_all_dependencies 1000 (Importance.G scenario_B) "B"
  = Raise RecursionError /\
  Importance.pagerank_analysis uniform_rank 1000 scenario_B
  = Raise RecursionError.
Proof.
  apply (X14_cycle_raises_recursion_error uniform_rank scenario_B 1000 "B").
  - simpl. auto.
  - exists "B", ["A"]. split; [now left|]. simpl. intuition.
Defined.

(** ** The result of [pagerank_analysis] on an acyclic graph *)

Lemma pagerank_analysis_result (page_rank : NX.DiGraph -> ident -> Q)
    (data : Payload) (limit : nat) :
  acyclic (Importance.G data) ->
  (length (NX.nodes (Importance.G data)) <= limit)%nat ->
  exists res,
    Importance.pagerank_analysis page_rank limit data = Ok res /\
    length (Importance.score_mat res) = length (Importance.missions data) /\
    (forall row, In row (Importance.score_mat res) ->
       length row = length (Importance.operational_data data)) /\
    forall m, In m (Importance.missions data) ->
      exists deps,
        (forall x, In x deps <-> reachable (Importance.G data) m x) /\
        dict_get m (Importance.perMission res) =
        Some (Importance.normalize_scores
                (map (fun d => (d, weight page_rank data m d))
                     (data_of data deps))
                (sumQ (map (weight page_rank data m) (data_of data deps)))) /\
        forall i j d,
          nth_error (Importance.missions data) i = Some m ->
          nth_error (Importance.operational_data data) j = Some d ->
          entry (Importance.score_mat res) i j =
          match dict_get d
                  (Importance.normalize_scores
                     (map (fun d => (d, weight page_rank data m d))
                          (data_of data deps))
                     (sumQ (map (weight page_rank data m)
                                (data_of data deps))))
          with Some v => v | None => 0%Q end.
Proof.
  intros Hac Hl.
  destruct (scores_fold (Importance.mission_scores page_rank limit data)
              (Importance.missions data) [])
    as [scores [Es [Hin _]]].
  { intros m Hm.
    destruct (mission_scores_ok page_rank data limit m Hac Hl Hm)
      as [deps [_ E]]. eauto. }
  destruct (fill_outer (Importance.operational_data data)
              (Importance.missions data) scores)
    as [filled [Ef Hfill]].
  { intros m Hm. destruct (Hin m Hm) as [s [_ Hs]]. eauto. }
  set (val := fun m d =>
         match dict_get m filled with
         | Some row => match dict_get d row with Some v => v | None => 0%Q end
         | None => 0%Q
         end).
  assert (Hrow : forall m, In m (Importance.missions data) ->
            exists s row, dict_get m scores = Some s /\
                          dict_get m filled = Some row /\
                          filled_from (Importance.operational_data data) s row).
  { intros m Hm. destruct (Hin m Hm) as [s [_ Hs]].
    destruct (Hfill m s Hs) as [row [Hr [Hf _]]].
    exists s, row. auto. }
  assert (Emat : Importance.score_matrix data filled =
                 Ok (map (fun m => map (val m)
                                       (Importance.operational_data data))
                         (Importance.missions data))).
  { unfold Importance.score_matrix. apply mapM_ok. intros m Hm.
    apply mapM_ok. intros d Hd.
    destruct (Hrow m Hm) as [s [row [_ [Hr Hf]]]].
    unfold val. rewrite Hr. specialize (Hf d).
    apply mem_In in Hd. rewrite Hd in Hf.
    destruct (dict_get d row) as [v|]; [reflexivity|].
    destruct (dict_get d s); discriminate. }
  unfold Importance.pagerank_analysis, Importance.missions_importance_scores,
    Importance.fill_zero.
  rewrite Es. cbn [bind]. rewrite Ef. cbn [bind]. rewrite Emat. cbn [bind].
  eexists. split; [reflexivity|].
  cbn [Importance.perMission Importance.score_mat].
  split; [now rewrite length_map|]. split.
  { intros row Hrow'. apply in_map_iff in Hrow'.
    destruct Hrow' as [m [<- _]]. now rewrite length_map. }
  intros m Hm.
  destruct (Hin m Hm) as [s [Esc Hs]].
  destruct (mission_scores_ok page_rank data limit m Hac Hl Hm)
    as [deps [Hdeps E]].
  rewrite E in Esc. inversion Esc as [Heq]. clear Esc.
  exists deps. split; [assumption|]. split; [now rewrite Heq|].
  intros i j d Hi Hj. unfold entry.
  rewrite (nth_error_nth _ _ []
             (map_nth_error (fun m => map (val m)
                               (Importance.operational_data data)) _ _ Hi)).
  rewrite (nth_error_nth _ _ 0%Q (map_nth_error (val m) _ _ Hj)).
  destruct (Hrow m Hm) as [s' [row [Hs' [Hr Hf]]]].
  assert (s' = s) by congruence. subst s'.
  unfold val. rewrite Hr, (Hf d), Heq.
  assert (Hd : mem d (Importance.operational_data data) = true).
  { apply mem_In. eapply nth_error_In. eassumption. }
  rewrite Hd. now destruct (dict_get d s).
Qed.

Lemma fold_Qplus_elem_le l : forall a x,
  (0 <= a)%Q -> (forall y, In y l -> (0 <= y)%Q) -> In x l ->
  (x <= fold_left Qplus l a)%Q.
Proof.
  induction l as [|y l IH]; intros a x Ha Hall Hx; [contradiction|].
  simpl. pose proof (Hall y (or_introl eq_refl)) as Hy.
  destruct Hx as [->|Hx].
  - apply Qle_trans with (a + x)%Q; [lra|].
    apply fold_Qplus_ge. intros z Hz. apply Hall. now right.
  - apply IH; [lra | | assumption]. intros z Hz. apply Hall. now right.
Qed.

Lemma In_entry (mat : matrix) row x ncols :
  In row mat -> In x row -> length row = ncols ->
  exists i j, (i < length mat)%nat /\ (j < ncols)%nat /\ entry mat i j = x.
Proof.
  intros Hrow Hx Hlen.
  destruct (In_nth mat row [] Hrow) as [i [Hi Ei]].
  destruct (In_nth row x 0%Q Hx) as [j [Hj Ej]].
  exists i, j. split; [assumption|]. split; [lia|].
  unfold entry. now rewrite Ei.
Qed.

(** * Further properties of [pagerank_analysis] *)

(** X15.  On an acyclic graph with a positive PageRank the importance
    matrix has one row per mission record and one column per data record,
    and every entry lies between 0 and 1. *)
Theorem X15_importance_matrix_in_unit_range
    (page_rank : NX.DiGraph -> ident -> Q) (data : Payload) (limit : nat) :
  acyclic (Importance.G data) ->
  (length (NX.nodes (Importance.G data)) <= limit)%nat ->
  (forall v, In v (NX.nodes (Importance.G data)) ->
             (0 < page_rank (Importance.G data) v)%Q) ->
  exists res,
    Importance.pagerank_analysis page_rank limit data = Ok res /\
    length (Importance.score_mat res) = length (Mission data) /\
    forall row, In row (Importance.score_mat res) ->
      length row = length (OperationalData data) /\
      forall x, In x row -> (0 <= x /\ x <= 1)%Q.
Proof.
  intros Hac Hl Hrank.
  destruct (pagerank_analysis_result page_rank data limit Hac Hl)
    as [res [E [Hrows [Hcols Hval]]]].
  exists res. split; [exact E|].
  unfold Importance.missions in Hrows. rewrite length_map in Hrows.
  split; [assumption|]. intros row Hrow.
  pose proof (Hcols row Hrow) as Hlen.
  split; [unfold Importance.operational_data in Hlen;
          now rewrite length_map in Hlen|].
  intros x Hx.
  destruct (In_entry _ row x _ Hrow Hx Hlen) as [i [j [Hi [Hj <-]]]].
  destruct (nth_error (Importance.missions data) i) as [m|] eqn:Em.
  2:{ apply nth_error_None in Em. unfold Importance.missions in Em.
      rewrite length_map in Em. lia. }
  destruct (nth_error (Importance.operational_data data) j) as [d|] eqn:Ed.
  2:{ apply nth_error_None in Ed. lia. }
  destruct (Hval m (nth_error_In _ _ Em)) as [deps [Hdeps [_ Hentry]]].
  rewrite (Hentry i j d Em Ed), dict_get_normalize, dict_get_map_fun.
  destruct (mem d (data_of data deps)) eqn:Hd; simpl; [|lra].
  apply mem_In in Hd.
  pose proof (weight_nonneg page_rank data Hrank m deps d Hdeps Hd) as Hw.
  assert (Hsum : (weight page_rank data m d <=
                  sumQ (map (weight page_rank data m) (data_of data deps)))%Q).
  { unfold sumQ. apply fold_Qplus_elem_le; [lra | | now apply in_map].
    intros y Hy. apply in_map_iff in Hy. destruct Hy as [d' [<- Hd']].
    now apply (weight_nonneg page_rank data Hrank m deps d'). }
  destruct (Qlt_le_dec 0 _) as [Hpos|Hnp].
  - split.
    + apply Qle_shift_div_l; lra.
    + apply Qle_shift_div_r; lra.
  - assert (Hz : (weight page_rank data m d == 0)%Q) by lra.
    rewrite Hz. split; [|]; unfold Qdiv; rewrite Qmult_0_l; lra.
Qed.

Lemma X15_witness :
  exists res,
    Importance.pagerank_analysis uniform_rank 1000 scenario_A = Ok res /\
    length (Importance.score_mat res) = length (Mission scenario_A) /\
    forall row, In row (Importance.score_mat res) ->
      length row = length (OperationalData scenario_A) /\
      forall x, In x row -> (0 <= x /\ x <= 1)%Q.
Proof.
  apply (X15_importance_matrix_in_unit_range uniform_rank scenario_A 1000).
  - apply (topological_order_acyclic _ ["M2"; "M1"; "D1"; "D2"]).
    split; [|split].
    + repeat constructor; simpl; intuition discriminate.
    + intros v. simpl. tauto.
    + intros u v [H|[H|[]]]; inversion H; simpl; lia.
  - vm_compute. lia.
  - intros v _. reflexivity.
Defined.

(** X16.  On an acyclic graph, with a recursion limit of at least its
    number of nodes, a mission from which no data node is reachable (for
    instance a mission without children and without usage records) gets an
    empty score map and a row of zeros; nothing is divided by the zero
    sum. *)
Theorem X16_mission_without_data_scores_zero
    (page_rank : NX.DiGraph -> ident -> Q) (data : Payload) (limit : nat)
    (m : ident) :
  acyclic (Importance.G data) ->
  (length (NX.nodes (Importance.G data)) <= limit)%nat ->
  In m (Importance.missions data) ->
  ~ reaches_data data m ->
  exists res,
    Importance.pagerank_analysis page_rank limit data = Ok res /\
    dict_get m (Importance.perMission res) = Some [] /\
    forall i j,
      nth_error (Importance.missions data) i = Some m ->
      (j < length (OperationalData data))%nat ->
      entry (Importance.score_mat res) i j = 0%Q.
Proof.
  intros Hac Hl Hm Hn.
  destruct (pagerank_analysis_result page_rank data limit Hac Hl)
    as [res [E [_ [_ Hval]]]].
  exists res. split; [exact E|].
  destruct (Hval m Hm) as [deps [Hdeps [Hs Hentry]]].
  assert (Hnil : data_of data deps = []).
  { destruct (data_of data deps) as [|d l] eqn:Ed; [reflexivity|].
    exfalso. apply Hn. exists d.
    assert (Hd : In d (data_of data deps)) by (rewrite Ed; now left).
    apply data_of_In in Hd. destruct Hd as [Hd1 Hd2].
    split; [assumption | now apply Hdeps]. }
  rewrite Hnil in Hs, Hentry. split; [exact Hs|].
  intros i j Hi Hj.
  destruct (nth_error (Importance.operational_data data) j) as [d|] eqn:Ed.
  - now rewrite (Hentry i j d Hi Ed).
  - apply nth_error_None in Ed. unfold Importance.operational_data in Ed.
    rewrite length_map in Ed. lia.
Qed.

Lemma X16_witness :
  exists res,
    Importance.pagerank_analysis uniform_rank 1000 scenario_C = Ok res /\
    dict_get "M" (Importance.perMission res) = Some [] /\
    forall i j,
      nth_error (Importance.missions scenario_C) i = Some "M" ->
      (j < length (OperationalData scenario_C))%nat ->
      entry (Importance.score_mat res) i j = 0%Q.
Proof.
  apply (X16_mission_without_data_scores_zero uniform_rank scenario_C 1000 "M").
  - apply (topological_order_acyclic _ ["M"; "D1"]).
    split; [|split].
    + repeat constructor; simpl; intuition discriminate.
    + intros v. simpl. tauto.
    + intros u v [].
  - vm_compute. lia.
  - simpl. auto.
  - intros [d [_ [l Hw]]]. destruct l; simpl in Hw; destruct Hw as [[] _].
Defined.

(** ** Neighbours of a node are nodes *)

Lemma successors_are_nodes G n x :
  wf_graph G -> In x (NX.successors G n) -> In x (NX.nodes G).
Proof.
  intros [_ [_ Hwf]] H. apply successors_In in H. now apply (Hwf n x).
Qed.

Lemma predecessors_are_nodes G n x :
  wf_graph G -> In x (NX.predecessors G n) -> In x (NX.nodes G).
Proof.
  intros [_ [_ Hwf]] H. apply predecessors_In in H. now apply (Hwf x n).
Qed.

(** ** Walks that end at a node *)

Lemma walk_snoc_inv G p u v :
  walk G (p ++ [u; v]) -> walk G (p ++ [u]) /\ In (u, v) (NX.edges G).
Proof.
  intros Hw. split.
  - replace (p ++ [u; v]) with ((p ++ [u]) ++ [v]) in Hw
      by now rewrite <- app_assoc.
    now apply walk_app_l in Hw.
  - apply walk_app_r in Hw. apply Hw.
Qed.

Lemma acyclic_walk_end_length G w x :
  wf_graph G -> acyclic G -> In x (NX.nodes G) -> walk G (w ++ [x]) ->
  (length (w ++ [x]) <= length (NX.nodes G))%nat.
Proof.
  intros Hwf Hac Hx Hw. apply NoDup_incl_length.
  - destruct (ListDec.NoDup_dec string_dec (w ++ [x])) as [H|H]; [assumption|].
    exfalso. apply Hac. eapply walk_dup_cycle; eassumption.
  - now apply walk_end_incl.
Qed.

Lemma top_level_dependencies_spec G limit : forall v,
  (forall l, walk G (l ++ [v]) -> (length (l ++ [v]) <= limit)%nat) ->
  exists deps,
    TopLevel.get_all_dependencies limit G v = Ok deps /\
    NoDup deps /\
    forall x, In x deps <-> reachable G x v.
Proof.
  induction limit as [|limit IH]; intros v Hlen.
  - specialize (Hlen [] I). simpl in Hlen. lia.
  - cbn [TopLevel.get_all_dependencies].
    destruct (mapM_spec (TopLevel.get_all_dependencies limit G)
                (fun u deps => forall x, In x deps <-> reachable G x u)
                (NX.predecessors G v)) as [subs [E Hsubs]].
    { intros u Hu. destruct (IH u) as [deps [Ed [_ Hd]]]; [|eauto].
      intros l Hw. apply predecessors_In in Hu.
      assert (Hw' : walk G ((l ++ [u]) ++ [v])).
      { apply walk_snoc; [assumption | now destruct l |].
        now rewrite last_last. }
      specialize (Hlen (l ++ [u]) Hw'). rewrite !length_app in *.
      simpl in *. lia. }
    rewrite E. cbn [bind]. eexists. split; [reflexivity|]. split.
    { generalize (dict_keys_NoDup (NX.predecessors G v)).
      generalize (dict_keys (NX.predecessors G v)).
      clear. induction subs as [|s subs IHs]; intros acc Hacc; simpl;
        [assumption|].
      apply IHs. now apply dict_keys_fold_NoDup. }
    intros x. rewrite fold_set_update_In, dict_keys_In. split.
    + intros [H|[s [Hs Hx]]].
      * apply predecessors_In in H. exists []. simpl. auto.
      * destruct (Forall2_In_r _ _ _ s Hsubs Hs) as [u [Hu Hspec]].
        apply Hspec in Hx. destruct Hx as [l Hw].
        apply predecessors_In in Hu.
        exists (l ++ [u]).
        change (x :: (l ++ [u]) ++ [v]) with ((x :: l ++ [u]) ++ [v]).
        apply walk_snoc; [assumption | discriminate |].
        change (x :: l ++ [u]) with ((x :: l) ++ [u]).
        now rewrite last_last.
    + intros [l Hw]. destruct (exists_last (l := x :: l)) as [p [u Ep]];
        [discriminate|].
      change (x :: l ++ [v]) with ((x :: l) ++ [v]) in Hw.
      rewrite Ep in Hw. rewrite <- app_assoc in Hw.
      apply walk_snoc_inv in Hw. destruct Hw as [Hw He].
      apply predecessors_In in He.
      destruct p as [|a p]; simpl in Ep; inversion Ep; subst.
      * left. assumption.
      * right. destruct (Forall2_In_l _ _ _ u Hsubs He) as [s [Hs Hspec]].
        exists s. split; [assumption|]. apply Hspec. now exists p.
Qed.

(** * Further properties of the graphs and the module-level helper *)

(** X17.  The graph of [pagerank_analysis] is the graph of the two other
    handlers with every edge reversed: the same nodes, and the successors of
    a node in the one are its predecessors in the other. *)
Theorem X17_importance_graph_is_reversed (data : Payload) :
  (forall x, In x (NX.nodes (Importance.G data)) <->
             In x (NX.nodes (BottomUp.G data))) /\
  (forall u v, In (u, v) (NX.edges (Importance.G data)) <->
               In (v, u) (NX.edges (BottomUp.G data))) /\
  (forall n x, In x (NX.successors (Importance.G data) n) <->
               In x (NX.predecessors (BottomUp.G data) n)).
Proof.
  assert (He : forall u v, In (u, v) (NX.edges (Importance.G data)) <->
                           In (v, u) (NX.edges (BottomUp.G data))).
  { intros u v. rewrite G_edges.
    assert (Hi : In (u, v) (NX.edges (Importance.G data)) <->
                 In (u, v) (Importance.mission_hierarchy_edges data) \/
                 In (u, v) (Importance.mission_operational_data_edges data)).
    { unfold Importance.G.
      rewrite add_edges_from_edges, add_nodes_from_edges. simpl.
      rewrite in_app_iff. tauto. }
    rewrite Hi.
    unfold Importance.mission_hierarchy_edges, BottomUp.mission_hierarchy,
      Importance.mission_operational_data_edges,
      BottomUp.mission_data_relations.
    rewrite !in_map_iff.
    split; (intros [[r [Er Hr]]|[r [Er Hr]]];
            [left | right]; exists r; (split; [congruence | assumption])). }
  split; [|split].
  - intros x. unfold Importance.G, BottomUp.G.
    rewrite !add_edges_from_nodes, !add_nodes_from_nodes. simpl.
    unfold BottomUp.full_nodes, BottomUp.missions, BottomUp.operational_data,
      Importance.missions, Importance.operational_data.
    rewrite dict_keys_In, !in_app_iff, !dict_keys_In.
    unfold Importance.mission_hierarchy_edges, BottomUp.mission_hierarchy,
      Importance.mission_operational_data_edges,
      BottomUp.mission_data_relations.
    split.
    + intros [[[]|H]|[e [Hin Hx]]]; [now left; right|]. right.
      apply in_app_iff in Hin. destruct Hin as [Hin|Hin];
        apply in_map_iff in Hin; destruct Hin as [r [<- Hr]]; simpl in Hx.
      * exists (ChildMission r, ParentMission r). split; [|simpl; tauto].
        apply in_app_iff. left. apply in_map_iff. now exists r.
      * exists (rel_OperationalData r, rel_Mission r). split; [|simpl; tauto].
        apply in_app_iff. right. apply in_map_iff. now exists r.
    + intros [[[]|H]|[e [Hin Hx]]]; [now left; right|]. right.
      apply in_app_iff in Hin. destruct Hin as [Hin|Hin];
        apply in_map_iff in Hin; destruct Hin as [r [<- Hr]]; simpl in Hx.
      * exists (ParentMission r, ChildMission r). split; [|simpl; tauto].
        apply in_app_iff. left. apply in_map_iff. now exists r.
      * exists (rel_Mission r, rel_OperationalData r). split; [|simpl; tauto].
        apply in_app_iff. right. apply in_map_iff. now exists r.
  - exact He.
  - intros n x. rewrite successors_In, predecessors_In. apply He.
Qed.

(** X18.  The module-level [get_all_dependencies] follows the edges
    backwards: on an acyclic graph, with a recursion limit of at least the
    number of nodes, it returns every node from which the given node is
    reachable along at least one edge, each once. *)
Theorem X18_top_level_dependencies_are_ancestors (data : Payload)
    (limit : nat) (v : ident) :
  acyclic (BottomUp.G data) ->
  (length (NX.nodes (BottomUp.G data)) <= limit)%nat ->
  In v (NX.nodes (BottomUp.G data)) ->
  exists deps,
    TopLevel.get_all_dependencies limit (BottomUp.G data) v = Ok deps /\
    NoDup deps /\
    forall x, In x deps <-> reachable (BottomUp.G data) x v.
Proof.
  intros Hac Hl Hv. apply top_level_dependencies_spec.
  intros l Hw.
  pose proof (acyclic_walk_end_length _ l v (G_wf data) Hac Hv Hw). lia.
Qed.

Lemma X18_witness :
  exists deps,
    TopLevel.get_all_dependencies 1000 (BottomUp.G scenario_A) "M2" = Ok deps /\
    NoDup deps /\
    forall x, In x deps <-> reachable (BottomUp.G scenario_A) x "M2".
Proof.
  apply (X18_top_level_dependencies_are_ancestors scenario_A 1000 "M2").
  - apply (topological_order_acyclic _ ["D1"; "D2"; "M1"; "M2"]).
    split; [|split].
    + repeat constructor; simpl; intuition discriminate.
    + intros v. simpl. tauto.
    + intros u v [H|[H|[]]]; inversion H; simpl; lia.
  - vm_compute. lia.
  - simpl. auto.
Defined.

(** ** Which entries of the bottom-up matrix are positive *)

Lemma fold_Qplus_pos_inv l : forall a,
  (forall y, In y l -> (0 <= y)%Q) -> (a < fold_left Qplus l a)%Q ->
  exists x, In x l /\ (0 < x)%Q.
Proof.
  induction l as [|y l IH]; intros a Hall H; simpl in H.
  - exfalso. lra.
  - destruct (Qlt_le_dec 0 y) as [Hy|Hy].
    + exists y. split; [now left | assumption].
    + assert (Hy0 : (y == 0)%Q).
      { pose proof (Hall y (or_introl eq_refl)). lra. }
      destruct (IH (a + y)%Q) as [x [Hx Hpos]].
      * intros z Hz. apply Hall. now right.
      * lra.
      * exists x. split; [now right | assumption].
Qed.

Lemma mean_pos_iff l :
  l <> [] -> (forall y, In y l -> (0 <= y)%Q) ->
  (0 < sumQ l / inject_Z (Z.of_nat (length l)))%Q <->
  exists x, In x l /\ (0 < x)%Q.
Proof.
  intros Hne Hall.
  assert (Hk : (0 < inject_Z (Z.of_nat (length l)))%Q).
  { change 0%Q with (inject_Z 0). rewrite <- Zlt_Qlt.
    destruct l; [congruence | simpl; lia]. }
  split.
  - intros H. apply (fold_Qplus_pos_inv l 0%Q Hall).
    fold (sumQ l).
    destruct (Qlt_le_dec 0 (sumQ l)) as [Hs|Hs]; [assumption|].
    exfalso.
    assert (sumQ l / inject_Z (Z.of_nat (length l)) <= 0)%Q.
    { apply Qle_shift_div_r; [assumption|]. lra. }
    lra.
  - intros [x [Hx Hpos]].
    apply Qlt_shift_div_l; [assumption|].
    pose proof (fold_Qplus_pos l 0%Q x Hall Hx Hpos) as H.
    fold (sumQ l) in H. lra.
Qed.

Lemma leaf_below_child data c m l :
  In c (children_of data m) -> leaf_below data l c -> leaf_below data l m.
Proof.
  intros Hc [Hl H]. split; [assumption|]. right.
  apply predecessors_In in Hc.
  destruct H as [<-|[w Hw]].
  - exists []. simpl. auto.
  - exists (w ++ [c]).
    change (l :: (w ++ [c]) ++ [m]) with ((l :: w ++ [c]) ++ [m]).
    apply walk_snoc; [assumption | discriminate |].
    change (l :: w ++ [c]) with ((l :: w) ++ [c]).
    now rewrite last_last.
Qed.

Lemma reachable_last_edge G l m :
  reachable G l m ->
  exists c, In (c, m) (NX.edges G) /\ (l = c \/ reachable G l c).
Proof.
  intros [w Hw].
  destruct (exists_last (l := l :: w)) as [p [c Ep]]; [discriminate|].
  change (l :: w ++ [m]) with ((l :: w) ++ [m]) in Hw.
  rewrite Ep, <- app_assoc in Hw. apply walk_snoc_inv in Hw.
  destruct Hw as [Hw He]. exists c. split; [assumption|].
  destruct p as [|a p]; simpl in Ep; inversion Ep; subst.
  - now left.
  - right. now exists p.
Qed.

Section Positivity.

Variable data : Payload.
Hypothesis Hk : hierarchy_known data.
Variables (mat : matrix) (tp : list ident).
Hypothesis Inv : bu_inv data tp mat.
Hypothesis Hall : forall m, In m (BottomUp.missions data) -> In m tp.

Local Abbreviation ms := (BottomUp.missions data).
Local Abbreviation od := (BottomUp.operational_data data).

Lemma entry_positive_bounded (n : nat) : forall m,
  In m ms ->
  (forall w, walk (BottomUp.M data) (w ++ [m]) -> (length (w ++ [m]) <= n)%nat) ->
  forall d, In d od ->
    (0 < entry mat (position m ms) (position d od))%Q <->
    exists l, In l ms /\ leaf_below data l m /\ uses data d l = true.
Proof.
  induction n as [|n IH]; intros m Hm Hlen d Hd.
  { specialize (Hlen [] I). simpl in Hlen. lia. }
  unfold entry. fold (row_of data mat m).
  destruct (Z.eq_dec (NX.in_degree (BottomUp.M data) m) 0) as [Hz|Hnz].
  - (* a leaf *)
    pose proof (proj1 (in_degree_zero_leaf data m) Hz) as Hleaf.
    rewrite (bi_leaf _ _ _ Inv m (Hall m Hm) Hz d Hd),
      (leaf_predecessors data d m Hleaf).
    split.
    + intros H. exists m. split; [assumption|]. split.
      * split; [assumption | now left].
      * destruct (uses data d m); [reflexivity | exfalso; lra].
    + intros [l [Hl [[_ [->|Hr]] Hu]]].
      * rewrite Hu. lra.
      * exfalso. apply reachable_last_edge in Hr.
        destruct Hr as [c [He _]]. apply M_edges in He.
        apply in_map_iff in He. destruct He as [r [Er Hr]].
        inversion Er. exact (Hleaf r Hr H1).
  - (* a mission with children *)
    rewrite (bi_mean _ _ _ Inv m (Hall m Hm) Hnz).
    assert (Hj : (position d od < length od)%nat) by now apply position_lt_in.
    rewrite (calculated_mean_nth _ _ _ Hj), map_map, length_map.
    rewrite <- (length_map (fun c => nth (position d od) (row_of data mat c) 0%Q)
                  (children_of data m)).
    assert (Hne : children_of data m <> []).
    { intros E. apply Hnz. unfold NX.in_degree.
      fold (children_of data m). now rewrite E. }
    assert (IHc : forall c, In c (children_of data m) ->
              (0 < nth (position d od) (row_of data mat c) 0)%Q <->
              exists l, In l ms /\ leaf_below data l c /\ uses data d l = true).
    { intros c Hc.
      apply (IH c (children_missions data Hk m c Hc)); [|assumption].
      intros w Hw. apply predecessors_In in Hc.
      assert (Hw' : walk (BottomUp.M data) ((w ++ [c]) ++ [m])).
      { apply walk_snoc; [assumption | now destruct w |].
        now rewrite last_last. }
      specialize (Hlen (w ++ [c]) Hw'). rewrite !length_app in *.
      simpl in *. lia. }
    rewrite mean_pos_iff.
    + split.
      * intros [x [Hx Hpos]]. apply in_map_iff in Hx.
        destruct Hx as [c [<- Hc]]. apply (IHc c Hc) in Hpos.
        destruct Hpos as [l [Hl [Hb Hu]]]. exists l.
        split; [assumption|]. split; [|assumption].
        now apply (leaf_below_child data c m l).
      * intros [l [Hl [[Hleaf Hb] Hu]]].
        assert (Hr : reachable (BottomUp.M data) l m).
        { destruct Hb as [->|Hr]; [|assumption].
          exfalso. apply Hnz. now apply in_degree_zero_leaf. }
        apply reachable_last_edge in Hr. destruct Hr as [c [He Hlc]].
        assert (Hc : In c (children_of data m)) by now apply predecessors_In.
        exists (nth (position d od) (row_of data mat c) 0%Q). split.
        { apply in_map_iff. now exists c. }
        apply (IHc c Hc). exists l. split; [assumption|].
        split; [|assumption]. split; [assumption|]. exact Hlc.
    + destruct (children_of data m); [congruence | discriminate].
    + intros y Hy. apply in_map_iff in Hy. destruct Hy as [c [<- _]].
      apply (bi_range _ _ _ Inv (position c ms) (position d od)).
Qed.

End Positivity.

(** * Where the bottom-up matrix is positive *)

(** X3.  On an acyclic hierarchy the entry of mission [m] and data node [d]
    is positive exactly when some leaf mission at or below [m] is linked to
    [d] by a usage record; usage records of missions that have children
    never contribute. *)
Theorem X3_entry_positive_iff_leaf_uses (data : Payload) :
  hierarchy_known data -> acyclic (BottomUp.M data) ->
  exists mat,
    BottomUp.bottom_up_process data = Ok mat /\
    forall m d,
      In m (BottomUp.missions data) ->
      In d (BottomUp.operational_data data) ->
      ((0 < entry mat (position m (BottomUp.missions data))
                      (position d (BottomUp.operational_data data)))%Q <->
       exists l, In l (BottomUp.missions data) /\ leaf_below data l m /\
                 uses data d l = true).
Proof.
  intros Hk Hac.
  destruct (bottom_up_process_spec data Hk Hac) as [mat [tp [E [Inv Hall]]]].
  exists mat. split; [exact E|]. intros m d Hm Hd.
  apply (entry_positive_bounded data Hk mat tp Inv Hall
           (length (NX.nodes (BottomUp.M data))) m Hm); [|assumption].
  intros w Hw.
  apply (acyclic_walk_end_length _ w m (M_wf data) Hac); [|assumption].
  now apply M_nodes.
Qed.

Lemma X3_witness :
  exists mat,
    BottomUp.bottom_up_process scenario_A = Ok mat /\
    forall m d,
      In m (BottomUp.missions scenario_A) ->
      In d (BottomUp.operational_data scenario_A) ->
      ((0 < entry mat (position m (BottomUp.missions scenario_A))
                      (position d (BottomUp.operational_data scenario_A)))%Q <->
       exists l, In l (BottomUp.missions scenario_A) /\
                 leaf_below scenario_A l m /\
                 uses scenario_A d l = true).
Proof.
  apply (X3_entry_positive_iff_leaf_uses scenario_A).
  - intros r [<-|[]]; simpl; auto.
  - apply (topological_order_acyclic _ ["M1"; "M2"]).
    split; [|split].
    + repeat constructor; simpl; intuition discriminate.
    + intros v. simpl. tauto.
    + intros u v [H|[]]. inversion H. simpl. lia.
Defined.

(** ** Dicts keyed by label *)

Lemma dict_get_none {V} k (m : list (ident * V)) :
  dict_get k m = None <-> ~ In k (map fst m).
Proof.
  induction m as [|[k' v] m IH]; simpl; [tauto|].
  destruct (String.eqb k k') eqn:E.
  - apply String.eqb_eq in E. subst. split; [discriminate | tauto].
  - apply String.eqb_neq in E. rewrite IH. split.
    + intros H [H'|H']; [congruence | tauto].
    + tauto.
Qed.

Lemma dict_set_keys {V} k (v : V) m x :
  In x (map fst (dict_set k v m)) <-> x = k \/ In x (map fst m).
Proof.
  induction m as [|[k' v'] m IH]; simpl.
  - intuition.
  - destruct (String.eqb k k') eqn:E; simpl.
    + apply String.eqb_eq in E. subst. intuition.
    + rewrite IH. intuition.
Qed.

Lemma dict_get_split {V} k (v : V) pre post :
  ~ In k (map fst pre) -> dict_get k (pre ++ (k, v) :: post) = Some v.
Proof.
  intros H. rewrite dict_get_app_none by now apply dict_get_none.
  simpl. now rewrite String.eqb_refl.
Qed.

Lemma labels_defined recs d : forall acc,
  In d (map UUID recs) ->
  exists n,
    dict_get d (fold_left (fun acc r => dict_set (UUID r) (Name r) acc)
                          recs acc) = Some n.
Proof.
  induction recs as [|r recs IH] using rev_ind; intros acc H;
    [contradiction|].
  rewrite fold_left_app. simpl.
  destruct (string_dec d (UUID r)) as [->|Hne].
  - eexists. apply dict_get_set_eq.
  - rewrite dict_get_set_neq by assumption. apply IH.
    rewrite map_app, in_app_iff in H. simpl in H. intuition congruence.
Qed.

Lemma relabel_fold (od : list (ident * string)) scores : forall acc,
  (forall kv, In kv scores -> dict_get (fst kv) od <> None) ->
  exists resp,
    foldM (fun acc (kv : ident * Q) =>
             match dict_get (fst kv) od with
             | Some label => Ok (dict_set label (snd kv) acc)
             | None => Raise KeyError
             end) scores acc = Ok resp /\
    (forall name, In name (map fst resp) <->
       In name (map fst acc) \/
       exists kv, In kv scores /\ dict_get (fst kv) od = Some name) /\
    (forall name,
       (forall x, In x scores -> dict_get (fst x) od <> Some name) ->
       dict_get name resp = dict_get name acc) /\
    (forall pre kv post name,
       scores = pre ++ kv :: post ->
       dict_get (fst kv) od = Some name ->
       (forall x, In x post -> dict_get (fst x) od <> Some name) ->
       dict_get name resp = Some (snd kv)).
Proof.
  induction scores as [|kv0 scores IH]; intros acc Hdef.
  - exists acc. split; [reflexivity|]. split; [|split].
    + intros name. split; [auto | intros [H|[kv [[] _]]]; assumption].
    + reflexivity.
    + intros [|? ?] ? ? ? E; discriminate.
  - cbn [foldM].
    destruct (dict_get (fst kv0) od) as [l0|] eqn:El0;
      [|exfalso; now apply (Hdef kv0 (or_introl eq_refl))].
    cbn [bind].
    destruct (IH (dict_set l0 (snd kv0) acc)) as [resp [E [Hkeys [Hnone Hlast]]]].
    { intros kv Hkv. apply Hdef. now right. }
    exists resp. split; [exact E|]. split; [|split].
    + intros name. rewrite Hkeys, dict_set_keys. split.
      * intros [[->|H]|[kv [Hkv Hl]]].
        -- right. exists kv0. split; [now left | assumption].
        -- now left.
        -- right. exists kv. split; [now right | assumption].
      * intros [H|[kv [[<-|Hkv] Hl]]].
        -- left. now right.
        -- left. left. congruence.
        -- right. now exists kv.
    + intros name Hall. rewrite Hnone.
      * apply dict_get_set_neq. intros ->.
        now apply (Hall kv0 (or_introl eq_refl)).
      * intros x Hx. apply Hall. now right.
    + intros pre kv post name Es Hl Hpost.
      destruct pre as [|p pre]; simpl in Es; inversion Es; subst.
      * rewrite (Hnone name Hpost).
        rewrite El0 in Hl. inversion Hl; subst. apply dict_get_set_eq.
      * now apply (Hlast pre kv post name).
Qed.

Lemma criticality_fold_keys limit data ds : forall acc visited sc v',
  foldM (fun (acc : list (ident * Q) * list ident) node_id =>
    r <- Criticality.calculate_depth limit (Criticality.G data) node_id
           (snd acc) ;;
    Ok (dict_set node_id
          (inject_Z (Criticality.calculate_breadth (Criticality.G data)
                       node_id)
           + 1 / (inject_Z (fst r) + 1))%Q (fst acc), snd r))
    ds (acc, visited) = Ok (sc, v') ->
  NoDup (map fst acc ++ ds) ->
  map fst sc = map fst acc ++ ds.
Proof.
  induction ds as [|d0 ds IH]; intros acc visited sc v' E Hnd.
  - simpl in E. inversion E; subst. now rewrite app_nil_r.
  - cbn [foldM snd fst] in E.
    destruct (Criticality.calculate_depth limit (Criticality.G data) d0
                visited) as [[dep v1]| |] eqn:Ed; cbn [bind fst snd] in E;
      try discriminate.
    assert (Hnew : dict_get d0 acc = None).
    { apply dict_get_none. intros Hin.
      apply NoDup_remove_2 in Hnd. apply Hnd, in_app_iff. now left. }
    rewrite (dict_set_new _ _ _ Hnew) in E.
    apply IH in E.
    + rewrite E, map_app, <- app_assoc. reflexivity.
    + rewrite map_app, <- app_assoc. exact Hnd.
Qed.

Lemma normalize_keys l : map fst (Criticality.normalize l) = map fst l.
Proof. unfold Criticality.normalize. rewrite map_map. reflexivity. Qed.

(** * The response of the criticality handler *)

(** X19.  The response of [bfs_dfs_analysis] is keyed by the names of the
    data nodes, not by their identifiers: its keys are exactly the names, and
    under each name it holds the normalized score of the last data node (in
    payload order) that carries this name; the scores of earlier data nodes
    with the same name are not in the response. *)
Theorem X19_response_keyed_by_name (data : Payload) (limit : nat)
    (visited : list ident) :
  (length (NX.nodes (Criticality.G data)) < limit)%nat ->
  exists sc v' resp,
    Criticality.bfs_dfs_analysis limit visited data = Ok (sc, v') /\
    Labels.response limit visited data = Ok resp /\
    (forall name, In name (map fst resp) <->
       exists d, In d (Criticality.operational_data data) /\
                 dict_get d (Labels.operational_data data) = Some name) /\
    (forall pre d post name,
       Criticality.operational_data data = pre ++ d :: post ->
       dict_get d (Labels.operational_data data) = Some name ->
       (forall x, In x post ->
          dict_get x (Labels.operational_data data) <> Some name) ->
       dict_get name resp = dict_get d (Criticality.normalized_scores sc)).
Proof.
  intros Hl.
  destruct (criticality_loop_total limit data visited Hl) as [sc [v' [E _]]].
  assert (Hkeys : map fst sc = Criticality.operational_data data).
  { unfold Criticality.criticality_loop in E.
    apply criticality_fold_keys in E; [exact E|]. simpl.
    apply dict_keys_NoDup. }
  assert (Hnk : map fst (Criticality.normalize sc) =
                Criticality.operational_data data)
    by now rewrite normalize_keys.
  assert (Hdef : forall l, map fst l = Criticality.operational_data data ->
            forall kv : ident * Q, In kv l ->
              dict_get (fst kv) (Labels.operational_data data) <> None).
  { intros l Hk kv Hkv.
    destruct (labels_defined (OperationalData data) (fst kv) []) as [n Hn].
    - apply dict_keys_In. fold (Criticality.operational_data data).
      rewrite <- Hk. now apply in_map.
    - unfold Labels.operational_data. congruence. }
  destruct (relabel_fold (Labels.operational_data data)
              (Criticality.normalize sc) [] (Hdef _ Hnk))
    as [resp [Er [Hin [_ Hlast]]]].
  destruct (relabel_fold (Labels.operational_data data) sc [] (Hdef _ Hkeys))
    as [raw [Eraw _]].
  exists (Criticality.mkScores sc (Criticality.normalize sc)), v', resp.
  unfold Labels.response, Criticality.bfs_dfs_analysis.
  rewrite E. cbn [bind fst snd].
  unfold Labels.make_scores_info, Labels.relabel.
  cbn [Criticality.normalized_scores Criticality.non_normalized_scores].
  rewrite Er. cbn [bind]. rewrite Eraw. cbn [bind Labels.normalized_scores].
  split; [reflexivity|]. split; [reflexivity|]. split.
  - intros name. rewrite Hin. simpl. split.
    + intros [[]|[kv [Hkv Hn]]]. exists (fst kv). split; [|assumption].
      rewrite <- Hnk. now apply in_map.
    + intros [d [Hd Hn]]. right. rewrite <- Hnk in Hd.
      apply in_map_iff in Hd. destruct Hd as [kv [<- Hkv]]. now exists kv.
  - intros pre d post name Es Hn Hpost.
    rewrite <- Hnk in Es.
    apply map_eq_app in Es. destruct Es as [spre [srest [Es [Epre Erest]]]].
    apply map_eq_cons in Erest.
    destruct Erest as [kv [spost [-> [Ekv Epost]]]].
    rewrite (Hlast spre kv spost name Es).
    + rewrite Es. destruct kv as [k v]. simpl in Ekv. subst k. simpl.
      symmetry. apply dict_get_split. rewrite Epre.
      pose proof (dict_keys_NoDup (map UUID (OperationalData data))) as Hnd.
      fold (Criticality.operational_data data) in Hnd.
      rewrite <- Hnk, Es, map_app in Hnd. simpl in Hnd. rewrite Epre in Hnd.
      apply NoDup_remove_2 in Hnd. intros Hc. apply Hnd, in_app_iff.
      now left.
    + now rewrite Ekv.
    + intros x Hx. apply Hpost. rewrite <- Epost. now apply in_map.
Qed.

Lemma X19_witness :
  exists sc v' resp,
    Criticality.bfs_dfs_analysis 1000 [] scenario_A = Ok (sc, v') /\
    Labels.response 1000 [] scenario_A = Ok resp /\
    (forall name, In name (map fst resp) <->
       exists d, In d (Criticality.operational_data scenario_A) /\
                 dict_get d (Labels.operational_data scenario_A) = Some name) /\
    (forall pre d post name,
       Criticality.operational_data scenario_A = pre ++ d :: post ->
       dict_get d (Labels.operational_data scenario_A) = Some name ->
       (forall x, In x post ->
          dict_get x (Labels.operational_data scenario_A) <> Some name) ->
       dict_get name resp = dict_get d (Criticality.normalized_scores sc)).
Proof.
  apply (X19_response_keyed_by_name scenario_A 1000 []).
  vm_compute. lia.
Defined.
